(** * Token-stream translation and accumulation pipeline

    A shallow embedding of the streaming core of the chat agent:

    - [tokenGenerator]            (services/agentService, classifier)
    - [GET]                       (app/api/agent/stream/route, SSE encoder)
    - [handleStreamResponse]      (hooks/useChatThread, SSE frame parser)
    - [processStreamChunk]        (hooks/useChatThread, accumulator)
    - [processChunksToMessages]   (hooks/useChatThread property test, the
                                   pure simulation of the accumulator)

    and of the code around it:

    - [generator], [processAIMessage]   (services/agentService, the
                                         message-level generator)
    - [sendMessage], the [tools] query  (hooks/useChatThread, route)
    - [middleware]                      (middleware, CORS)
    - [buildContentDispositionAttachment] (lib/storage/upload)
    - [handleFileSelect]                (components/MessageInput)

    JavaScript strings are sequences of UTF-16 code units, byte buffers are
    sequences of octets, and untyped engine payloads are values of
    [JsValue]. *)

From Stdlib Require Import NArith ZArith Ascii String DecimalString.
From stdpp Require Import base tactics option list numbers strings gmap.

Set Default Proof Using "Type".
Set Warnings "-register-all".
Open Scope N_scope.

(** ** JavaScript strings *)

(** A string is its list of UTF-16 code units. *)
Abbreviation jsstring := (list N).

(** An ASCII literal as a JavaScript string. *)
Definition js (s : string) : jsstring :=
  N_of_ascii <$> list_ascii_of_string s.
Arguments js _%_string.

(** [String(n)] for a non-negative integral number. *)
Definition N_toString (n : N) : jsstring :=
  js (NilZero.string_of_uint (N.to_uint n)).

(** [String(z)] for an integral number. *)
Definition Z_toString (z : Z) : jsstring :=
  match z with
  | Zneg p => js "-" ++ N_toString (Npos p)
  | _ => N_toString (Z.to_N z)
  end.

(** [s.startsWith(p)] *)
Fixpoint startsWith (s p : jsstring) {struct p} : bool :=
  match p, s with
  | [], _ => true
  | _ :: _, [] => false
  | a :: p', b :: s' => bool_decide (a = b) && startsWith s' p'
  end.

(** [s.slice(n)] for [0 <= n]. *)
Definition slice (s : jsstring) (n : nat) : jsstring := drop n s.

(** ** Untyped JavaScript values

    Engine events reach the classifier as [unknown].  Numbers are kept to
    the integral ones and [NaN]: the code only ever tests them for
    truthiness or serialises them. *)
Inductive JsValue : Type :=
| JsUndefined
| JsNull
| JsBoolean (b : bool)
| JsNumber (n : Z)
| JsNaN
| JsStr (s : jsstring)
| JsArray (items : list JsValue)
| JsObject (ctor : jsstring) (props : list (jsstring * JsValue)).

(** [!!v] *)
Definition truthy (v : JsValue) : bool :=
  match v with
  | JsUndefined | JsNull | JsNaN => false
  | JsBoolean b => b
  | JsNumber n => negb (Z.eqb n 0)
  | JsStr s => negb (bool_decide (s = []))
  | JsArray _ | JsObject _ _ => true
  end.

(** [a || b] *)
Definition js_or (a b : JsValue) : JsValue := if truthy a then a else b.

(** [typeof v === "string"] *)
Definition typeof_string (v : JsValue) : bool :=
  match v with JsStr _ => true | _ => false end.

(** [typeof v === "object"] *)
Definition typeof_object (v : JsValue) : bool :=
  match v with JsNull | JsArray _ | JsObject _ _ => true | _ => false end.

(** [Array.isArray(v)] *)
Definition isArray (v : JsValue) : bool :=
  match v with JsArray _ => true | _ => false end.

(** Own-property lookup in an object literal. *)
Fixpoint assoc (k : jsstring) (props : list (jsstring * JsValue)) : option JsValue :=
  match props with
  | [] => None
  | (k', v) :: rest => if bool_decide (k' = k) then Some v else assoc k rest
  end.

(** [v.k] on a value that is neither [null] nor [undefined]; the properties
    read by the pipeline ([content], [id], [name], [tool_calls], [text],
    [functionCall], [args], [message]) exist on objects only. *)
Definition get (k : string) (v : JsValue) : JsValue :=
  match v with
  | JsObject _ props => default JsUndefined (assoc (js k) props)
  | _ => JsUndefined
  end.

(** [v?.k] *)
Definition opt_get (k : string) (v : JsValue) : JsValue := get k v.

(** ["k" in v] for [v] of type object. *)
Definition has (k : string) (v : JsValue) : bool :=
  match v with
  | JsObject _ props => bool_decide (is_Some (assoc (js k) props))
  | _ => false
  end.

(** [v?.constructor?.name] *)
Definition constructorName (v : JsValue) : JsValue :=
  match v with
  | JsUndefined | JsNull => JsUndefined
  | JsBoolean _ => JsStr (js "Boolean")
  | JsNumber _ | JsNaN => JsStr (js "Number")
  | JsStr _ => JsStr (js "String")
  | JsArray _ => JsStr (js "Array")
  | JsObject ctor _ => JsStr ctor
  end.

(** An object literal [{ k1: v1, ... }]. *)
Definition obj (props : list (string * JsValue)) : JsValue :=
  JsObject (js "Object") (prod_map js id <$> props).

(** ** JSON.stringify

    The serialisation of ECMA-262 (SerializeJSONProperty), on [JsValue]:
    [None] is the [undefined] result. *)

Definition hexDigit (d : N) : N :=
  if d <? 10 then 48 + d else 87 + d.

(** [\uXXXX] with lower-case digits. *)
Definition unicodeEscape (c : N) : jsstring :=
  js "\u" ++ [hexDigit (N.shiftr c 12 mod 16); hexDigit (N.shiftr c 8 mod 16);
              hexDigit (N.shiftr c 4 mod 16); hexDigit (c mod 16)].

Definition isLeadSurrogate (c : N) : bool := (0xD800 <=? c) && (c <=? 0xDBFF).
Definition isTrailSurrogate (c : N) : bool := (0xDC00 <=? c) && (c <=? 0xDFFF).

Fixpoint quoteBody (s : jsstring) : jsstring :=
  match s with
  | [] => []
  | c :: rest =>
      if bool_decide (c = 8) then js "\b" ++ quoteBody rest
      else if bool_decide (c = 9) then js "\t" ++ quoteBody rest
      else if bool_decide (c = 10) then js "\n" ++ quoteBody rest
      else if bool_decide (c = 12) then js "\f" ++ quoteBody rest
      else if bool_decide (c = 13) then js "\r" ++ quoteBody rest
      else if bool_decide (c = 34) then [92; 34] ++ quoteBody rest
      else if bool_decide (c = 92) then [92; 92] ++ quoteBody rest
      else if c <? 32 then unicodeEscape c ++ quoteBody rest
      else if isLeadSurrogate c then
        match rest with
        | d :: rest' =>
            if isTrailSurrogate d then c :: d :: quoteBody rest'
            else unicodeEscape c ++ quoteBody rest
        | [] => unicodeEscape c
        end
      else if isTrailSurrogate c then unicodeEscape c ++ quoteBody rest
      else c :: quoteBody rest
  end.

(** QuoteJSONString *)
Definition quoteJSONString (s : jsstring) : jsstring :=
  [34] ++ quoteBody s ++ [34].

(** [parts.join(",")] *)
Fixpoint joinComma (parts : list jsstring) : jsstring :=
  match parts with
  | [] => []
  | [p] => p
  | p :: rest => p ++ js "," ++ joinComma rest
  end.

(** [JSON.stringify(v)]; [None] is [undefined].  The properties of an
    object are written in the order of the list, which stands for the
    order in which the object enumerates them (in JavaScript the
    integer-like names come first); a number is written in decimal, as
    JavaScript writes the integers below 10^21 in magnitude. *)
Fixpoint JSON_stringify (v : JsValue) : option jsstring :=
  match v with
  | JsUndefined => None
  | JsNull | JsNaN => Some (js "null")
  | JsBoolean true => Some (js "true")
  | JsBoolean false => Some (js "false")
  | JsNumber n => Some (Z_toString n)
  | JsStr s => Some (quoteJSONString s)
  | JsArray items =>
      Some (js "[" ++
            joinComma ((fun x => default (js "null") (JSON_stringify x)) <$> items) ++
            js "]")
  | JsObject _ props =>
      Some (js "{" ++
            joinComma
              ((fix members (ps : list (jsstring * JsValue)) : list jsstring :=
                  match ps with
                  | [] => []
                  | (k, x) :: ps' =>
                      match JSON_stringify x with
                      | Some t => (quoteJSONString k ++ js ":" ++ t) :: members ps'
                      | None => members ps'
                      end
                  end) props) ++
            js "}")
  end.

(** A template-literal hole [${v}] filled with the result of
    [JSON.stringify]. *)
Definition templateHole (o : option jsstring) : jsstring :=
  default (js "undefined") o.

(** ** ChunkClassifier: [tokenGenerator]

    The generator drains the engine's event sequence; every event is
    classified on its own.  [Date.now()] is read at most once per content
    item: [now i] is the reading taken while item [i] is handled. *)

(** [{ type: "token", content, messageId }] *)
Definition tokenChunk (content messageId : JsValue) : JsValue :=
  obj [("type", JsStr (js "token")); ("content", content); ("messageId", messageId)].

(** [{ type: "tool_call", toolCall, messageId }] *)
Definition toolCallChunk (toolCall messageId : JsValue) : JsValue :=
  obj [("type", JsStr (js "tool_call")); ("toolCall", toolCall); ("messageId", messageId)].

(** [{ type: "tool_result", toolResult: { name, content }, messageId }] *)
Definition toolResultChunk (name content messageId : JsValue) : JsValue :=
  obj [("type", JsStr (js "tool_result"));
       ("toolResult", obj [("name", name); ("content", content)]);
       ("messageId", messageId)].

(** [JSON.stringify(v)] as a value. *)
Definition JSON_stringify_value (v : JsValue) : JsValue :=
  match JSON_stringify v with Some s => JsStr s | None => JsUndefined end.

(** The body of [for (const item of content)]. *)
Definition classifyContentItem (now : N) (aiMessage item : JsValue) : list JsValue :=
  if typeof_string item && truthy item then
    [tokenChunk item (get "id" aiMessage)]
  else if truthy item && typeof_object item then
    (if has "text" item && truthy (get "text" item)
     then [tokenChunk (get "text" item) (get "id" aiMessage)] else [])
    ++
    (if has "functionCall" item && truthy (get "functionCall" item)
     then
       let fc := get "functionCall" item in
       [toolCallChunk
          (obj [("name", get "name" fc);
                ("args", get "args" fc);
                ("id", js_or (get "id" aiMessage) (JsStr (N_toString now)));
                ("type", JsStr (js "tool_call"))])
          (get "id" aiMessage)]
     else [])
  else [].

(** The chunks derived from [aiMessage.content]. *)
Definition classifyContent (now : nat → N) (aiMessage : JsValue) : list JsValue :=
  let content := get "content" aiMessage in
  if typeof_string content && truthy content then
    [tokenChunk content (get "id" aiMessage)]
  else
    match content with
    | JsArray items =>
        mjoin (imap (fun i item => classifyContentItem (now i) aiMessage item) items)
    | _ => []
    end.

(** The chunks derived from [aiMessage.tool_calls]. *)
Definition classifyToolCalls (aiMessage : JsValue) : list JsValue :=
  match get "tool_calls" aiMessage with
  | JsArray (tc :: tcs) =>
      (fun toolCall => toolCallChunk toolCall (get "id" aiMessage)) <$> (tc :: tcs)
  | _ => []
  end.

(** The branch [constructorName === "AIMessageChunk"]. *)
Definition classifyAIMessageChunk (now : nat → N) (aiMessage : JsValue) : list JsValue :=
  classifyContent now aiMessage ++ classifyToolCalls aiMessage.

(** The branch [constructorName === "ToolMessage"]. *)
Definition classifyToolMessage (toolMessage : JsValue) : list JsValue :=
  [toolResultChunk
     (js_or (get "name" toolMessage) (JsStr (js "unknown")))
     (if typeof_string (get "content" toolMessage)
      then get "content" toolMessage
      else JSON_stringify_value (get "content" toolMessage))
     (get "id" toolMessage)].

(** [a === b] against a string literal. *)
Definition strictEqStr (v : JsValue) (s : string) : bool :=
  match v with JsStr t => bool_decide (t = js s) | _ => false end.

(** One iteration of [for await (const chunk of iterable)]: the chunks
    yielded for one engine event. *)
Definition classify (now : nat → N) (chunk : JsValue) : list JsValue :=
  if negb (truthy chunk) then []
  else
    match chunk with
    | JsArray [chunkType; chunkData] =>
        if strictEqStr chunkType "messages" then
          match chunkData with
          | JsArray (message :: _) =>
              if negb (truthy message) then []
              else
                (if strictEqStr (constructorName message) "AIMessageChunk"
                 then classifyAIMessageChunk now message else [])
                ++
                (if strictEqStr (constructorName message) "ToolMessage"
                 then classifyToolMessage message else [])
          | _ => []
          end
        else []
    | _ => []
    end.

(** The whole generator over a finite event sequence; [clock k] gives the
    readings of [Date.now()] during event [k]. *)
Definition tokenGenerator (clock : nat → nat → N) (iterable : list JsValue) : list JsValue :=
  mjoin (imap (fun k chunk => classify (clock k) chunk) iterable).

(** Mock messages as the tests build them. *)
Definition AIMessageChunk (content id tool_calls : JsValue) : JsValue :=
  JsObject (js "AIMessageChunk")
    [(js "content", content); (js "id", id); (js "tool_calls", tool_calls)].

Definition ToolMessage (name content id : JsValue) : JsValue :=
  JsObject (js "ToolMessage")
    [(js "name", name); (js "content", content); (js "id", id)].

(** An engine event [["messages", [message, metadata]]]. *)
Definition messagesEvent (message : JsValue) : JsValue :=
  JsArray [JsStr (js "messages"); JsArray [message; obj []]].

(** ** TextEncoder and TextDecoder (UTF-8)

    Byte buffers are lists of octets.  The decoder is the streaming UTF-8
    decoder of the Encoding Standard, as [new TextDecoder()] with
    [decode(value, { stream: true })] runs it: its state survives from one
    call to the next. *)
Abbreviation bytes := (list N).

Definition utf8_bytes (cp : N) : bytes :=
  if cp <? 0x80 then [cp]
  else if cp <? 0x800 then
    [N.lor 0xC0 (N.shiftr cp 6); N.lor 0x80 (N.land cp 0x3F)]
  else if cp <? 0x10000 then
    [N.lor 0xE0 (N.shiftr cp 12); N.lor 0x80 (N.land (N.shiftr cp 6) 0x3F);
     N.lor 0x80 (N.land cp 0x3F)]
  else
    [N.lor 0xF0 (N.shiftr cp 18); N.lor 0x80 (N.land (N.shiftr cp 12) 0x3F);
     N.lor 0x80 (N.land (N.shiftr cp 6) 0x3F); N.lor 0x80 (N.land cp 0x3F)].

(** [new TextEncoder().encode(s)]; a lone surrogate becomes U+FFFD. *)
Fixpoint TextEncoder_encode (s : jsstring) : bytes :=
  match s with
  | [] => []
  | c :: rest =>
      if isLeadSurrogate c then
        match rest with
        | d :: rest' =>
            if isTrailSurrogate d
            then utf8_bytes (0x10000 + (c - 0xD800) * 0x400 + (d - 0xDC00))
                   ++ TextEncoder_encode rest'
            else utf8_bytes 0xFFFD ++ TextEncoder_encode rest
        | [] => utf8_bytes 0xFFFD
        end
      else if isTrailSurrogate c then utf8_bytes 0xFFFD ++ TextEncoder_encode rest
      else utf8_bytes c ++ TextEncoder_encode rest
  end.

Record TextDecoder : Type := {
  code_point : N;
  bytes_seen : N;
  bytes_needed : N;
  lower_boundary : N;
  upper_boundary : N;
  BOM_seen : bool
}.

Definition new_TextDecoder : TextDecoder :=
  {| code_point := 0; bytes_seen := 0; bytes_needed := 0;
     lower_boundary := 0x80; upper_boundary := 0xBF; BOM_seen := false |}.

Definition inRange (lo hi b : N) : bool := (lo <=? b) && (b <=? hi).

(** The decoder with no sequence in progress. *)
Definition idle (d : TextDecoder) : TextDecoder :=
  {| code_point := 0; bytes_seen := 0; bytes_needed := 0;
     lower_boundary := 0x80; upper_boundary := 0xBF; BOM_seen := BOM_seen d |}.

(** A lead byte, or a byte standing alone; the result is the new state and
    the code points emitted. *)
Definition utf8_lead (d : TextDecoder) (byte : N) : TextDecoder * list N :=
  if inRange 0x00 0x7F byte then (idle d, [byte])
  else if inRange 0xC2 0xDF byte then
    ({| code_point := N.land byte 0x1F; bytes_seen := 0; bytes_needed := 1;
        lower_boundary := 0x80; upper_boundary := 0xBF; BOM_seen := BOM_seen d |}, [])
  else if inRange 0xE0 0xEF byte then
    ({| code_point := N.land byte 0xF; bytes_seen := 0; bytes_needed := 2;
        lower_boundary := if bool_decide (byte = 0xE0) then 0xA0 else 0x80;
        upper_boundary := if bool_decide (byte = 0xED) then 0x9F else 0xBF;
        BOM_seen := BOM_seen d |}, [])
  else if inRange 0xF0 0xF4 byte then
    ({| code_point := N.land byte 0x7; bytes_seen := 0; bytes_needed := 3;
        lower_boundary := if bool_decide (byte = 0xF0) then 0x90 else 0x80;
        upper_boundary := if bool_decide (byte = 0xF4) then 0x8F else 0xBF;
        BOM_seen := BOM_seen d |}, [])
  else (idle d, [0xFFFD]).

(** The handler of the UTF-8 decoder for one byte, in replacement mode. *)
Definition utf8_step (d : TextDecoder) (byte : N) : TextDecoder * list N :=
  if bool_decide (bytes_needed d = 0) then utf8_lead d byte
  else if negb (inRange (lower_boundary d) (upper_boundary d) byte) then
    let '(d', out) := utf8_lead (idle d) byte in (d', 0xFFFD :: out)
  else
    let cp := N.lor (N.shiftl (code_point d) 6) (N.land byte 0x3F) in
    if bool_decide (bytes_seen d + 1 = bytes_needed d) then (idle d, [cp])
    else
      ({| code_point := cp; bytes_seen := bytes_seen d + 1;
          bytes_needed := bytes_needed d;
          lower_boundary := 0x80; upper_boundary := 0xBF;
          BOM_seen := BOM_seen d |}, []).

(** A code point as UTF-16 code units. *)
Definition utf16_units (cp : N) : jsstring :=
  if cp <? 0x10000 then [cp]
  else [0xD800 + N.shiftr (cp - 0x10000) 10; 0xDC00 + N.land (cp - 0x10000) 0x3FF].

(** Output of one code point: a leading U+FEFF is dropped. *)
Definition emit (d : TextDecoder) (cp : N) : TextDecoder * jsstring :=
  let d' := {| code_point := code_point d; bytes_seen := bytes_seen d;
               bytes_needed := bytes_needed d;
               lower_boundary := lower_boundary d;
               upper_boundary := upper_boundary d; BOM_seen := true |} in
  if negb (BOM_seen d) && bool_decide (cp = 0xFEFF) then (d', [])
  else (d', utf16_units cp).

Fixpoint emitAll (d : TextDecoder) (cps : list N) : TextDecoder * jsstring :=
  match cps with
  | [] => (d, [])
  | cp :: rest =>
      let '(d1, s1) := emit d cp in
      let '(d2, s2) := emitAll d1 rest in
      (d2, s1 ++ s2)
  end.

(** [decoder.decode(value, { stream: true })]: the text decoded and the
    decoder afterwards. *)
Fixpoint decode (d : TextDecoder) (value : bytes) : TextDecoder * jsstring :=
  match value with
  | [] => (d, [])
  | byte :: rest =>
      let '(d1, cps) := utf8_step d byte in
      let '(d2, s1) := emitAll d1 cps in
      let '(d3, s2) := decode d2 rest in
      (d3, s1 ++ s2)
  end.

(** ** TokenStreamEncoder: the [GET] route

    The stream controller keeps the byte buffers enqueued so far and
    whether it has been closed. *)
Record Controller : Type := {
  queue : list bytes;
  closed : bool
}.

Definition enqueue (value : bytes) (c : Controller) : Controller :=
  {| queue := queue c ++ [value]; closed := closed c |}.

Definition close (c : Controller) : Controller :=
  {| queue := queue c; closed := true |}.

(** [const send = (data) => controller.enqueue(encoder.encode(
    `data: ${JSON.stringify(data)}\n\n`))] *)
Definition send (data : JsValue) (c : Controller) : Controller :=
  enqueue
    (TextEncoder_encode (js "data: " ++ templateHole (JSON_stringify data) ++ [10; 10]))
    c.

(** The bytes [send] enqueues for [data]. *)
Definition dataFrame (data : JsValue) : bytes :=
  TextEncoder_encode (js "data: " ++ templateHole (JSON_stringify data) ++ [10; 10]).

(** How draining the chunk sequence ends: it is exhausted, or an exception
    [err] is thrown (by [streamResponse] or by the iteration). *)
Inductive Outcome : Type :=
| Completed
| Raised (err : JsValue).

(** [(err as Error)?.message || "Stream error"] *)
Definition errorMessage (err : JsValue) : JsValue :=
  js_or (opt_get "message" err) (JsStr (js "Stream error")).

(** The body of [start(controller)]: [chunks] are the values the iterable
    yields before [outcome]; [threadIdParam] is
    [searchParams.get("threadId")]. *)
Definition GET (threadIdParam : JsValue) (chunks : list JsValue) (outcome : Outcome)
  : Controller :=
  let threadId := js_or threadIdParam (JsStr (js "unknown")) in
  let c0 := {| queue := []; closed := false |} in
  let c1 := enqueue (TextEncoder_encode (js ": connected" ++ [10; 10])) c0 in
  let c2 := foldl (fun c chunk => send chunk c) c1 chunks in
  let c3 :=
    match outcome with
    | Completed =>
        let c := send (obj [("type", JsStr (js "done"))]) c2 in
        let c := enqueue (TextEncoder_encode (js "event: done" ++ [10])) c in
        enqueue (TextEncoder_encode (js "data: {}" ++ [10; 10])) c
    | Raised err =>
        let c := send (obj [("type", JsStr (js "error")); ("error", errorMessage err)]) c2 in
        let c := enqueue (TextEncoder_encode (js "event: error" ++ [10])) c in
        enqueue
          (TextEncoder_encode
             (js "data: " ++
              templateHole
                (JSON_stringify (obj [("message", errorMessage err); ("threadId", threadId)]))
              ++ [10; 10]))
          c
    end in
  close c3.

(** An [Error] object with the given message. *)
Definition Error (message : jsstring) : JsValue :=
  JsObject (js "Error") [(js "message", JsStr message)].

(** ** Wire and message types of the client *)

Inductive ChunkType : Type :=
| T_token | T_tool_call | T_tool_result | T_done | T_error.

Record ToolCall : Type := {
  tc_name : jsstring;
  tc_args : JsValue;
  tc_id : jsstring;
  tc_type : jsstring
}.

Record ToolResult : Type := {
  tr_name : jsstring;
  tr_content : jsstring
}.

(** [interface StreamChunk]; an optional field that is missing is [None]. *)
Record StreamChunk : Type := {
  c_type : ChunkType;
  c_content : option jsstring;
  c_toolCall : option ToolCall;
  c_toolResult : option ToolResult;
  c_error : option jsstring;
  c_messageId : option jsstring
}.

Inductive MessageType : Type :=
| M_human | M_ai | M_tool | M_error.

(** The [data] object of a message, with the fields the accumulator reads
    or writes. *)
Record MessageData : Type := {
  d_id : jsstring;
  d_content : jsstring;
  d_tool_calls : option (list ToolCall);
  d_name : option jsstring;
  d_status : option jsstring;
  d_tool_call_id : option jsstring
}.

Record MessageResponse : Type := {
  m_type : MessageType;
  m_data : MessageData
}.

#[global] Instance ChunkType_eq_dec : EqDecision ChunkType.
Proof. solve_decision. Defined.

#[global] Instance MessageType_eq_dec : EqDecision MessageType.
Proof. solve_decision. Defined.

(** [s || d] for an optional string: a missing and an empty string are
    both falsy. *)
Definition str_or (s : option jsstring) (d : jsstring) : jsstring :=
  match s with
  | Some (c :: t) => c :: t
  | _ => d
  end.

(** [!s] for [s : string | null]. *)
Definition falsy (s : option jsstring) : bool :=
  match s with
  | Some (_ :: _) => false
  | _ => true
  end.

(** [array.findIndex(p)]; [None] stands for [-1]. *)
Fixpoint findIndex {A : Type} (p : A → bool) (l : list A) : option nat :=
  match l with
  | [] => None
  | x :: rest => if p x then Some 0%nat else S <$> findIndex p rest
  end.

(** [(m) => m.type === "ai" && m.data.id === currentMessageId] *)
Definition isCurrentAi (currentMessageId : option jsstring) (m : MessageResponse) : bool :=
  bool_decide (m_type m = M_ai) && bool_decide (Some (d_id (m_data m)) = currentMessageId).

(** [{ ...m, data: { ...m.data, content } }] *)
Definition withContent (m : MessageResponse) (content : jsstring) : MessageResponse :=
  {| m_type := m_type m;
     m_data := {| d_id := d_id (m_data m); d_content := content;
                  d_tool_calls := d_tool_calls (m_data m);
                  d_name := d_name (m_data m); d_status := d_status (m_data m);
                  d_tool_call_id := d_tool_call_id (m_data m) |} |}.

(** [{ ...m, data: { ...m.data, tool_calls } }] *)
Definition withToolCalls (m : MessageResponse) (tool_calls : list ToolCall) : MessageResponse :=
  {| m_type := m_type m;
     m_data := {| d_id := d_id (m_data m); d_content := d_content (m_data m);
                  d_tool_calls := Some tool_calls;
                  d_name := d_name (m_data m); d_status := d_status (m_data m);
                  d_tool_call_id := d_tool_call_id (m_data m) |} |}.

(** [{ type: "ai", data: { id, content } }] *)
Definition aiMessage (id content : jsstring) : MessageResponse :=
  {| m_type := M_ai;
     m_data := {| d_id := id; d_content := content; d_tool_calls := None;
                  d_name := None; d_status := None; d_tool_call_id := None |} |}.

(** The tool message built from a [tool_result] chunk. *)
Definition toolMessage (now : N) (messageId : option jsstring) (toolResult : ToolResult)
  : MessageResponse :=
  {| m_type := M_tool;
     m_data := {| d_id := str_or messageId (js "tool-" ++ N_toString now);
                  d_content := tr_content toolResult;
                  d_tool_calls := None;
                  d_name := Some (tr_name toolResult);
                  d_status := Some (js "success");
                  d_tool_call_id := Some (str_or messageId []) |} |}.

(** The message built from an [error] chunk; the prefix is U+26A0 U+FE0F
    and a space. *)
Definition errorMessageResponse (now : N) (error : option jsstring) : MessageResponse :=
  {| m_type := M_error;
     m_data := {| d_id := js "err-" ++ N_toString now;
                  d_content := [0x26A0; 0xFE0F; 32] ++ str_or error (js "An error occurred");
                  d_tool_calls := None; d_name := None; d_status := None;
                  d_tool_call_id := None |} |}.

(** [existingToolCalls.some((tc) => tc.id === id)] *)
Definition toolCallExists (existingToolCalls : list ToolCall) (id : jsstring) : bool :=
  existsb (fun tc => bool_decide (tc_id tc = id)) existingToolCalls.

(** ** MessageAccumulator: [processStreamChunk] of the hook

    The refs of the hook, the cached message list of the thread (the query
    data under [["messages", threadId]]) and the [isSending] flag. *)
Record HookState : Type := {
  currentMessageIdRef : option jsstring;
  accumulatedContentRef : jsstring;
  messages : list MessageResponse;
  isSending : bool
}.

(** The state [handleStreamResponse] starts from: [isSending] set, the
    refs reset. *)
Definition startStream (old : list MessageResponse) : HookState :=
  {| currentMessageIdRef := None; accumulatedContentRef := [];
     messages := old; isSending := true |}.

(** [processStreamChunk(chunk, threadId)]; [now] is the reading of
    [Date.now()] while the chunk is handled. *)
Definition processStreamChunk (now : N) (chunk : StreamChunk) (st : HookState) : HookState :=
  match c_type chunk with
  | T_token =>
      let accumulated := accumulatedContentRef st ++ str_or (c_content chunk) [] in
      let messageId := str_or (c_messageId chunk) (js "ai-" ++ N_toString now) in
      if falsy (currentMessageIdRef st) then
        {| currentMessageIdRef := Some messageId;
           accumulatedContentRef := accumulated;
           messages := messages st ++ [aiMessage messageId accumulated];
           isSending := isSending st |}
      else
        {| currentMessageIdRef := currentMessageIdRef st;
           accumulatedContentRef := accumulated;
           messages :=
             (let old := messages st in
              match findIndex (isCurrentAi (currentMessageIdRef st)) old with
              | None => old
              | Some idx =>
                  match old !! idx with
                  | Some m => <[idx := withContent m accumulated]> old
                  | None => old
                  end
              end);
           isSending := isSending st |}
  | T_tool_call =>
      match c_toolCall chunk with
      | Some toolCall =>
          if negb (falsy (currentMessageIdRef st)) then
            {| currentMessageIdRef := currentMessageIdRef st;
               accumulatedContentRef := accumulatedContentRef st;
               messages :=
                 (let old := messages st in
                  match findIndex (isCurrentAi (currentMessageIdRef st)) old with
                  | None => old
                  | Some idx =>
                      match old !! idx with
                      | Some m =>
                          let existingToolCalls := default [] (d_tool_calls (m_data m)) in
                          if toolCallExists existingToolCalls (tc_id toolCall) then old
                          else <[idx := withToolCalls m (existingToolCalls ++ [toolCall])]> old
                      | None => old
                      end
                  end);
               isSending := isSending st |}
          else st
      | None => st
      end
  | T_tool_result =>
      match c_toolResult chunk with
      | Some toolResult =>
          {| currentMessageIdRef := None;
             accumulatedContentRef := [];
             messages := messages st ++ [toolMessage now (c_messageId chunk) toolResult];
             isSending := isSending st |}
      | None => st
      end
  | T_done =>
      {| currentMessageIdRef := None; accumulatedContentRef := [];
         messages := messages st; isSending := false |}
  | T_error =>
      {| currentMessageIdRef := None; accumulatedContentRef := [];
         messages := messages st ++ [errorMessageResponse now (c_error chunk)];
         isSending := false |}
  end.

(** The hook run over a decoded chunk sequence, each chunk with its clock
    reading. *)
Definition processStreamChunks (chunks : list (N * StreamChunk)) (st : HookState) : HookState :=
  foldl (fun s nc => processStreamChunk nc.1 nc.2 s) st chunks.

(** ** The pure simulation [processChunksToMessages] of the property test

    Its loop variables. *)
Record LoopState : Type := {
  l_messages : list MessageResponse;
  l_currentMessageId : option jsstring;
  l_accumulatedContent : jsstring
}.

(** One iteration of [for (const chunk of chunks)]. *)
Definition processChunk (now : N) (chunk : StreamChunk) (st : LoopState) : LoopState :=
  match c_type chunk with
  | T_token =>
      let accumulatedContent := l_accumulatedContent st ++ str_or (c_content chunk) [] in
      let messageId := str_or (c_messageId chunk) (js "ai-" ++ N_toString now) in
      if falsy (l_currentMessageId st) then
        {| l_messages := l_messages st ++ [aiMessage messageId accumulatedContent];
           l_currentMessageId := Some messageId;
           l_accumulatedContent := accumulatedContent |}
      else
        {| l_messages :=
             (match findIndex (isCurrentAi (l_currentMessageId st)) (l_messages st) with
              | Some idx =>
                  match l_messages st !! idx with
                  | Some m => <[idx := withContent m accumulatedContent]> (l_messages st)
                  | None => l_messages st
                  end
              | None => l_messages st
              end);
           l_currentMessageId := l_currentMessageId st;
           l_accumulatedContent := accumulatedContent |}
  | T_tool_call =>
      match c_toolCall chunk with
      | Some toolCall =>
          if negb (falsy (l_currentMessageId st)) then
            {| l_messages :=
                 (match findIndex (isCurrentAi (l_currentMessageId st)) (l_messages st) with
                  | Some idx =>
                      match l_messages st !! idx with
                      | Some m =>
                          let existingToolCalls := default [] (d_tool_calls (m_data m)) in
                          <[idx := withToolCalls m (existingToolCalls ++ [toolCall])]>
                            (l_messages st)
                      | None => l_messages st
                      end
                  | None => l_messages st
                  end);
               l_currentMessageId := l_currentMessageId st;
               l_accumulatedContent := l_accumulatedContent st |}
          else st
      | None => st
      end
  | T_tool_result =>
      match c_toolResult chunk with
      | Some toolResult =>
          {| l_messages := l_messages st ++ [toolMessage now (c_messageId chunk) toolResult];
             l_currentMessageId := None;
             l_accumulatedContent := [] |}
      | None => st
      end
  | T_error =>
      {| l_messages := l_messages st ++ [errorMessageResponse now (c_error chunk)];
         l_currentMessageId := None;
         l_accumulatedContent := [] |}
  | T_done =>
      {| l_messages := l_messages st;
         l_currentMessageId := None;
         l_accumulatedContent := [] |}
  end.

(** The loop over a chunk sequence, each chunk with its clock reading. *)
Definition processChunks (chunks : list (N * StreamChunk)) (st : LoopState) : LoopState :=
  foldl (fun s nc => processChunk nc.1 nc.2 s) st chunks.

(** [processChunksToMessages(chunks)] *)
Definition processChunksToMessages (chunks : list (N * StreamChunk)) : list MessageResponse :=
  l_messages
    (processChunks chunks
       {| l_messages := []; l_currentMessageId := None; l_accumulatedContent := [] |}).

(** Chunk literals. *)
Definition tokenOf (content : jsstring) (messageId : option jsstring) : StreamChunk :=
  {| c_type := T_token; c_content := Some content; c_toolCall := None;
     c_toolResult := None; c_error := None; c_messageId := messageId |}.

Definition toolCallOf (toolCall : ToolCall) (messageId : option jsstring) : StreamChunk :=
  {| c_type := T_tool_call; c_content := None; c_toolCall := Some toolCall;
     c_toolResult := None; c_error := None; c_messageId := messageId |}.

Definition toolResultOf (toolResult : ToolResult) (messageId : option jsstring) : StreamChunk :=
  {| c_type := T_tool_result; c_content := None; c_toolCall := None;
     c_toolResult := Some toolResult; c_error := None; c_messageId := messageId |}.

Definition doneChunk : StreamChunk :=
  {| c_type := T_done; c_content := None; c_toolCall := None;
     c_toolResult := None; c_error := None; c_messageId := None |}.

Definition errorOf (error : jsstring) : StreamChunk :=
  {| c_type := T_error; c_content := None; c_toolCall := None;
     c_toolResult := None; c_error := Some error; c_messageId := None |}.

(** [messages.filter((m) => m.type === "ai")] *)
Definition aiMessages (ms : list MessageResponse) : list MessageResponse :=
  filter (fun m => m_type m = M_ai) ms.

(** ** SSEFrameParser: the read loop of [handleStreamResponse] *)

(** [s.split("\n")]: never empty, the last segment is what follows the
    last line feed. *)
Fixpoint split_lf (s : jsstring) : list jsstring :=
  match s with
  | [] => [[]]
  | c :: rest =>
      if bool_decide (c = 10) then [] :: split_lf rest
      else
        match split_lf rest with
        | seg :: segs => (c :: seg) :: segs
        | [] => [[c]]
        end
  end.

(** The decoder and the [buffer] variable of the loop. *)
Record Reader : Type := {
  decoder : TextDecoder;
  buffer : jsstring
}.

Definition newReader : Reader :=
  {| decoder := new_TextDecoder; buffer := [] |}.

(** The head of one loop iteration,
    [buffer += decoder.decode(value, { stream: true });
     const lines = buffer.split("\n"); buffer = lines.pop() || ""]:
    the complete lines and the reader afterwards. *)
Definition readLines (r : Reader) (value : bytes) : list jsstring * Reader :=
  let '(d, text) := decode (decoder r) value in
  let lines := split_lf (buffer r ++ text) in
  (removelast lines, {| decoder := d; buffer := default [] (last lines) |}).

(** The reads of a whole response body, one after the other. *)
Fixpoint readAll (r : Reader) (values : list bytes) : list jsstring * Reader :=
  match values with
  | [] => ([], r)
  | value :: rest =>
      let '(lines, r1) := readLines r value in
      let '(more, r2) := readAll r1 rest in
      (lines ++ more, r2)
  end.

(** [setIsSending(false); currentMessageIdRef.current = null;
    accumulatedContentRef.current = ""] *)
Definition endStream (st : HookState) : HookState :=
  {| currentMessageIdRef := None; accumulatedContentRef := [];
     messages := messages st; isSending := false |}.

Section Client.

(** [JSON.parse(jsonStr) as StreamChunk]; [None] when it throws. *)
Variable JSON_parse : jsstring → option StreamChunk.

(** The chunk a line hands to [processStreamChunk], if any. *)
Definition dataChunk (line : jsstring) : option StreamChunk :=
  if startsWith line (js "data: ") then
    let jsonStr := slice line 6 in
    if bool_decide (jsonStr = []) || bool_decide (jsonStr = js "{}") then None
    else JSON_parse jsonStr
  else None.

(** The body of [for (const line of lines)]. *)
Definition processLine (now : N) (line : jsstring) (st : HookState) : HookState :=
  if bool_decide (line = []) || startsWith line (js ":") then st
  else if startsWith line (js "data: ")
          && (bool_decide (slice line 6 = []) || bool_decide (slice line 6 = js "{}"))
  then st
  else
    let st1 :=
      if startsWith line (js "data: ") then
        match JSON_parse (slice line 6) with
        | Some chunk => processStreamChunk now chunk st
        | None => st
        end
      else st in
    let st2 := if startsWith line (js "event: done") then endStream st1 else st1 in
    if startsWith line (js "event: error") then endStream st2 else st2.

(** The lines of a response in order, each with its clock reading. *)
Definition processLines (lines : list (N * jsstring)) (st : HookState) : HookState :=
  foldl (fun s nl => processLine nl.1 nl.2 s) st lines.

(** The chunks decoded from a run of lines, in order. *)
Definition decodedChunks (lines : list jsstring) : list StreamChunk :=
  omap dataChunk lines.

(** The read loop over the buffers of a response body.  [clock k] is the
    reading of [Date.now()] while line [k] of the response is handled;
    the lines handled so far are counted in the first component. *)
Fixpoint readLoop (clock : nat → N) (values : list bytes)
    (s : nat * Reader * HookState) : nat * Reader * HookState :=
  match values with
  | [] => s
  | value :: rest =>
      let '(k, r, st) := s in
      let '(lines, r') := readLines r value in
      readLoop clock rest
        (k + length lines,
         r',
         processLines (imap (fun i line => (clock (k + i), line)) lines) st)%nat
  end.

End Client.

(** How reading the response body ends: the body is exhausted, a read
    fails, or the request is aborted. *)
Inductive BodyEnd : Type :=
| BodyDone
| ReadFailed
| Aborted.

(** [handleStreamResponse] from the first read on, for a response that is
    [ok] and has a body: [old] is the cached message list, [values] are
    the buffers the reader delivers.  A failed read resets the refs and
    the sending flag in the [catch] block; an abort returns at once. *)
Definition handleStreamResponse (JSON_parse : jsstring → option StreamChunk)
    (clock : nat → N) (old : list MessageResponse) (values : list bytes) (e : BodyEnd)
  : HookState :=
  let '(_, _, st) := readLoop JSON_parse clock values (0%nat, newReader, startStream old) in
  match e with
  | BodyDone => st
  | ReadFailed => endStream st
  | Aborted => st
  end.

(** A parser for tests: it knows the serialisations of two chunks and
    throws on everything else. *)
Definition JSON_parse_sample (s : jsstring) : option StreamChunk :=
  if bool_decide (Some s = JSON_stringify (obj [("type", JsStr (js "done"))]))
  then Some doneChunk
  else if bool_decide
            (Some s = JSON_stringify
                        (tokenChunk (JsStr ([72; 0xE9; 0x4E2D; 10; 92])) (JsStr (js "m1"))))
  then Some (tokenOf [72; 0xE9; 0x4E2D; 10; 92] (Some (js "m1")))
  else None.

(** ** String helpers shared by the request-side code *)

(** [s.split(sep)] for a separator of one code unit: never empty. *)
Fixpoint splitOn (sep : N) (s : jsstring) : list jsstring :=
  match s with
  | [] => [[]]
  | c :: rest =>
      if bool_decide (c = sep) then [] :: splitOn sep rest
      else
        match splitOn sep rest with
        | seg :: segs => (c :: seg) :: segs
        | [] => [[c]]
        end
  end.

(** [parts.join(sep)] *)
Fixpoint join (sep : jsstring) (parts : list jsstring) : jsstring :=
  match parts with
  | [] => []
  | [p] => p
  | p :: rest => p ++ sep ++ join sep rest
  end.

(** White space and line terminators, as [trim] strips them. *)
Definition isWhiteSpace (c : N) : bool :=
  bool_decide (c = 9) || bool_decide (c = 10) || bool_decide (c = 11)
  || bool_decide (c = 12) || bool_decide (c = 13) || bool_decide (c = 32)
  || bool_decide (c = 0xA0) || bool_decide (c = 0x1680)
  || ((0x2000 <=? c) && (c <=? 0x200A))
  || bool_decide (c = 0x2028) || bool_decide (c = 0x2029)
  || bool_decide (c = 0x202F) || bool_decide (c = 0x205F)
  || bool_decide (c = 0x3000) || bool_decide (c = 0xFEFF).

(** [s.trimStart()] *)
Fixpoint trimStart (s : jsstring) : jsstring :=
  match s with
  | [] => []
  | c :: rest => if isWhiteSpace c then trimStart rest else c :: rest
  end.

(** [s.trimEnd()] *)
Definition trimEnd (s : jsstring) : jsstring := reverse (trimStart (reverse s)).

(** [s.trim()] *)
Definition trim (s : jsstring) : jsstring := trimEnd (trimStart s).

(** [s.split(",").map((x) => x.trim()).filter(Boolean)] *)
Definition splitTrimFilter (s : jsstring) : list jsstring :=
  filter (fun x => x ≠ []) (trim <$> splitOn 44 s).


(** ** CORS middleware ([middleware.ts]) *)

Record CORSConfig : Type := {
  allowedOrigins : list jsstring;
  allowedMethods : list jsstring;
  allowedHeaders : list jsstring;
  allowCredentials : bool;
  maxAge : N
}.

(** [getCORSConfig()]; [env] is [process.env.CORS_ALLOWED_ORIGINS]. *)
Definition getCORSConfig (env : option jsstring) : CORSConfig :=
  let originsEnv := str_or env [] in
  {| allowedOrigins := splitTrimFilter originsEnv;
     allowedMethods := [js "GET"; js "POST"; js "PATCH"; js "DELETE"; js "OPTIONS"];
     allowedHeaders := [js "Content-Type"; js "Authorization"; js "X-Requested-With"];
     allowCredentials := true;
     maxAge := 86400 |}.










(** ** Upload headers ([lib/storage/upload.ts]) *)

(** [s.replace(/[...]/g, f)] for a class of single code units: every
    unit of the class is replaced by what [f] returns for it. *)
Definition replaceUnits (inClass : N → bool) (f : N → jsstring) (s : jsstring) : jsstring :=
  s ≫= (fun c => if inClass c then f c else [c]).

(** The class [[\u0000-\u001F\u007F]]. *)
Definition isControl (c : N) : bool := (c <=? 0x1F) || bool_decide (c = 0x7F).

(** The class [[\\/]]. *)
Definition isPathSeparator (c : N) : bool := bool_decide (c = 92) || bool_decide (c = 47).

(** The class [[^\x20-\x7E]]. *)
Definition isNotPrintable (c : N) : bool := negb ((0x20 <=? c) && (c <=? 0x7E)).

(** [sanitizeFilenameForHeader(filename)]; [None] is [undefined]. *)
Definition sanitizeFilenameForHeader (filename : jsstring) : option jsstring :=
  let stripped :=
    trim (replaceUnits isPathSeparator (fun _ => js "_")
            (replaceUnits isControl (fun _ => []) filename)) in
  if bool_decide (stripped = []) then None
  else Some (take 180 stripped).

(** [escapeQuotedString(value)] *)
Definition escapeQuotedString (value : jsstring) : jsstring :=
  replaceUnits (fun c => bool_decide (c = 34)) (fun _ => [92; 34])
    (replaceUnits (fun c => bool_decide (c = 92)) (fun _ => [92; 92]) value).

(** Upper-case hexadecimal digit. *)
Definition hexDigitUpper (d : N) : N := if d <? 10 then 48 + d else 55 + d.

(** [%XX] for an octet. *)
Definition percentEncode (b : N) : jsstring :=
  [37; hexDigitUpper (b / 16); hexDigitUpper (b mod 16)].

(** The characters [encodeURIComponent] leaves alone:
    [A-Z a-z 0-9 - _ . ! ~ * ' ( )]. *)
Definition isUnreserved (c : N) : bool :=
  ((65 <=? c) && (c <=? 90)) || ((97 <=? c) && (c <=? 122)) || ((48 <=? c) && (c <=? 57))
  || bool_decide (c = 45) || bool_decide (c = 95) || bool_decide (c = 46)
  || bool_decide (c = 33) || bool_decide (c = 126) || bool_decide (c = 42)
  || bool_decide (c = 39) || bool_decide (c = 40) || bool_decide (c = 41).

(** [encodeURIComponent(s)]; [None] when it throws [URIError], which it
    does on a lone surrogate. *)
Fixpoint encodeURIComponent (s : jsstring) : option jsstring :=
  match s with
  | [] => Some []
  | c :: rest =>
      if isUnreserved c then cons c <$> encodeURIComponent rest
      else if isLeadSurrogate c then
        match rest with
        | d :: rest' =>
            if isTrailSurrogate d then
              app (utf8_bytes (0x10000 + (c - 0xD800) * 0x400 + (d - 0xDC00)) ≫= percentEncode)
                <$> encodeURIComponent rest'
            else None
        | [] => None
        end
      else if isTrailSurrogate c then None
      else app (utf8_bytes c ≫= percentEncode) <$> encodeURIComponent rest
  end.

(** How a call ends: with a value, or with an exception. *)
Inductive Completion (A : Type) : Type :=
| Returned (value : A)
| Threw.
Arguments Returned {A} value.
Arguments Threw {A}.

(** The class [['()*]]. *)
Definition isQuoteParenStar (c : N) : bool :=
  bool_decide (c = 39) || bool_decide (c = 40) || bool_decide (c = 41) || bool_decide (c = 42).

(** [buildContentDispositionAttachment(originalFilename)] *)
Definition buildContentDispositionAttachment (originalFilename : jsstring)
  : Completion (option jsstring) :=
  match sanitizeFilenameForHeader originalFilename with
  | None => Returned None
  | Some safe =>
      let fallback := replaceUnits isNotPrintable (fun _ => js "_") safe in
      let quotedFallback := escapeQuotedString (str_or (Some fallback) (js "download")) in
      match encodeURIComponent safe with
      | None => Threw
      | Some uri =>
          let encoded :=
            replaceUnits isQuoteParenStar
              (fun c => [37; hexDigitUpper (c / 16); hexDigitUpper (c mod 16)]) uri in
          Returned
            (Some (js "attachment; filename=" ++ [34] ++ quotedFallback ++ [34]
                   ++ js "; filename*=UTF-8''" ++ encoded))
      end
  end.

(** [str.isWellFormed()]: no lone surrogate. *)
Fixpoint isWellFormed (s : jsstring) : bool :=
  match s with
  | [] => true
  | c :: rest =>
      if isLeadSurrogate c then
        match rest with
        | d :: rest' => isTrailSurrogate d && isWellFormed rest'
        | [] => false
        end
      else negb (isTrailSurrogate c) && isWellFormed rest
  end.

(** A reader of an HTTP quoted-string body: it takes a backslash
    together with the unit after it and stops at the first quote that is
    not escaped, returning the value read and what follows the quote. *)
Fixpoint readQuoted (s : jsstring) : option (jsstring * jsstring) :=
  match s with
  | [] => None
  | c :: rest =>
      if bool_decide (c = 34) then Some ([], rest)
      else if bool_decide (c = 92) then
        match rest with
        | d :: rest' => prod_map (cons d) id <$> readQuoted rest'
        | [] => None
        end
      else prod_map (cons c) id <$> readQuoted rest
  end.

(** ** The message-level generator ([generator], [processAIMessage])

    The service's earlier generator listens to the ["updates"] mode and
    yields whole assistant messages. *)

Section MessageGenerator.

(** [String(v)] and the conversion [join] applies to an element; only
    its value on strings is fixed here. *)
Variable ToString : JsValue → jsstring.

(** [(item) => item && typeof item === "object" && "functionCall" in item] *)
Definition hasFunctionCall (item : JsValue) : bool :=
  truthy item && typeof_object item && has "functionCall" item.

(** [Array.isArray(message.content) && message.content.some(...)] *)
Definition hasToolCall (message : JsValue) : bool :=
  match get "content" message with
  | JsArray items => existsb hasFunctionCall items
  | _ => false
  end.

(** The [text] of the second branch of [processAIMessage]. *)
Definition contentText (message : JsValue) : jsstring :=
  match get "content" message with
  | JsStr s => s
  | JsArray items =>
      mjoin ((fun c => ToString (if typeof_string c then c
                                 else js_or (opt_get "text" c) (JsStr [])))
               <$> items)
  | content =>
      ToString (match content with JsUndefined | JsNull => JsStr [] | _ => content end)
  end.

(** [processAIMessage(message)]; [None] is [null]. *)
Definition processAIMessage (now : N) (message : JsValue) : option JsValue :=
  let id := js_or (get "id" message) (JsStr (N_toString now)) in
  if hasToolCall message then
    Some (obj [("type", JsStr (js "ai"));
               ("data",
                obj [("id", id);
                     ("content",
                      if typeof_string (get "content" message) then get "content" message
                      else JsStr []);
                     ("tool_calls", js_or (get "tool_calls" message) JsUndefined);
                     ("additional_kwargs",
                      js_or (get "additional_kwargs" message) JsUndefined);
                     ("response_metadata",
                      js_or (get "response_metadata" message) JsUndefined)])])
  else
    let text := contentText message in
    if bool_decide (trim text = []) then None
    else Some (obj [("type", JsStr (js "ai"));
                    ("data", obj [("id", id); ("content", JsStr text)])]).

(** The body of [for (const message of messages)]. *)
Definition generateMessage (now : N) (message : JsValue) : list JsValue :=
  if negb (truthy message) then []
  else if negb (strictEqStr (constructorName message) "AIMessageChunk"
                || strictEqStr (constructorName message) "AIMessage") then []
  else option_list (processAIMessage now message).

(** One iteration of [for await (const chunk of iterable)]; [now i] is
    the reading of [Date.now()] while message [i] of the event is
    handled. *)
Definition generate (now : nat → N) (chunk : JsValue) : list JsValue :=
  if negb (truthy chunk) then []
  else
    match chunk with
    | JsArray [chunkType; chunkData] =>
        if strictEqStr chunkType "updates" && truthy chunkData
           && typeof_object chunkData && negb (isArray chunkData)
        then
          let agent := get "agent" chunkData in
          if has "agent" chunkData && truthy agent && typeof_object agent
             && negb (isArray agent) && has "messages" agent
          then
            let messages :=
              match get "messages" agent with
              | JsArray items => items
              | single => [single]
              end in
            mjoin (imap (fun i message => generateMessage (now i) message) messages)
          else []
        else []
    | _ => []
    end.

(** The whole generator over a finite event sequence. *)
Definition generator (clock : nat → nat → N) (iterable : list JsValue) : list JsValue :=
  mjoin (imap (fun k chunk => generate (clock k) chunk) iterable).

End MessageGenerator.

(** [String(v)] on plain data, for tests. *)
Fixpoint ToString_sample (v : JsValue) : jsstring :=
  match v with
  | JsStr s => s
  | JsNumber n => Z_toString n
  | JsBoolean true => js "true"
  | JsBoolean false => js "false"
  | JsUndefined => js "undefined"
  | JsNull => js "null"
  | JsNaN => js "NaN"
  | JsArray items =>
      join (js ",")
        ((fun x => match x with
                   | JsUndefined | JsNull => []
                   | _ => ToString_sample x
                   end) <$> items)
  | JsObject _ _ => js "[object Object]"
  end.

(** ** The request: [sendMessage] and the [tools] parameter *)

(** The optimistic message [sendMessage] appends; its [attachments] are
    not among the fields the accumulator touches and are left out. *)
Definition humanMessage (now : N) (text : jsstring) : MessageResponse :=
  {| m_type := M_human;
     m_data := {| d_id := js "temp-" ++ N_toString now; d_content := text;
                  d_tool_calls := None; d_name := None; d_status := None;
                  d_tool_call_id := None |} |}.

(** [sendMessage(text)] for a request that is answered with a body:
    [None] when the guard [if (!threadId) return] fires and nothing
    happens; [now] is the reading of [Date.now()] for the temporary id. *)
Definition sendMessage (JSON_parse : jsstring → option StreamChunk) (clock : nat → N)
    (threadId : option jsstring) (now : N) (old : list MessageResponse) (text : jsstring)
    (values : list bytes) (e : BodyEnd) : option HookState :=
  if falsy threadId then None
  else Some (handleStreamResponse JSON_parse clock (old ++ [humanMessage now text]) values e).

(** The client's side of the [tools] parameter,
    [if (opts?.tools?.length) params.set("tools", opts.tools.join(","))]:
    the value set, if any. *)
Definition toolsQuery (tools : option (list jsstring)) : option jsstring :=
  match tools with
  | Some (tool :: rest) => Some (join (js ",") (tool :: rest))
  | _ => None
  end.

(** The route's side, from [searchParams.get("tools")] to [tools];
    [None] is [undefined]. *)
Definition parseTools (toolsGet : option jsstring) : option (list jsstring) :=
  let toolsParam := str_or toolsGet [] in
  if bool_decide (toolsParam = []) then None
  else Some (splitTrimFilter toolsParam).

(** *** The URL between the hook and the route

    The hook requests [`${getStreamUrl()}?${params}`]: the template
    serialises [params] as application/x-www-form-urlencoded, and the
    route reads [new URL(req.url).searchParams], which parses the query
    of the URL in the same format.  The serialiser puts out ASCII
    alphanumerics, [*-._+%] and the separators [&] and [=] only, all of
    which the URL parser leaves in a query as they are; the query being
    ASCII, its code units are its bytes. *)

Abbreviation URLSearchParams := (list (jsstring * jsstring)).

(** The bytes the serialiser leaves as they are. *)
Definition urlencodedKeeps (b : N) : bool :=
  inRange 48 57 b || inRange 65 90 b || inRange 97 122 b
  || bool_decide (b = 42) || bool_decide (b = 45) || bool_decide (b = 46)
  || bool_decide (b = 95).

Definition urlencodedByte (b : N) : jsstring :=
  if bool_decide (b = 0x20) then [43]
  else if urlencodedKeeps b then [b]
  else percentEncode b.

(** A name or a value in the serialisation: its UTF-8 bytes, a lone
    surrogate being U+FFFD, each byte kept, turned into [+] or written
    as [%XX]. *)
Definition urlencodedSerialize (s : jsstring) : jsstring :=
  TextEncoder_encode s ≫= urlencodedByte.

(** [params.toString()], which a template literal calls. *)
Definition URLSearchParams_toString (params : URLSearchParams) : jsstring :=
  join (js "&")
    ((fun p => urlencodedSerialize p.1 ++ js "=" ++ urlencodedSerialize p.2) <$> params).

(** [params.set(name, value)]: the first pair of that name takes the
    value and the others of that name go; without one, the pair is
    appended. *)
Fixpoint URLSearchParams_set (name value : jsstring) (params : URLSearchParams)
    : URLSearchParams :=
  match params with
  | [] => [(name, value)]
  | p :: rest =>
      if bool_decide (p.1 = name)
      then (name, value) :: filter (fun q => q.1 ≠ name) rest
      else p :: URLSearchParams_set name value rest
  end.

(** [params.get(name)]: the value of the first pair of that name;
    [None] is [null]. *)
Fixpoint URLSearchParams_get (name : jsstring) (params : URLSearchParams)
    : option jsstring :=
  match params with
  | [] => None
  | p :: rest =>
      if bool_decide (p.1 = name) then Some p.2 else URLSearchParams_get name rest
  end.

Definition hexValue (c : N) : option N :=
  if inRange 48 57 c then Some (c - 48)
  else if inRange 65 70 c then Some (c - 55)
  else if inRange 97 102 c then Some (c - 87)
  else None.

(** Percent-decoding: a [%] that two hexadecimal digits follow is the
    byte they write, any other byte is itself. *)
Fixpoint percentDecode (input : bytes) : bytes :=
  match input with
  | [] => []
  | byte :: rest =>
      if bool_decide (byte = 37) then
        match rest with
        | h1 :: h2 :: rest' =>
            match hexValue h1, hexValue h2 with
            | Some hi, Some lo => (16 * hi + lo) :: percentDecode rest'
            | _, _ => byte :: percentDecode rest
            end
        | _ => byte :: percentDecode rest
        end
      else byte :: percentDecode rest
  end.

(** UTF-8 decoding of a whole byte sequence that keeps a byte order
    mark; bytes missing at the end give U+FFFD. *)
Definition utf8_decode_without_BOM (input : bytes) : jsstring :=
  let '(d, s) :=
    decode {| code_point := 0; bytes_seen := 0; bytes_needed := 0;
              lower_boundary := 0x80; upper_boundary := 0xBF; BOM_seen := true |}
      input in
  if bool_decide (bytes_needed d = 0) then s else s ++ [0xFFFD].

Definition plusToSpace (b : N) : N := if bool_decide (b = 43) then 0x20 else b.

(** What the parser makes of the bytes of a name or of a value. *)
Definition urlencodedString (input : bytes) : jsstring :=
  utf8_decode_without_BOM (percentDecode (plusToSpace <$> input)).

(** The part before the first [sep], and the part after it if there is
    one. *)
Fixpoint splitFirst (sep : N) (s : bytes) : bytes * option bytes :=
  match s with
  | [] => ([], None)
  | c :: rest =>
      if bool_decide (c = sep) then ([], Some rest)
      else let '(name, value) := splitFirst sep rest in (c :: name, value)
  end.

(** The application/x-www-form-urlencoded parser: the input is split at
    [&], empty sequences are skipped, each other one is split at its
    first [=], a sequence without one being a name with an empty
    value. *)
Definition urlencodedParse (input : bytes) : URLSearchParams :=
  (fun sequence : bytes =>
     let '(name, value) := splitFirst 61 sequence in
     (urlencodedString name, urlencodedString (default [] value)))
  <$> filter (fun sequence => sequence ≠ []) (splitOn 38 input).

(** [MessageOptions]; [None] is a property left out.  An attachment is
    the value [JSON.stringify] sees. *)
Record MessageOptions : Type := {
  o_model : option jsstring;
  o_provider : option jsstring;
  o_tools : option (list jsstring);
  o_allowTool : option jsstring;
  o_approveAllTools : option bool;
  o_attachments : option (list JsValue)
}.

(** The parameters [handleStreamResponse] builds from [text], [threadId]
    and [opts], in the order of the source. *)
Definition streamParams (text threadId : jsstring) (opts : option MessageOptions)
    : URLSearchParams :=
  let params := [(js "content", text); (js "threadId", threadId)] in
  let params :=
    if falsy (opts ≫= o_model) then params
    else URLSearchParams_set (js "model") (str_or (opts ≫= o_model) []) params in
  let params :=
    if falsy (opts ≫= o_provider) then params
    else URLSearchParams_set (js "provider") (str_or (opts ≫= o_provider) []) params in
  let params :=
    match toolsQuery (opts ≫= o_tools) with
    | Some joined => URLSearchParams_set (js "tools") joined params
    | None => params
    end in
  let params :=
    if falsy (opts ≫= o_allowTool) then params
    else URLSearchParams_set (js "allowTool") (str_or (opts ≫= o_allowTool) []) params in
  let params :=
    match (opts ≫= o_approveAllTools : option bool) with
    | Some approve =>
        URLSearchParams_set (js "approveAllTools")
          (if approve then js "true" else js "false") params
    | None => params
    end in
  match opts ≫= o_attachments with
  | Some (attachment :: rest) =>
      URLSearchParams_set (js "attachments")
        (templateHole (JSON_stringify (JsArray (attachment :: rest)))) params
  | _ => params
  end.

(** [getStreamUrl()]; [baseUrl] is
    [process.env.NEXT_PUBLIC_API_BASE_URL]. *)
Definition getStreamUrl (baseUrl : option jsstring) : jsstring :=
  str_or baseUrl (js "/api/agent") ++ js "/stream".

(** The URL [fetch] is called with. *)
Definition streamRequestUrl (baseUrl : option jsstring) (text threadId : jsstring)
    (opts : option MessageOptions) : jsstring :=
  getStreamUrl baseUrl ++ js "?"
  ++ URLSearchParams_toString (streamParams text threadId opts).

(** The query of a URL: what stands between the first [?] and the
    fragment, which the first [#] opens; no [?] before the fragment, no
    query. *)
Definition URL_query (url : jsstring) : jsstring :=
  default [] (splitFirst 63 (splitFirst 35 url).1).2.

(** The route's [tools] for a request to [url]. *)
Definition routeTools (url : jsstring) : option (list jsstring) :=
  parseTools (URLSearchParams_get (js "tools") (urlencodedParse (URL_query url))).

(** ** The attachment list of the input form ([MessageInput.tsx]) *)

Section Attachments.

(** [MAX_ATTACHMENTS] of [lib/storage/validation], a count. *)
Variable MAX_ATTACHMENTS : nat.

Variables File FileAttachment : Type.

(** The upload of one file: the attachment the server answers with, or
    [None] when the request fails or is answered with an error. *)
Variable upload : File → option FileAttachment.

(** [handleFileSelect], as far as the attachment list goes.
    [attachments] is the list the handler was rendered with, [files] the
    selection, [prev] the list at the moment of
    [setAttachments((prev) => [...prev, ...uploadedFiles])]; the result
    is the list afterwards.  [Promise.all] fails as soon as one upload
    fails, and then the list is left alone. *)
Definition handleFileSelect (attachments : list FileAttachment) (files : list File)
    (prev : list FileAttachment) : list FileAttachment :=
  match files with
  | [] => prev
  | _ =>
      let remainingSlots := (MAX_ATTACHMENTS - length attachments)%nat in
      if (remainingSlots =? 0)%nat then prev
      else
        let selectedFiles := take remainingSlots files in
        match mapM upload selectedFiles with
        | Some uploadedFiles => prev ++ uploadedFiles
        | None => prev
        end
  end.

(** [removeAttachment(key)], with [keyOf] reading [att.key]. *)
Definition removeAttachment (keyOf : FileAttachment → jsstring) (key : jsstring)
    (prev : list FileAttachment) : list FileAttachment :=
  filter (fun att => keyOf att ≠ key) prev.

End Attachments.

(** ** Vocabulary of the properties *)

(** [chunk.type === "token"] on a yielded chunk. *)
Definition isTokenChunk (chunk : JsValue) : bool :=
  strictEqStr (get "type" chunk) "token".

(** [chunk.type === "tool_call"] on a yielded chunk. *)
Definition isToolCallChunk (chunk : JsValue) : bool :=
  strictEqStr (get "type" chunk) "tool_call".

(** The loop variables of the simulation, read off the state of the
    hook. *)
Definition loopOf (st : HookState) : LoopState :=
  {| l_messages := messages st;
     l_currentMessageId := currentMessageIdRef st;
     l_accumulatedContent := accumulatedContentRef st |}.

(** A tool call delivered again: the current assistant message already
    lists a call with the id of the chunk's tool call. *)
Definition duplicateDelivery (chunk : StreamChunk) (st : LoopState) : bool :=
  match c_type chunk, c_toolCall chunk with
  | T_tool_call, Some toolCall =>
      if falsy (l_currentMessageId st) then false
      else
        match findIndex (isCurrentAi (l_currentMessageId st)) (l_messages st) with
        | Some idx =>
            match l_messages st !! idx with
            | Some m => toolCallExists (default [] (d_tool_calls (m_data m))) (tc_id toolCall)
            | None => false
            end
        | None => false
        end
  | _, _ => false
  end.

(** The chunk sequence has no duplicate delivery on its way through the
    simulation. *)
Fixpoint duplicateFree (chunks : list (N * StreamChunk)) (st : LoopState) : bool :=
  match chunks with
  | [] => true
  | nc :: rest =>
      negb (duplicateDelivery nc.2 st) && duplicateFree rest (processChunk nc.1 nc.2 st)
  end.

(** The text of the token chunks of a run, in arrival order. *)
Definition contentsOf (chunks : list (N * StreamChunk)) : jsstring :=
  mjoin ((fun nc => str_or (c_content nc.2) []) <$> chunks).

(** The kinds of the messages of a list, in order. *)
Definition kinds (ms : list MessageResponse) : list MessageType := m_type <$> ms.

(** [data.tool_calls || []] *)
Definition toolCallsOf (m : MessageResponse) : list ToolCall :=
  default [] (d_tool_calls (m_data m)).

(** The tool call a chunk delivers, if it is a tool_call chunk that has
    one. *)
Definition deliveredToolCall (nc : N * StreamChunk) : option ToolCall :=
  match c_type nc.2 with
  | T_tool_call => c_toolCall nc.2
  | _ => None
  end.

(** What the hook does to the list of the current message when a tool
    call arrives. *)
Definition addToolCall (calls : list ToolCall) (toolCall : ToolCall) : list ToolCall :=
  if toolCallExists calls (tc_id toolCall) then calls else calls ++ [toolCall].

(** The index of the message a token chunk is written to: the message it
    appends when no window is open, the one [findIndex] locates
    otherwise. *)
Definition routedIndex (chunk : StreamChunk) (st : LoopState) : option nat :=
  match c_type chunk with
  | T_token =>
      if falsy (l_currentMessageId st) then Some (length (l_messages st))
      else findIndex (isCurrentAi (l_currentMessageId st)) (l_messages st)
  | _ => None
  end.

(** The contents of the token chunks routed to index [i] during a run, in
    arrival order. *)
Fixpoint routedText (chunks : list (N * StreamChunk)) (st : LoopState) (i : nat) : jsstring :=
  match chunks with
  | [] => []
  | nc :: rest =>
      (if bool_decide (routedIndex nc.2 st = Some i) then str_or (c_content nc.2) [] else [])
      ++ routedText rest (processChunk nc.1 nc.2 st) i
  end.


(** No window is opened under an id that an assistant message of the list
    already carries. *)
Fixpoint freshIds (chunks : list (N * StreamChunk)) (st : LoopState) : bool :=
  match chunks with
  | [] => true
  | nc :: rest =>
      (match c_type nc.2 with
       | T_token =>
           if falsy (l_currentMessageId st) then
             bool_decide
               (findIndex
                  (isCurrentAi
                     (Some (str_or (c_messageId nc.2) (js "ai-" ++ N_toString nc.1))))
                  (l_messages st) = None)
           else true
       | _ => true
       end)
      && freshIds rest (processChunk nc.1 nc.2 st)
  end.


(** The ids of all tool calls listed by the messages of a list. *)
Definition toolCallIds (ms : list MessageResponse) : list jsstring :=
  ms ≫= (fun m => tc_id <$> toolCallsOf m).

(** [ms'] keeps the messages of [ms]: each one is still at its index with
    its type, its id, its name, its status and its [tool_call_id]; the
    tool calls it listed are still listed, in front and in order; and
    unless it is an assistant message it is unchanged altogether. *)
Definition keepsMessages (ms ms' : list MessageResponse) : Prop :=
  ∀ i m,
    ms !! i = Some m →
    ∃ m',
      ms' !! i = Some m'
      ∧ m_type m' = m_type m
      ∧ d_id (m_data m') = d_id (m_data m)
      ∧ d_name (m_data m') = d_name (m_data m)
      ∧ d_status (m_data m') = d_status (m_data m)
      ∧ d_tool_call_id (m_data m') = d_tool_call_id (m_data m)
      ∧ toolCallsOf m `prefix_of` toolCallsOf m'
      ∧ (m_type m ≠ M_ai → m' = m).

(** The line makes the hook clear the sending flag: it decodes to a
    [done] or [error] chunk, or it names the event [done] or [error]. *)
Definition clearsSending (JSON_parse : jsstring → option StreamChunk) (line : jsstring)
  : bool :=
  match dataChunk JSON_parse line with
  | Some chunk => bool_decide (c_type chunk = T_done) || bool_decide (c_type chunk = T_error)
  | None => false
  end
  || startsWith line (js "event: done") || startsWith line (js "event: error").

(** The decoder between two characters; [b] tells whether it has put out
    a character yet.  [new TextDecoder()] is [decoderAfter false]. *)
Definition decoderAfter (b : bool) : TextDecoder :=
  {| code_point := 0; bytes_seen := 0; bytes_needed := 0;
     lower_boundary := 0x80; upper_boundary := 0xBF; BOM_seen := b |}.

(** Every element of the list is a UTF-16 code unit. *)
Definition validUnits (s : jsstring) : bool := forallb (fun c => c <? 0x10000) s.

(** Every string inside the value, property names included, is a list of
    code units. *)
Fixpoint validValue (v : JsValue) : bool :=
  match v with
  | JsStr s => validUnits s
  | JsArray items => forallb validValue items
  | JsObject _ props => forallb (fun kx => validUnits kx.1 && validValue kx.2) props
  | _ => true
  end.

(** Text that crosses the wire unharmed and stays on one line: well
    formed UTF-16 without a line feed. *)
Definition lineText (t : jsstring) : Prop :=
  isWellFormed t = true ∧ Forall (fun c => c < 0x10000 ∧ c ≠ 10) t.

(** What holds of the decoder whatever bytes it has read: inside a
    sequence, either the bits gathered so far are not all zero, or the
    next byte is not the last of the sequence and is confined to a range
    that makes them so. *)
Definition decoderInv (d : TextDecoder) : Prop :=
  bytes_needed d = 0
  ∨ 1 ≤ code_point d
  ∨ (0x90 ≤ lower_boundary d ∧ upper_boundary d ≤ 0xBF
     ∧ bytes_seen d + 1 < bytes_needed d).

(** The line makes the hook read [Date.now()]: it decodes to a token or
    tool_result chunk without a [messageId], whose message gets a
    generated id, or to an error chunk, whose message always does. *)
Definition readsClock (JSON_parse : jsstring → option StreamChunk) (line : jsstring)
  : bool :=
  match dataChunk JSON_parse line with
  | Some chunk =>
      match c_type chunk with
      | T_token | T_tool_result => falsy (c_messageId chunk)
      | T_error => true
      | T_tool_call | T_done => false
      end
  | None => false
  end.

(** * Properties *)

(** ** ChunkClassifier *)

Lemma kind_AIMessageChunk_inv message :
  constructorName message = JsStr (js "AIMessageChunk") →
  ∃ props, message = JsObject (js "AIMessageChunk") props.
Proof.
  destruct message; simpl; intros H; try discriminate.
  injection H as ->. eauto.
Qed.

Lemma kind_ToolMessage_inv message :
  constructorName message = JsStr (js "ToolMessage") →
  ∃ props, message = JsObject (js "ToolMessage") props.
Proof.
  destruct message; simpl; intros H; try discriminate.
  injection H as ->. eauto.
Qed.

Lemma strictEqStr_true v s : strictEqStr v s = true ↔ v = JsStr (js s).
Proof.
  destruct v; simpl; try (split; [discriminate | intros [=]]).
  rewrite bool_decide_eq_true. split; [by intros -> | by intros [= ->]].
Qed.

(** Whatever an event yields, it is a two-element array tagged
    ["messages"] whose payload starts with a truthy message. *)
Lemma classify_nonempty_inv now chunk :
  classify now chunk ≠ [] →
  ∃ message rest,
    chunk = JsArray [JsStr (js "messages"); JsArray (message :: rest)]
    ∧ truthy message = true.
Proof.
  unfold classify. intros H.
  destruct (truthy chunk); simpl in H; [| done].
  destruct chunk as [| | | | | |items|]; try done.
  destruct items as [|chunkType [|chunkData [|? ?]]]; try done.
  destruct (strictEqStr chunkType "messages") eqn:Hmode; [| done].
  apply strictEqStr_true in Hmode as ->.
  destruct chunkData as [| | | | | |payload|]; try done.
  destruct payload as [|message rest]; [done |].
  destruct (truthy message) eqn:Ht; [| done].
  eauto.
Qed.

(** The chunks of an assistant delta. *)
Lemma classify_AIMessageChunk now message rest :
  constructorName message = JsStr (js "AIMessageChunk") →
  classify now (JsArray [JsStr (js "messages"); JsArray (message :: rest)])
  = classifyContent now message ++ classifyToolCalls message.
Proof.
  intros [props ->]%kind_AIMessageChunk_inv.
  unfold classify. cbn [truthy negb].
  replace (strictEqStr (JsStr (js "messages")) "messages") with true by done.
  replace (strictEqStr (constructorName (JsObject (js "AIMessageChunk") props)) "AIMessageChunk")
    with true by done.
  replace (strictEqStr (constructorName (JsObject (js "AIMessageChunk") props)) "ToolMessage")
    with false by done.
  by rewrite app_nil_r.
Qed.

(** The chunk of a tool result. *)
Lemma classify_ToolMessage now message rest :
  constructorName message = JsStr (js "ToolMessage") →
  classify now (JsArray [JsStr (js "messages"); JsArray (message :: rest)])
  = classifyToolMessage message.
Proof.
  intros [props ->]%kind_ToolMessage_inv.
  unfold classify. cbn [truthy negb].
  replace (strictEqStr (JsStr (js "messages")) "messages") with true by done.
  replace (strictEqStr (constructorName (JsObject (js "ToolMessage") props)) "AIMessageChunk")
    with false by done.
  replace (strictEqStr (constructorName (JsObject (js "ToolMessage") props)) "ToolMessage")
    with true by done.
  done.
Qed.

(** The chunks taken from [tool_calls] are all of type [tool_call]. *)
Lemma classifyToolCalls_no_token message :
  filter (fun c => isTokenChunk c = true) (classifyToolCalls message) = [].
Proof.
  unfold classifyToolCalls.
  destruct (get "tool_calls" message) as [| | | | | |items|]; try done.
  destruct items as [|tc tcs]; [done |].
  generalize (tc :: tcs). intros l. induction l as [|x l IH]; [done |].
  rewrite fmap_cons, filter_cons_False; [done |].
  by vm_compute.
Qed.

Lemma classifyToolCalls_all_tool_call message :
  Forall (fun c => isToolCallChunk c = true) (classifyToolCalls message).
Proof.
  unfold classifyToolCalls.
  destruct (get "tool_calls" message) as [| | | | | |items|]; try done.
  destruct items as [|tc tcs]; [done |].
  apply Forall_fmap, Forall_forall. intros x _. by vm_compute.
Qed.

(** C2 (input gating): an engine event yields no chunk unless it is a
    two-element tuple; a mode tag other than ["messages"] yields no chunk;
    a payload that is not a sequence of at least one element yields no
    chunk; and a payload whose first element is falsy ([null], [undefined]
    and the like) yields no chunk.  The classifier is a total function on
    these inputs: no branch taken here can throw. *)
Theorem C2_classifier_gating (now : nat → N) (chunk mode payload message : JsValue)
    (rest : list JsValue) :
  ((∀ m p, chunk ≠ JsArray [m; p]) → classify now chunk = [])
  ∧ (mode ≠ JsStr (js "messages") → classify now (JsArray [mode; payload]) = [])
  ∧ ((∀ m r, payload ≠ JsArray (m :: r)) → classify now (JsArray [mode; payload]) = [])
  ∧ (truthy message = false →
     classify now (JsArray [mode; JsArray (message :: rest)]) = []).
Proof.
  repeat split.
  - intros Hshape. destruct (classify now chunk) eqn:E; [done |].
    destruct (classify_nonempty_inv now chunk) as (m & r & -> & _); [by rewrite E |].
    by destruct (Hshape (JsStr (js "messages")) (JsArray (m :: r))).
  - intros Hmode. destruct (classify now (JsArray [mode; payload])) eqn:E; [done |].
    destruct (classify_nonempty_inv now (JsArray [mode; payload])) as (m & r & Heq & _);
      [by rewrite E |].
    injection Heq as -> ->. done.
  - intros Hpayload. destruct (classify now (JsArray [mode; payload])) eqn:E; [done |].
    destruct (classify_nonempty_inv now (JsArray [mode; payload])) as (m & r & Heq & _);
      [by rewrite E |].
    injection Heq as -> ->. by destruct (Hpayload m r).
  - intros Hfalsy.
    destruct (classify now (JsArray [mode; JsArray (message :: rest)])) eqn:E; [done |].
    destruct (classify_nonempty_inv now (JsArray [mode; JsArray (message :: rest)]))
      as (m & r & Heq & Ht); [by rewrite E |].
    injection Heq as -> -> ->. congruence.
Qed.

(** C2, counterexample to a two-element minimum: a payload of one
    element only is classified like any other. *)
Lemma C2_one_element_payload :
  let payload := [AIMessageChunk (JsStr (js "Hi")) (JsStr (js "m1")) (JsArray [])] in
  (length payload < 2)%nat
  ∧ classify (fun _ => 0) (JsArray [JsStr (js "messages"); JsArray payload])
    = [tokenChunk (JsStr (js "Hi")) (JsStr (js "m1"))].
Proof. split; [simpl; lia | reflexivity]. Qed.

Lemma C2_classifier_gating_witness :
  classify (fun _ => 0) (JsStr (js "string")) = []
  ∧ classify (fun _ => 0)
      (JsArray [JsStr (js "not-messages"); JsArray [obj []]]) = []
  ∧ classify (fun _ => 0) (JsArray [JsStr (js "messages"); JsStr (js "not-array")]) = []
  ∧ classify (fun _ => 0)
      (JsArray [JsStr (js "messages");
                JsArray [JsNull; AIMessageChunk (JsStr (js "Hi")) JsUndefined JsUndefined]]) = [].
Proof.
  split; [| split; [| split]].
  - refine (proj1 (C2_classifier_gating (fun _ => 0) (JsStr (js "string"))
                     JsNull JsNull JsNull []) _).
    intros m p. discriminate.
  - refine (proj1 (proj2 (C2_classifier_gating (fun _ => 0) JsNull
                            (JsStr (js "not-messages")) (JsArray [obj []]) JsNull [])) _).
    intros H. vm_compute in H. discriminate.
  - refine (proj1 (proj2 (proj2 (C2_classifier_gating (fun _ => 0) JsNull
                                   (JsStr (js "messages")) (JsStr (js "not-array"))
                                   JsNull []))) _).
    intros m r. discriminate.
  - refine (proj2 (proj2 (proj2 (C2_classifier_gating (fun _ => 0) JsNull
                                   (JsStr (js "messages")) JsNull JsNull
                                   [AIMessageChunk (JsStr (js "Hi")) JsUndefined JsUndefined])))
              _).
    reflexivity.
Defined.

(** C8 (verbatim tokens): an assistant delta whose content is a non-empty
    string yields exactly one token chunk; the chunk comes first, carries
    the string verbatim and the message's id, and is followed only by the
    tool_call chunks of the message's [tool_calls].  An assistant delta
    whose content is the empty string yields no token chunk: it yields the
    tool_call chunks of [tool_calls] and nothing else. *)
Theorem C8_verbatim_token (now : nat → N) (message : JsValue) (rest : list JsValue)
    (s : jsstring) :
  constructorName message = JsStr (js "AIMessageChunk") →
  get "content" message = JsStr s →
  let yielded := classify now (JsArray [JsStr (js "messages"); JsArray (message :: rest)]) in
  (s ≠ [] →
     yielded = tokenChunk (JsStr s) (get "id" message) :: classifyToolCalls message
     ∧ filter (fun c => isTokenChunk c = true) yielded
       = [tokenChunk (JsStr s) (get "id" message)])
  ∧ (s = [] →
     yielded = classifyToolCalls message
     ∧ filter (fun c => isTokenChunk c = true) yielded = [])
  ∧ Forall (fun c => isToolCallChunk c = true) (classifyToolCalls message).
Proof.
  intros Hkind Hcontent yielded. subst yielded.
  rewrite (classify_AIMessageChunk now message rest Hkind).
  unfold classifyContent. rewrite Hcontent. cbn [typeof_string truthy andb].
  split; [| split].
  - intros Hs. rewrite bool_decide_eq_false_2 by done. cbn [negb].
    split; [done |].
    cbn [app]. rewrite filter_cons_True by by vm_compute.
    by rewrite classifyToolCalls_no_token.
  - intros ->. rewrite bool_decide_eq_true_2 by done. cbn [negb app].
    split; [done |]. apply classifyToolCalls_no_token.
  - apply classifyToolCalls_all_tool_call.
Qed.

(** C8, counterexample to an empty yield: with an empty content string
    and one entry in [tool_calls], a chunk is yielded all the same. *)
Lemma C8_empty_content_with_tool_calls :
  let toolCall := obj [("name", JsStr (js "read_file")); ("args", obj []);
                       ("id", JsStr (js "call-123")); ("type", JsStr (js "tool_call"))] in
  classify (fun _ => 0)
    (messagesEvent (AIMessageChunk (JsStr []) (JsStr (js "m1")) (JsArray [toolCall])))
  = [toolCallChunk toolCall (JsStr (js "m1"))].
Proof. reflexivity. Qed.

Lemma C8_verbatim_token_witness :
  let s := js "Tab" ++ [9] ++ js "Quote" ++ [34; 92; 10; 0x4E2D; 0xD83C; 0xDF89] in
  let message := AIMessageChunk (JsStr s) (JsStr (js "m1")) (JsArray []) in
  classify (fun _ => 0) (messagesEvent message) = [tokenChunk (JsStr s) (JsStr (js "m1"))].
Proof.
  intros s message.
  destruct (C8_verbatim_token (fun _ => 0) message [obj []] s) as [H _].
  - reflexivity.
  - reflexivity.
  - destruct H as [H _]; [by vm_compute |]. exact H.
Defined.

(** C9 (tool results): a tool message yields exactly one tool_result chunk.
    Its name is the message's name when that is truthy and the literal
    ["unknown"] when it is absent or falsy (the empty string included);
    its content is the message's content when that is a string and its
    JSON serialisation otherwise; it carries the message's id. *)
Theorem C9_tool_result (now : nat → N) (message : JsValue) (rest : list JsValue) :
  constructorName message = JsStr (js "ToolMessage") →
  ∃ name content,
    classify now (JsArray [JsStr (js "messages"); JsArray (message :: rest)])
    = [toolResultChunk name content (get "id" message)]
    ∧ (truthy (get "name" message) = true → name = get "name" message)
    ∧ (truthy (get "name" message) = false → name = JsStr (js "unknown"))
    ∧ (∀ s, get "content" message = JsStr s → content = JsStr s)
    ∧ ((∀ s, get "content" message ≠ JsStr s) →
       content = JSON_stringify_value (get "content" message)).
Proof.
  intros Hkind. rewrite (classify_ToolMessage now message rest Hkind).
  unfold classifyToolMessage. eexists _, _. split; [reflexivity |].
  unfold js_or. repeat split.
  - by intros ->.
  - by intros ->.
  - by intros s ->.
  - intros Hns. destruct (get "content" message); try done. by destruct (Hns s).
Qed.

(** C9, counterexample to the name being kept whenever present: a name
    that is present but empty is replaced by ["unknown"] as well. *)
Lemma C9_empty_name :
  classify (fun _ => 0)
    (messagesEvent (ToolMessage (JsStr []) (JsStr (js "result")) (JsStr (js "tool-1"))))
  = [toolResultChunk (JsStr (js "unknown")) (JsStr (js "result")) (JsStr (js "tool-1"))]
  ∧ JsStr (js "unknown") ≠ JsStr [].
Proof. split; [reflexivity | discriminate]. Qed.

Lemma C9_tool_result_witness :
  classify (fun _ => 0)
    (messagesEvent
       (ToolMessage (JsStr (js "api_call"))
          (obj [("status", JsStr (js "success"));
                ("data", JsArray [JsNumber 1; JsNumber 2; JsNumber 3])])
          (JsStr (js "tool-1"))))
  = [toolResultChunk (JsStr (js "api_call"))
       (JsStr (js "{" ++ [34] ++ js "status" ++ [34] ++ js ":" ++ [34] ++ js "success"
               ++ [34] ++ js "," ++ [34] ++ js "data" ++ [34] ++ js ":[1,2,3]}"))
       (JsStr (js "tool-1"))].
Proof.
  destruct (C9_tool_result (fun _ => 0)
              (ToolMessage (JsStr (js "api_call"))
                 (obj [("status", JsStr (js "success"));
                       ("data", JsArray [JsNumber 1; JsNumber 2; JsNumber 3])])
                 (JsStr (js "tool-1"))) [obj []])
    as (name & content & Heq & Hname & _ & _ & Hcontent).
  - reflexivity.
  - unfold messagesEvent. rewrite Heq.
    rewrite Hname by reflexivity.
    rewrite Hcontent by (intros s; discriminate).
    reflexivity.
Defined.

(** The mixed sequence of the unit tests: text, a tool call, its result,
    text again. *)
Example tokenGenerator_mixed_sequence :
  let call := obj [("name", JsStr (js "test")); ("args", obj []);
                   ("id", JsStr (js "c1")); ("type", JsStr (js "tool_call"))] in
  tokenGenerator (fun _ _ => 0)
    [messagesEvent (AIMessageChunk (JsStr (js "Hello")) (JsStr (js "m1")) (JsArray []));
     messagesEvent (AIMessageChunk (JsStr []) (JsStr (js "m1")) (JsArray [call]));
     messagesEvent (ToolMessage (JsStr (js "test")) (JsStr (js "result")) (JsStr (js "t1")));
     messagesEvent (AIMessageChunk (JsStr (js " World")) (JsStr (js "m2")) (JsArray []))]
  = [tokenChunk (JsStr (js "Hello")) (JsStr (js "m1"));
     toolCallChunk call (JsStr (js "m1"));
     toolResultChunk (JsStr (js "test")) (JsStr (js "result")) (JsStr (js "t1"));
     tokenChunk (JsStr (js " World")) (JsStr (js "m2"))].
Proof. reflexivity. Qed.

(** Content items: strings, text items, a function call, and items that
    are skipped. *)
Example classify_content_items :
  classify (fun i => 40 + N.of_nat i)
    (messagesEvent
       (AIMessageChunk
          (JsArray [JsStr (js "Hello"); JsStr []; obj [("text", JsStr (js " World"))];
                    obj [("functionCall",
                          obj [("name", JsStr (js "search"));
                               ("args", obj [("query", JsStr (js "test"))])])];
                    obj [("other", JsNumber 1)]; JsNull])
          JsUndefined (JsArray [])))
  = [tokenChunk (JsStr (js "Hello")) JsUndefined;
     tokenChunk (JsStr (js " World")) JsUndefined;
     toolCallChunk
       (obj [("name", JsStr (js "search")); ("args", obj [("query", JsStr (js "test"))]);
             ("id", JsStr (js "43")); ("type", JsStr (js "tool_call"))])
       JsUndefined].
Proof. reflexivity. Qed.

(** ** TokenStreamEncoder *)

Lemma send_queue data c : queue (send data c) = queue c ++ [dataFrame data].
Proof. done. Qed.

Lemma foldl_send_queue chunks c :
  queue (foldl (fun c chunk => send chunk c) c chunks) = queue c ++ (dataFrame <$> chunks).
Proof.
  revert c. induction chunks as [|chunk chunks IH]; intros c; simpl.
  - by rewrite app_nil_r.
  - rewrite IH, send_queue, <- app_assoc. done.
Qed.

(** C5 (terminal framing): after the connection comment and one data frame per
    chunk drained, the encoder ends the stream in one of two ways.  When
    draining completes, it emits the data frame of a done chunk, then the
    named frame [event: done] with the empty JSON payload.  When draining
    raises, it emits the data frame of an error chunk, then the named
    frame [event: error] with [{message, threadId}]; the text carried by
    both is the failure's message when that is truthy, and the literal
    ["Stream error"] when the failure has no message or an empty one.  In
    both cases these are the last frames and the stream is closed. *)
Theorem C5_terminal_framing (threadIdParam : JsValue) (chunks : list JsValue)
    (outcome : Outcome) :
  let c := GET threadIdParam chunks outcome in
  closed c = true
  ∧ ∃ terminal,
      queue c
      = [TextEncoder_encode (js ": connected" ++ [10; 10])]
        ++ (dataFrame <$> chunks) ++ terminal
      ∧ match outcome with
        | Completed =>
            terminal
            = [dataFrame (obj [("type", JsStr (js "done"))]);
               TextEncoder_encode (js "event: done" ++ [10]);
               TextEncoder_encode (js "data: {}" ++ [10; 10])]
        | Raised err =>
            ∃ text,
              terminal
              = [dataFrame (obj [("type", JsStr (js "error")); ("error", text)]);
                 TextEncoder_encode (js "event: error" ++ [10]);
                 TextEncoder_encode
                   (js "data: " ++
                    templateHole
                      (JSON_stringify
                         (obj [("message", text);
                               ("threadId", js_or threadIdParam (JsStr (js "unknown")))]))
                    ++ [10; 10])]
              ∧ (truthy (opt_get "message" err) = true → text = opt_get "message" err)
              ∧ (truthy (opt_get "message" err) = false → text = JsStr (js "Stream error"))
        end.
Proof.
  intros c. subst c. split; [done |].
  unfold GET. cbn [close queue].
  destruct outcome as [|err].
  - eexists. split; [| reflexivity].
    unfold enqueue at 1 2. cbn [queue]. rewrite send_queue, foldl_send_queue.
    cbn [enqueue queue app]. rewrite <- !app_assoc. reflexivity.
  - eexists. split.
    + unfold enqueue at 1 2. cbn [queue]. rewrite send_queue, foldl_send_queue.
      cbn [enqueue queue app]. rewrite <- !app_assoc. reflexivity.
    + exists (errorMessage err). split; [reflexivity |].
      unfold errorMessage, js_or. split; by intros ->.
Qed.

(** C5, counterexample to the failure's message being carried as it is:
    a failure whose message is the empty string is reported as
    ["Stream error"]. *)
Lemma C5_empty_failure_message :
  let err := Error [] in
  let c := GET (JsStr (js "t1")) [] (Raised err) in
  opt_get "message" err = JsStr []
  ∧ queue c !! 1%nat
    = Some (dataFrame (obj [("type", JsStr (js "error"));
                            ("error", JsStr (js "Stream error"))]))
  ∧ queue c !! 1%nat
    ≠ Some (dataFrame (obj [("type", JsStr (js "error"));
                            ("error", opt_get "message" err)])).
Proof. split; [reflexivity | split; [reflexivity | by vm_compute]]. Qed.

Lemma C5_terminal_framing_witness :
  let c := GET (JsStr (js "t1")) [tokenChunk (JsStr (js "Hi")) (JsStr (js "m1"))]
             (Raised (Error (js "boom"))) in
  closed c = true
  ∧ queue c
    = [TextEncoder_encode (js ": connected" ++ [10; 10]);
       dataFrame (tokenChunk (JsStr (js "Hi")) (JsStr (js "m1")));
       dataFrame (obj [("type", JsStr (js "error")); ("error", JsStr (js "boom"))]);
       TextEncoder_encode (js "event: error" ++ [10]);
       dataFrame (obj [("message", JsStr (js "boom")); ("threadId", JsStr (js "t1"))])].
Proof.
  destruct (C5_terminal_framing (JsStr (js "t1"))
              [tokenChunk (JsStr (js "Hi")) (JsStr (js "m1"))]
              (Raised (Error (js "boom"))))
    as (Hclosed & terminal & Hqueue & text & -> & Htext & _).
  split; [exact Hclosed |].
  cbv zeta. rewrite Hqueue. rewrite (Htext eq_refl). reflexivity.
Defined.

(** The terminal frames of a completed stream, as text. *)
Example done_frames_text :
  drop 1 (queue (GET (JsStr (js "t1")) [] Completed))
  = TextEncoder_encode
      <$> [js "data: {" ++ [34] ++ js "type" ++ [34] ++ js ":" ++ [34] ++ js "done" ++ [34]
             ++ js "}" ++ [10; 10];
           js "event: done" ++ [10];
           js "data: {}" ++ [10; 10]].
Proof. reflexivity. Qed.

(** ** MessageAccumulator *)

Lemma findIndex_Some {A} (p : A → bool) l idx :
  findIndex p l = Some idx →
  ∃ x, l !! idx = Some x ∧ p x = true ∧ ∀ j y, (j < idx)%nat → l !! j = Some y → p y = false.
Proof.
  revert idx. induction l as [|a l IH]; intros idx; simpl; [done |].
  destruct (p a) eqn:Hp.
  - intros [= <-]. exists a. split; [done |]. split; [done |]. intros j y Hj. lia.
  - destruct (findIndex p l) as [i|] eqn:Hfind; [| done].
    intros [= <-]. destruct (IH i eq_refl) as (x & Hx & Hpx & Hlt).
    exists x. split; [done |]. split; [done |].
    intros [|j] y Hj; simpl.
    + by intros [= <-].
    + apply Hlt. lia.
Qed.

Lemma findIndex_None {A} (p : A → bool) l :
  findIndex p l = None ↔ Forall (fun x => p x = false) l.
Proof.
  induction l as [|a l IH]; simpl; [by split |].
  destruct (p a) eqn:Hp.
  - split; [done |]. intros H. apply Forall_cons in H as [H _]. congruence.
  - destruct (findIndex p l); simpl.
    + split; [done |]. intros H. apply Forall_cons in H as [_ H]. by apply IH in H.
    + split; [| done]. intros _. constructor; [done |]. by apply IH.
Qed.

Lemma findIndex_insert {A} (p : A → bool) l idx x :
  findIndex p l = Some idx → p x = true → findIndex p (<[idx := x]> l) = Some idx.
Proof.
  revert idx. induction l as [|a l IH]; intros idx; simpl; [done |].
  destruct (p a) eqn:Hp.
  - intros [= <-] Hx. simpl. by rewrite Hx.
  - destruct (findIndex p l) as [i|] eqn:Hfind; [| done].
    intros [= <-] Hx. simpl. rewrite Hp. by rewrite (IH i eq_refl Hx).
Qed.

Lemma findIndex_app_None {A} (p : A → bool) l x :
  findIndex p l = None → p x = true → findIndex p (l ++ [x]) = Some (length l).
Proof.
  induction l as [|a l IH]; simpl; intros Hl Hx.
  - by rewrite Hx.
  - destruct (p a); [done |].
    destruct (findIndex p l); [done |]. by rewrite IH.
Qed.

Lemma findIndex_app_Some {A} (p : A → bool) l l' idx :
  findIndex p l = Some idx → findIndex p (l ++ l') = Some idx.
Proof.
  revert idx. induction l as [|a l IH]; intros idx; simpl; [done |].
  destruct (p a); [done |].
  destruct (findIndex p l) as [i|]; [| done].
  intros [= <-]. by rewrite (IH i eq_refl).
Qed.

Lemma falsy_str_or s d : d ≠ [] → falsy (Some (str_or s d)) = false.
Proof. destruct s as [[|c t]|], d; done. Qed.

Lemma str_or_nonempty s d : d ≠ [] → str_or s d ≠ [].
Proof. destruct s as [[|c t]|], d; done. Qed.

Lemma generated_id_nonempty prefix now :
  prefix ≠ [] → prefix ++ N_toString now ≠ [].
Proof. by destruct prefix. Qed.

Lemma isCurrentAi_aiMessage id content :
  isCurrentAi (Some id) (aiMessage id content) = true.
Proof.
  unfold isCurrentAi. simpl.
  by rewrite !bool_decide_eq_true_2.
Qed.

Lemma isCurrentAi_withContent cur m content :
  isCurrentAi cur (withContent m content) = isCurrentAi cur m.
Proof. done. Qed.

Lemma isCurrentAi_withToolCalls cur m tool_calls :
  isCurrentAi cur (withToolCalls m tool_calls) = isCurrentAi cur m.
Proof. done. Qed.

(** Apart from duplicate deliveries, one step of the hook is one step of
    the simulation. *)
Lemma processStreamChunk_processChunk now chunk st :
  duplicateDelivery chunk (loopOf st) = false →
  loopOf (processStreamChunk now chunk st) = processChunk now chunk (loopOf st).
Proof.
  unfold duplicateDelivery, processStreamChunk, processChunk, loopOf.
  destruct st as [cur acc msgs sending]. cbn [l_messages l_currentMessageId
    l_accumulatedContent messages currentMessageIdRef accumulatedContentRef isSending].
  destruct (c_type chunk).
  - intros _. destruct (falsy cur); [done |]. cbn.
    destruct (findIndex _ msgs) as [idx|]; [| done].
    by destruct (msgs !! idx).
  - destruct (c_toolCall chunk) as [toolCall|]; [| done].
    destruct (falsy cur); [done |]. cbn.
    destruct (findIndex _ msgs) as [idx|]; [| done].
    destruct (msgs !! idx) as [m|]; [| done].
    by intros ->.
  - intros _. by destruct (c_toolResult chunk).
  - done.
  - done.
Qed.

(** Without duplicate deliveries the hook and the simulation run in
    lockstep. *)
Lemma processStreamChunks_processChunks chunks st :
  duplicateFree chunks (loopOf st) = true →
  loopOf (processStreamChunks chunks st) = processChunks chunks (loopOf st).
Proof.
  revert st. induction chunks as [|[now chunk] chunks IH]; intros st; [done |].
  simpl. intros [Hd Hrest]%andb_true_iff. apply negb_true_iff in Hd.
  unfold processStreamChunks, processChunks in *. simpl.
  rewrite IH; rewrite processStreamChunk_processChunk by done; done.
Qed.

Lemma duplicateFree_no_tool_call chunks st :
  Forall (fun nc => c_type nc.2 ≠ T_tool_call) chunks → duplicateFree chunks st = true.
Proof.
  revert st. induction chunks as [|[now chunk] chunks IH]; intros st; [done |].
  intros [Hc Hrest]%Forall_cons. simpl in *.
  rewrite IH by done. unfold duplicateDelivery.
  by destruct (c_type chunk).
Qed.

Lemma withContent_self m : withContent m (d_content (m_data m)) = m.
Proof. by destruct m as [t []]. Qed.

Lemma withContent_withContent m c c' :
  withContent (withContent m c) c' = withContent m c'.
Proof. done. Qed.

(** A run of token chunks inside an open window rewrites the content of
    the message [findIndex] locates, and nothing else. *)
Lemma processChunks_tokens_open toks st cid idx m :
  Forall (fun nc => c_type nc.2 = T_token) toks →
  l_currentMessageId st = Some cid → cid ≠ [] →
  findIndex (isCurrentAi (Some cid)) (l_messages st) = Some idx →
  l_messages st !! idx = Some m →
  d_content (m_data m) = l_accumulatedContent st →
  processChunks toks st
  = {| l_messages :=
         <[idx := withContent m (l_accumulatedContent st ++ contentsOf toks)]> (l_messages st);
       l_currentMessageId := Some cid;
       l_accumulatedContent := l_accumulatedContent st ++ contentsOf toks |}.
Proof.
  revert st m. induction toks as [|[now chunk] toks IH]; intros st m Htoks Hcur Hcid Hfind Hm Hacc.
  - destruct st as [msgs cur acc]. simpl in *. subst.
    unfold contentsOf. simpl. rewrite app_nil_r.
    rewrite withContent_self, list_insert_id by done. done.
  - apply Forall_cons in Htoks as [Htok Htoks]. simpl in Htok.
    unfold processChunks in *. simpl.
    set (st1 := processChunk now chunk st).
    assert (Hst1 : st1 = {| l_messages :=
                              <[idx := withContent m (l_accumulatedContent st
                                                      ++ str_or (c_content chunk) [])]>
                                (l_messages st);
                            l_currentMessageId := Some cid;
                            l_accumulatedContent :=
                              l_accumulatedContent st ++ str_or (c_content chunk) [] |}).
    { subst st1. unfold processChunk. rewrite Htok, Hcur.
      destruct cid as [|c cid]; [done |]. cbn [falsy].
      by rewrite Hfind, Hm. }
    rewrite Hst1.
    assert (Hlt : (idx < length (l_messages st))%nat) by by eapply lookup_lt_Some.
    rewrite (IH _ (withContent m (l_accumulatedContent st ++ str_or (c_content chunk) [])));
      cbn [l_messages l_currentMessageId l_accumulatedContent]; try done.
    + rewrite list_insert_insert_eq, withContent_withContent.
      unfold contentsOf. rewrite fmap_cons. simpl. by rewrite !app_assoc.
    + apply findIndex_insert; [done |].
      rewrite isCurrentAi_withContent.
      by destruct (findIndex_Some _ _ _ Hfind) as (x & Hx & Hpx & _); simplify_eq.
    + by apply list_lookup_insert_eq.
Qed.

(** The first token chunk of a window appends the window's message. *)
Lemma processChunk_token_first now chunk st :
  c_type chunk = T_token → falsy (l_currentMessageId st) = true →
  processChunk now chunk st
  = let id := str_or (c_messageId chunk) (js "ai-" ++ N_toString now) in
    let content := l_accumulatedContent st ++ str_or (c_content chunk) [] in
    {| l_messages := l_messages st ++ [aiMessage id content];
       l_currentMessageId := Some id;
       l_accumulatedContent := content |}.
Proof. intros Ht Hf. unfold processChunk. by rewrite Ht, Hf. Qed.

(** X21, token fidelity within one window: a request that consists of
    token chunks only yields a single assistant message; its id is the one
    resolved for the first chunk and its content is the concatenation of
    the chunk contents in arrival order. *)
Theorem token_fidelity_single_window now chunk toks :
  Forall (fun nc => c_type nc.2 = T_token) ((now, chunk) :: toks) →
  processChunksToMessages ((now, chunk) :: toks)
  = [aiMessage (str_or (c_messageId chunk) (js "ai-" ++ N_toString now))
       (contentsOf ((now, chunk) :: toks))].
Proof.
  intros [Htok Htoks]%Forall_cons. simpl in Htok.
  unfold processChunksToMessages, processChunks. simpl.
  rewrite processChunk_token_first by done.
  cbn [l_messages l_currentMessageId l_accumulatedContent app].
  set (id := str_or (c_messageId chunk) (js "ai-" ++ N_toString now)).
  assert (Hid : id ≠ []) by by apply str_or_nonempty.
  fold (processChunks toks
          {| l_messages := [aiMessage id (str_or (c_content chunk) [])];
             l_currentMessageId := Some id;
             l_accumulatedContent := str_or (c_content chunk) [] |}).
  rewrite (processChunks_tokens_open toks _ id 0%nat
             (aiMessage id (str_or (c_content chunk) []))); try done.
  - by simpl; rewrite isCurrentAi_aiMessage.
Qed.

Lemma aiMessages_length ms :
  length (aiMessages ms) = length (filter (fun t => t = M_ai) (kinds ms)).
Proof.
  unfold aiMessages, kinds. induction ms as [|m ms IH]; [done |].
  rewrite fmap_cons. destruct (decide (m_type m = M_ai)) as [H|H].
  - rewrite !filter_cons_True by done. simpl. by rewrite IH.
  - by rewrite !filter_cons_False by done.
Qed.

Lemma kinds_insert_withContent ms idx m content :
  ms !! idx = Some m → kinds (<[idx := withContent m content]> ms) = kinds ms.
Proof.
  intros Hm. unfold kinds. rewrite list_fmap_insert. apply list_insert_id.
  by rewrite list_lookup_fmap, Hm.
Qed.

Lemma processChunk_token_kinds now chunk st :
  c_type chunk = T_token → falsy (l_currentMessageId st) = false →
  kinds (l_messages (processChunk now chunk st)) = kinds (l_messages st)
  ∧ l_currentMessageId (processChunk now chunk st) = l_currentMessageId st.
Proof.
  intros Ht Hf. unfold processChunk. rewrite Ht, Hf. cbn. split; [| done].
  destruct (findIndex _ _) as [idx|]; [| done].
  destruct (l_messages st !! idx) as [m|] eqn:Hm; [| done].
  by apply kinds_insert_withContent.
Qed.

Lemma processChunks_tokens_kinds toks st :
  Forall (fun nc => c_type nc.2 = T_token) toks →
  falsy (l_currentMessageId st) = false →
  kinds (l_messages (processChunks toks st)) = kinds (l_messages st)
  ∧ l_currentMessageId (processChunks toks st) = l_currentMessageId st.
Proof.
  revert st. induction toks as [|[now chunk] toks IH]; intros st Htoks Hf; [done |].
  apply Forall_cons in Htoks as [Htok Htoks]. simpl in Htok.
  destruct (processChunk_token_kinds now chunk st Htok Hf) as [Hk Hc].
  unfold processChunks in *. simpl.
  destruct (IH (processChunk now chunk st) Htoks) as [Hk' Hc']; [by rewrite Hc |].
  split; congruence.
Qed.

(** A non-empty run of token chunks after a reset adds one assistant
    message and leaves the window open. *)
Lemma processChunks_tokens_window toks st :
  Forall (fun nc => c_type nc.2 = T_token) toks → toks ≠ [] →
  falsy (l_currentMessageId st) = true →
  kinds (l_messages (processChunks toks st)) = kinds (l_messages st) ++ [M_ai]
  ∧ falsy (l_currentMessageId (processChunks toks st)) = false.
Proof.
  destruct toks as [|[now chunk] toks]; [done |].
  intros [Htok Htoks]%Forall_cons _ Hf. simpl in Htok.
  unfold processChunks. simpl.
  pose proof (processChunk_token_first now chunk st Htok Hf) as Hfirst.
  cbv zeta in Hfirst.
  assert (Hopen : falsy (l_currentMessageId (processChunk now chunk st)) = false).
  { rewrite Hfirst. cbn. by apply falsy_str_or. }
  destruct (processChunks_tokens_kinds toks (processChunk now chunk st) Htoks Hopen)
    as [Hk Hc].
  unfold processChunks in *. rewrite Hk, Hc. split; [| done].
  rewrite Hfirst. cbn. unfold kinds. by rewrite fmap_app.
Qed.




Lemma isCurrentAi_type cur m : isCurrentAi cur m = true → m_type m = M_ai.
Proof.
  unfold isCurrentAi. intros [H _]%andb_true_iff. by apply bool_decide_eq_true in H.
Qed.




(** A non-empty run of token chunks writes through to the message that
    [findIndex] locates, whatever that message held before. *)
Lemma processChunks_tokens_overwrite toks st cid idx m :
  Forall (fun nc => c_type nc.2 = T_token) toks → toks ≠ [] →
  l_currentMessageId st = Some cid → cid ≠ [] →
  findIndex (isCurrentAi (Some cid)) (l_messages st) = Some idx →
  l_messages st !! idx = Some m →
  processChunks toks st
  = {| l_messages :=
         <[idx := withContent m (l_accumulatedContent st ++ contentsOf toks)]> (l_messages st);
       l_currentMessageId := Some cid;
       l_accumulatedContent := l_accumulatedContent st ++ contentsOf toks |}.
Proof.
  destruct toks as [|[now chunk] toks]; [done |].
  intros [Htok Htoks]%Forall_cons _ Hcur Hcid Hfind Hm. simpl in Htok.
  unfold processChunks. simpl.
  assert (Hst1 : processChunk now chunk st
                 = {| l_messages :=
                        <[idx := withContent m (l_accumulatedContent st
                                                ++ str_or (c_content chunk) [])]>
                          (l_messages st);
                      l_currentMessageId := Some cid;
                      l_accumulatedContent :=
                        l_accumulatedContent st ++ str_or (c_content chunk) [] |}).
  { unfold processChunk. rewrite Htok, Hcur.
    destruct cid as [|c cid]; [done |]. cbn [falsy].
    by rewrite Hfind, Hm. }
  rewrite Hst1.
  fold (processChunks toks
          {| l_messages :=
               <[idx := withContent m (l_accumulatedContent st
                                       ++ str_or (c_content chunk) [])]> (l_messages st);
             l_currentMessageId := Some cid;
             l_accumulatedContent :=
               l_accumulatedContent st ++ str_or (c_content chunk) [] |}).
  assert (Hlt : (idx < length (l_messages st))%nat) by by eapply lookup_lt_Some.
  rewrite (processChunks_tokens_open toks _ cid idx
             (withContent m (l_accumulatedContent st ++ str_or (c_content chunk) [])));
    cbn [l_messages l_currentMessageId l_accumulatedContent]; try done.
  - rewrite list_insert_insert_eq, withContent_withContent.
    unfold contentsOf. rewrite fmap_cons. simpl. by rewrite !app_assoc.
  - apply findIndex_insert; [done |].
    rewrite isCurrentAi_withContent.
    by destruct (findIndex_Some _ _ _ Hfind) as (x & Hx & Hpx & _); simplify_eq.
  - by apply list_lookup_insert_eq.
Qed.

(** A run of token chunks that starts after a reset: the accumulated text
    is the text of the run and nothing else, and the message the run
    appends, the last of the list, holds the text of the first chunk or
    of the whole run. *)
Lemma processChunks_tokens_after_reset toks st :
  Forall (fun nc => c_type nc.2 = T_token) toks → toks ≠ [] →
  falsy (l_currentMessageId st) = true → l_accumulatedContent st = [] →
  l_accumulatedContent (processChunks toks st) = contentsOf toks
  ∧ ∃ m,
      last (l_messages (processChunks toks st)) = Some m
      ∧ m_type m = M_ai
      ∧ (d_content (m_data m) = contentsOf (take 1 toks)
         ∨ d_content (m_data m) = contentsOf toks).
Proof.
  destruct toks as [|[now chunk] toks]; [done |].
  intros [Htok Htoks]%Forall_cons _ Hf Hacc. simpl in Htok.
  unfold processChunks. cbn [foldl fst snd].
  rewrite processChunk_token_first by done. cbv zeta. rewrite Hacc. cbn [app].
  set (id := str_or (c_messageId chunk) (js "ai-" ++ N_toString now)).
  set (c := str_or (c_content chunk) []).
  assert (Hid : id ≠ []) by by apply str_or_nonempty.
  assert (Hone : contentsOf (take 1 ((now, chunk) :: toks)) = c)
    by (unfold contentsOf; simpl; by rewrite app_nil_r).
  assert (Hall : contentsOf ((now, chunk) :: toks) = c ++ contentsOf toks) by done.
  rewrite Hone, Hall.
  fold (processChunks toks
          {| l_messages := l_messages st ++ [aiMessage id c];
             l_currentMessageId := Some id; l_accumulatedContent := c |}).
  destruct toks as [|tok toks'] eqn:Htoks'.
  { simpl. unfold contentsOf. simpl. rewrite app_nil_r. split; [done |].
    exists (aiMessage id c). rewrite last_snoc. split; [done |]. split; [done |]. by left. }
  rewrite <- Htoks' in *.
  assert (Hfind : ∃ idx m,
            findIndex (isCurrentAi (Some id)) (l_messages st ++ [aiMessage id c]) = Some idx
            ∧ (l_messages st ++ [aiMessage id c]) !! idx = Some m
            ∧ ((idx < length (l_messages st))%nat
               ∨ (idx = length (l_messages st) ∧ m = aiMessage id c))).
  { destruct (findIndex (isCurrentAi (Some id)) (l_messages st)) as [idx|] eqn:Hfind.
    - destruct (findIndex_Some _ _ _ Hfind) as (m & Hm & _).
      exists idx, m. split; [by apply findIndex_app_Some |].
      split; [by apply lookup_app_l_Some |]. left. by eapply lookup_lt_Some.
    - exists (length (l_messages st)), (aiMessage id c).
      split; [apply findIndex_app_None; [done | apply isCurrentAi_aiMessage] |].
      split; [by rewrite lookup_app_r, Nat.sub_diag | by right]. }
  destruct Hfind as (idx & m & Hfind & Hm & Hidx).
  rewrite (processChunks_tokens_overwrite toks _ id idx m); try done;
    [| by rewrite Htoks'].
  cbn [l_messages l_accumulatedContent]. split; [done |].
  destruct Hidx as [Hlt | [-> ->]].
  - exists (aiMessage id c).
    rewrite insert_app_l by done. rewrite last_snoc. split; [done |]. split; [done |]. by left.
  - exists (withContent (aiMessage id c) (c ++ contentsOf toks)).
    rewrite insert_app_r_alt, Nat.sub_diag by done. simpl. rewrite last_snoc.
    split; [done |]. split; [done |]. by right.
Qed.

(** C3: for a chunk sequence made of one or more token chunks, a tool
    result, and one or more token chunks again, all token chunks carrying
    the same [messageId], the accumulator ends with exactly two assistant
    messages, in the order assistant, tool, assistant: the tool result
    resets the window even though the id is reused.  The reset itself is
    pinned as well: right after the tool result the current id is [null]
    and the accumulated content is empty; at the end the accumulated
    content is the text of the second run alone; and the assistant
    message the second run appends, the last of the list, holds the text
    of the first chunk of that run or of the whole run, never text of the
    first run.  All of this holds of the hook, from any cached list, and
    of the simulation. *)
Theorem C3_tool_result_reset (toks1 toks2 : list (N * StreamChunk)) (now : N)
    (toolResult : ToolResult) (resultId messageId : option jsstring)
    (old : list MessageResponse) :
  Forall (fun nc => c_type nc.2 = T_token ∧ c_messageId nc.2 = messageId) toks1 →
  Forall (fun nc => c_type nc.2 = T_token ∧ c_messageId nc.2 = messageId) toks2 →
  (1 ≤ length toks1)%nat → (1 ≤ length toks2)%nat →
  let chunks := toks1 ++ [(now, toolResultOf toolResult resultId)] ++ toks2 in
  let closed :=
    processStreamChunks (toks1 ++ [(now, toolResultOf toolResult resultId)])
      (startStream old) in
  let final := processStreamChunks chunks (startStream old) in
  length (aiMessages (processChunksToMessages chunks)) = 2%nat
  ∧ length (aiMessages (messages final)) = (length (aiMessages old) + 2)%nat
  ∧ kinds (messages final) = kinds old ++ [M_ai; M_tool; M_ai]
  ∧ kinds (processChunksToMessages chunks) = [M_ai; M_tool; M_ai]
  ∧ currentMessageIdRef closed = None
  ∧ accumulatedContentRef closed = []
  ∧ accumulatedContentRef final = contentsOf toks2
  ∧ (∃ m,
       last (messages final) = Some m
       ∧ m_type m = M_ai
       ∧ (d_content (m_data m) = contentsOf (take 1 toks2)
          ∨ d_content (m_data m) = contentsOf toks2))
  ∧ (∃ m,
       last (processChunksToMessages chunks) = Some m
       ∧ m_type m = M_ai
       ∧ (d_content (m_data m) = contentsOf (take 1 toks2)
          ∨ d_content (m_data m) = contentsOf toks2)).
Proof.
  intros H1 H2 Hn Hm chunks closed final.
  assert (Ht1 : Forall (fun nc => c_type nc.2 = T_token) toks1)
    by (eapply Forall_impl; [exact H1 | by intros ? [? _]]).
  assert (Ht2 : Forall (fun nc => c_type nc.2 = T_token) toks2)
    by (eapply Forall_impl; [exact H2 | by intros ? [? _]]).
  assert (Hne1 : toks1 ≠ []) by (destruct toks1; [simpl in Hn; lia | done]).
  assert (Hne2 : toks2 ≠ []) by (destruct toks2; [simpl in Hm; lia | done]).
  assert (Hrun : ∀ st, falsy (l_currentMessageId st) = true →
            let st2 := processChunks (toks1 ++ [(now, toolResultOf toolResult resultId)]) st in
            let st3 := processChunks chunks st in
            kinds (l_messages st3) = kinds (l_messages st) ++ [M_ai; M_tool; M_ai]
            ∧ l_currentMessageId st2 = None
            ∧ l_accumulatedContent st2 = []
            ∧ l_accumulatedContent st3 = contentsOf toks2
            ∧ ∃ m,
                last (l_messages st3) = Some m
                ∧ m_type m = M_ai
                ∧ (d_content (m_data m) = contentsOf (take 1 toks2)
                   ∨ d_content (m_data m) = contentsOf toks2)).
  { intros st Hf st2 st3.
    assert (Hst3 : st3 = processChunks toks2 st2).
    { subst st3 st2 chunks. unfold processChunks. by rewrite app_assoc, foldl_app. }
    destruct (processChunks_tokens_window toks1 st Ht1 Hne1 Hf) as [Hk1 _].
    assert (Hst2 : st2 = processChunk now (toolResultOf toolResult resultId)
                           (processChunks toks1 st)).
    { subst st2. unfold processChunks. by rewrite foldl_app. }
    assert (Hk2 : kinds (l_messages st2) = kinds (l_messages st) ++ [M_ai; M_tool]).
    { rewrite Hst2. cbn. unfold kinds in *. rewrite fmap_app, Hk1, <- app_assoc. done. }
    assert (Hcur2 : l_currentMessageId st2 = None) by by rewrite Hst2.
    assert (Hacc2 : l_accumulatedContent st2 = []) by by rewrite Hst2.
    assert (Hf2 : falsy (l_currentMessageId st2) = true) by by rewrite Hcur2.
    destruct (processChunks_tokens_window toks2 st2 Ht2 Hne2 Hf2) as [Hk3 _].
    destruct (processChunks_tokens_after_reset toks2 st2 Ht2 Hne2 Hf2 Hacc2)
      as [Hacc3 Hlast].
    rewrite Hst3. split; [by rewrite Hk3, Hk2, <- app_assoc |]. done. }
  assert (Hfree : ∀ cs, cs = chunks
                        ∨ cs = toks1 ++ [(now, toolResultOf toolResult resultId)] →
            duplicateFree cs (loopOf (startStream old)) = true).
  { intros cs Hcs. apply duplicateFree_no_tool_call.
    assert (Htr : Forall (fun nc : N * StreamChunk => c_type nc.2 ≠ T_tool_call)
                    [(now, toolResultOf toolResult resultId)])
      by by apply Forall_singleton.
    assert (Hno1 : Forall (fun nc : N * StreamChunk => c_type nc.2 ≠ T_tool_call) toks1)
      by (eapply Forall_impl; [exact Ht1 |]; intros ? ->; done).
    assert (Hno2 : Forall (fun nc : N * StreamChunk => c_type nc.2 ≠ T_tool_call) toks2)
      by (eapply Forall_impl; [exact Ht2 |]; intros ? ->; done).
    destruct Hcs as [-> | ->]; subst chunks; rewrite ?Forall_app; auto. }
  destruct (Hrun {| l_messages := []; l_currentMessageId := None;
                    l_accumulatedContent := [] |} eq_refl)
    as (Hk & _ & _ & _ & Hlast).
  destruct (Hrun (loopOf (startStream old)) eq_refl) as (Hk' & Hcur' & Hacc' & Hfin' & Hlast').
  rewrite <- (processStreamChunks_processChunks chunks (startStream old)) in Hk', Hfin', Hlast'
    by (apply Hfree; by left).
  rewrite <- (processStreamChunks_processChunks _ (startStream old)) in Hcur', Hacc'
    by (apply Hfree; by right).
  fold final in Hk', Hfin', Hlast'. fold closed in Hcur', Hacc'.
  unfold processChunksToMessages.
  repeat split; try done.
  - by rewrite aiMessages_length, Hk.
  - change (messages final) with (l_messages (loopOf final)).
    rewrite aiMessages_length, Hk'. cbn [loopOf l_messages startStream messages].
    rewrite filter_app, length_app, <- aiMessages_length. done.
Qed.

Lemma C3_tool_result_reset_witness :
  let m1 := Some (js "m1") in
  let toks1 := [(1, tokenOf (js "He") m1); (2, tokenOf (js "llo") m1)] in
  let toks2 := [(4, tokenOf (js "Wor") m1); (5, tokenOf (js "ld") m1)] in
  let result := (3, toolResultOf {| tr_name := js "search"; tr_content := js "result" |}
                      (Some (js "tool-1"))) in
  let chunks := toks1 ++ [result] ++ toks2 in
  let closed := processStreamChunks (toks1 ++ [result]) (startStream []) in
  let final := processStreamChunks chunks (startStream []) in
  length (aiMessages (processChunksToMessages chunks)) = 2%nat
  ∧ length (aiMessages (messages final)) = (0 + 2)%nat
  ∧ kinds (messages final) = [] ++ [M_ai; M_tool; M_ai]
  ∧ kinds (processChunksToMessages chunks) = [M_ai; M_tool; M_ai]
  ∧ currentMessageIdRef closed = None
  ∧ accumulatedContentRef closed = []
  ∧ accumulatedContentRef final = js "World"
  ∧ (∃ m,
       last (messages final) = Some m
       ∧ m_type m = M_ai
       ∧ (d_content (m_data m) = js "Wor" ∨ d_content (m_data m) = js "World"))
  ∧ (∃ m,
       last (processChunksToMessages chunks) = Some m
       ∧ m_type m = M_ai
       ∧ (d_content (m_data m) = js "Wor" ∨ d_content (m_data m) = js "World")).
Proof.
  intros m1 toks1 toks2 result chunks closed final.
  apply (C3_tool_result_reset toks1 toks2
           3 {| tr_name := js "search"; tr_content := js "result" |}
           (Some (js "tool-1")) m1 []).
  - repeat constructor.
  - repeat constructor.
  - simpl. lia.
  - simpl. lia.
Defined.

Lemma toolCallExists_elem_of calls id :
  toolCallExists calls id = true ↔ id ∈ tc_id <$> calls.
Proof.
  unfold toolCallExists. induction calls as [|tc calls IH]; simpl.
  - split; [done |]. by intros ?%elem_of_nil.
  - rewrite orb_true_iff, bool_decide_eq_true, IH, elem_of_cons. split; intros [H | H]; auto.
Qed.

Lemma toolCallExists_false calls id :
  toolCallExists calls id = false ↔ id ∉ tc_id <$> calls.
Proof.
  rewrite <- toolCallExists_elem_of. by destruct (toolCallExists calls id).
Qed.

Lemma filter_id_absent calls id :
  id ∉ tc_id <$> calls → filter (fun tc => tc_id tc = id) calls = [].
Proof.
  induction calls as [|tc calls IH]; [done |].
  rewrite fmap_cons, not_elem_of_cons. intros [Hne Hnotin].
  rewrite filter_cons_False by done. by apply IH.
Qed.

Lemma addToolCall_NoDup calls tc :
  NoDup (tc_id <$> calls) → NoDup (tc_id <$> addToolCall calls tc).
Proof.
  intros Hnd. unfold addToolCall.
  destruct (toolCallExists calls (tc_id tc)) eqn:E; [done |].
  apply toolCallExists_false in E.
  rewrite fmap_app. apply NoDup_app. split; [done |]. split.
  - intros x Hx ?%list_elem_of_singleton. by subst.
  - apply NoDup_singleton.
Qed.

Lemma foldl_addToolCall_NoDup delivered calls :
  NoDup (tc_id <$> calls) → NoDup (tc_id <$> foldl addToolCall calls delivered).
Proof.
  revert calls. induction delivered as [|tc delivered IH]; intros calls Hnd; [done |].
  simpl. by apply IH, addToolCall_NoDup.
Qed.

Lemma foldl_addToolCall_extends delivered calls :
  ∃ added, foldl addToolCall calls delivered = calls ++ added ∧ added `sublist_of` delivered.
Proof.
  revert calls. induction delivered as [|tc delivered IH]; intros calls; simpl.
  - exists []. by rewrite app_nil_r.
  - destruct (IH (addToolCall calls tc)) as (added & -> & Hsub).
    unfold addToolCall. destruct (toolCallExists calls (tc_id tc)).
    + exists added. split; [done |]. by apply sublist_cons.
    + exists (tc :: added). rewrite <- app_assoc. split; [done |]. by apply sublist_skip.
Qed.

Lemma foldl_addToolCall_contains delivered calls tc :
  tc ∈ delivered → tc_id tc ∈ tc_id <$> foldl addToolCall calls delivered.
Proof.
  revert calls. induction delivered as [|tc' delivered IH]; intros calls.
  - by intros ?%elem_of_nil.
  - intros [-> | Hin]%elem_of_cons; simpl; [| by apply IH].
    destruct (foldl_addToolCall_extends delivered (addToolCall calls tc'))
      as (added & -> & _).
    rewrite fmap_app. apply elem_of_app. left.
    unfold addToolCall. destruct (toolCallExists calls (tc_id tc')) eqn:E.
    + by apply toolCallExists_elem_of.
    + rewrite fmap_app. apply elem_of_app. right. simpl. apply list_elem_of_here.
Qed.

Lemma foldl_addToolCall_fresh delivered calls :
  NoDup (tc_id <$> (calls ++ delivered)) →
  foldl addToolCall calls delivered = calls ++ delivered.
Proof.
  revert calls. induction delivered as [|tc delivered IH]; intros calls Hnd; simpl.
  - by rewrite app_nil_r.
  - assert (Hfresh : toolCallExists calls (tc_id tc) = false).
    { apply toolCallExists_false. rewrite fmap_app in Hnd.
      apply NoDup_app in Hnd as (_ & Hdisj & _). intros Hin.
      apply (Hdisj _ Hin). rewrite fmap_cons. apply list_elem_of_here. }
    unfold addToolCall at 2. rewrite Hfresh.
    rewrite IH; rewrite <- app_assoc; done.
Qed.

(** One token or tool_call chunk, delivered while the window is open,
    keeps the window on the same message and changes its tool calls as
    [addToolCall] says. *)
Lemma processStreamChunk_open_window now chunk st cid idx m :
  currentMessageIdRef st = Some cid → cid ≠ [] →
  findIndex (isCurrentAi (Some cid)) (messages st) = Some idx →
  messages st !! idx = Some m →
  c_type chunk = T_token ∨ c_type chunk = T_tool_call →
  let st' := processStreamChunk now chunk st in
  ∃ m',
    currentMessageIdRef st' = Some cid
    ∧ findIndex (isCurrentAi (Some cid)) (messages st') = Some idx
    ∧ messages st' !! idx = Some m'
    ∧ toolCallsOf m'
      = match deliveredToolCall (now, chunk) with
        | Some toolCall => addToolCall (toolCallsOf m) toolCall
        | None => toolCallsOf m
        end.
Proof.
  intros Hcur Hcid Hfind Hm Hkind st'. subst st'.
  assert (Hp : isCurrentAi (Some cid) m = true)
    by (destruct (findIndex_Some _ _ _ Hfind) as (x & Hx & Hpx & _); by simplify_eq).
  assert (Hlt : (idx < length (messages st))%nat) by by eapply lookup_lt_Some.
  assert (Hopen : falsy (Some cid) = false) by by destruct cid.
  unfold processStreamChunk, deliveredToolCall. cbn [snd].
  destruct Hkind as [-> | ->].
  - rewrite Hcur, Hopen. cbn. rewrite Hfind, Hm.
    eexists. split; [done |]. split; [by apply findIndex_insert |].
    split; [by apply list_lookup_insert_eq | done].
  - destruct (c_toolCall chunk) as [toolCall|]; [| by exists m].
    rewrite Hcur, Hopen. cbn. rewrite Hfind, Hm.
    unfold addToolCall. fold (toolCallsOf m).
    destruct (toolCallExists (toolCallsOf m) (tc_id toolCall)); [by exists m |].
    eexists. split; [done |]. split; [by apply findIndex_insert |].
    split; [by apply list_lookup_insert_eq | done].
Qed.

Lemma processStreamChunks_open_window deliveries st cid idx m :
  currentMessageIdRef st = Some cid → cid ≠ [] →
  findIndex (isCurrentAi (Some cid)) (messages st) = Some idx →
  messages st !! idx = Some m →
  Forall (fun nc => c_type nc.2 = T_token ∨ c_type nc.2 = T_tool_call) deliveries →
  ∃ m',
    messages (processStreamChunks deliveries st) !! idx = Some m'
    ∧ toolCallsOf m' = foldl addToolCall (toolCallsOf m) (omap deliveredToolCall deliveries).
Proof.
  revert st m. induction deliveries as [|[now chunk] deliveries IH];
    intros st m Hcur Hcid Hfind Hm Hall.
  - by exists m.
  - apply Forall_cons in Hall as [Hkind Hall]. cbn [snd] in Hkind.
    destruct (processStreamChunk_open_window now chunk st cid idx m Hcur Hcid Hfind Hm Hkind)
      as (m1 & Hcur1 & Hfind1 & Hm1 & Hcalls1).
    destruct (IH _ m1 Hcur1 Hcid Hfind1 Hm1 Hall) as (m' & Hm' & Hcalls').
    exists m'. split; [exact Hm' |].
    rewrite Hcalls', Hcalls1. simpl omap.
    by destruct (deliveredToolCall (now, chunk)).
Qed.

(** C6: while the window stays on one assistant message, however often a
    tool_call chunk is delivered, that message lists each delivered id
    exactly once; the calls it had are kept in front, the new ones follow
    in arrival order, and when all ids are distinct every delivered call
    is appended. *)
Theorem C6_idempotent_tool_call (deliveries : list (N * StreamChunk)) (st : HookState)
    (cid : jsstring) (idx : nat) (m : MessageResponse) :
  currentMessageIdRef st = Some cid → cid ≠ [] →
  findIndex (isCurrentAi (Some cid)) (messages st) = Some idx →
  messages st !! idx = Some m →
  NoDup (tc_id <$> toolCallsOf m) →
  Forall (fun nc => c_type nc.2 = T_token ∨ c_type nc.2 = T_tool_call) deliveries →
  let delivered := omap deliveredToolCall deliveries in
  ∃ m' added,
    messages (processStreamChunks deliveries st) !! idx = Some m'
    ∧ toolCallsOf m' = toolCallsOf m ++ added
    ∧ added `sublist_of` delivered
    ∧ (∀ toolCall, toolCall ∈ delivered →
         length (filter (fun tc => tc_id tc = tc_id toolCall) (toolCallsOf m')) = 1%nat)
    ∧ (NoDup (tc_id <$> (toolCallsOf m ++ delivered)) → added = delivered).
Proof.
  intros Hcur Hcid Hfind Hm Hnd Hall delivered.
  destruct (processStreamChunks_open_window deliveries st cid idx m Hcur Hcid Hfind Hm Hall)
    as (m' & Hm' & Hcalls).
  fold delivered in Hcalls.
  destruct (foldl_addToolCall_extends delivered (toolCallsOf m)) as (added & Hadded & Hsub).
  exists m', added. split; [exact Hm' |]. split; [congruence |]. split; [exact Hsub |].
  split.
  - intros toolCall Hin.
    pose proof (foldl_addToolCall_contains delivered (toolCallsOf m) toolCall Hin) as Hmem.
    pose proof (foldl_addToolCall_NoDup delivered (toolCallsOf m) Hnd) as Hnd'.
    rewrite <- Hcalls in Hmem, Hnd'. clear - Hmem Hnd'.
    induction (toolCallsOf m') as [|tc calls IH]; [by apply elem_of_nil in Hmem |].
    rewrite fmap_cons in Hmem, Hnd'. apply NoDup_cons in Hnd' as [Hnotin Hnd'].
    destruct (decide (tc_id tc = tc_id toolCall)) as [Heq | Hne].
    + rewrite filter_cons_True by done. simpl. f_equal.
      apply length_zero_iff_nil, filter_id_absent.
      rewrite <- Heq. exact Hnotin.
    + rewrite filter_cons_False by done. apply IH; [| done].
      apply elem_of_cons in Hmem as [Heq | Hmem]; [congruence | done].
  - intros Hfresh.
    rewrite (foldl_addToolCall_fresh delivered (toolCallsOf m) Hfresh) in Hadded.
    by apply app_inv_head in Hadded.
Qed.

Lemma C6_idempotent_tool_call_witness :
  let search := {| tc_name := js "search"; tc_args := obj [("q", JsStr (js "x"))];
                   tc_id := js "c1"; tc_type := js "tool_call" |} in
  let read := {| tc_name := js "read_file"; tc_args := obj [];
                 tc_id := js "c2"; tc_type := js "tool_call" |} in
  let m1 := Some (js "m1") in
  let st := processStreamChunk 1 (tokenOf (js "Hi") m1) (startStream []) in
  let deliveries :=
    [(2, toolCallOf search m1); (3, toolCallOf search m1); (4, toolCallOf read m1);
     (5, tokenOf (js "!") m1); (6, toolCallOf search m1)] in
  ∃ m' added,
    messages (processStreamChunks deliveries st) !! 0%nat = Some m'
    ∧ toolCallsOf m' = [] ++ added
    ∧ added `sublist_of` [search; search; read; search]
    ∧ (∀ toolCall, toolCall ∈ [search; search; read; search] →
         length (filter (fun tc => tc_id tc = tc_id toolCall) (toolCallsOf m')) = 1%nat)
    ∧ (NoDup (tc_id <$> ([] ++ [search; search; read; search])) →
       added = [search; search; read; search]).
Proof.
  intros search read m1 st deliveries.
  apply (C6_idempotent_tool_call deliveries st (js "m1") 0%nat
           (aiMessage (js "m1") (js "Hi"))).
  - reflexivity.
  - discriminate.
  - reflexivity.
  - reflexivity.
  - apply NoDup_nil_2.
  - repeat (apply Forall_cons; split; [first [by left | by right] |]). apply Forall_nil_2.
Defined.

(** The same deliveries, evaluated: one entry per id, in arrival order. *)
Example tool_calls_deduplicated :
  let search := {| tc_name := js "search"; tc_args := obj [("q", JsStr (js "x"))];
                   tc_id := js "c1"; tc_type := js "tool_call" |} in
  let read := {| tc_name := js "read_file"; tc_args := obj [];
                 tc_id := js "c2"; tc_type := js "tool_call" |} in
  let m1 := Some (js "m1") in
  messages
    (processStreamChunks
       [(1, tokenOf (js "Hi") m1);
        (2, toolCallOf search m1); (3, toolCallOf search m1); (4, toolCallOf read m1);
        (5, tokenOf (js "!") m1); (6, toolCallOf search m1)]
       (startStream []))
  = [withToolCalls (aiMessage (js "m1") (js "Hi!")) [search; read]].
Proof. reflexivity. Qed.

(** C1, on the code: when the token chunks after a tool result reuse the
    id of the message before it, the first chunk opens a second assistant
    message, and every later chunk of that window is written to the first
    message with that id, the closed one.  With contents [a | b c] the
    two assistant messages end as [bc] and [b], not [a] and [bc]: the
    first holds [bc] although the chunks routed to it carried [a] and
    [c].  The hook and the simulation agree on this. *)
Theorem C1_id_reuse_overwrites_closed_message :
  let m1 := Some (js "m1") in
  let result := {| tr_name := js "search"; tr_content := js "result" |} in
  let chunks :=
    [(1, tokenOf (js "a") m1); (2, toolResultOf result (Some (js "t1")));
     (3, tokenOf (js "b") m1); (4, tokenOf (js "c") m1)] in
  let init := {| l_messages := []; l_currentMessageId := None; l_accumulatedContent := [] |} in
  processChunksToMessages chunks
  = [aiMessage (js "m1") (js "bc");
     toolMessage 2 (Some (js "t1")) result;
     aiMessage (js "m1") (js "b")]
  ∧ messages (processStreamChunks chunks (startStream []))
    = processChunksToMessages chunks
  ∧ routedText chunks init 0 = js "ac"
  ∧ routedText chunks init 2 = js "b"
  ∧ freshIds chunks init = false.
Proof. repeat split; reflexivity. Qed.

(** The same happens with generated ids when two windows open within one
    millisecond. *)
Example generated_id_reuse :
  let result := {| tr_name := js "search"; tr_content := js "result" |} in
  processChunksToMessages
    [(7, tokenOf (js "a") None); (7, toolResultOf result None);
     (7, tokenOf (js "b") None); (7, tokenOf (js "c") None)]
  = [aiMessage (js "ai-7") (js "bc");
     toolMessage 7 None result;
     aiMessage (js "ai-7") (js "b")].
Proof. reflexivity. Qed.

(** With distinct ids the windows stay apart. *)
Example distinct_ids_keep_fidelity :
  let result := {| tr_name := js "search"; tr_content := js "result" |} in
  processChunksToMessages
    [(1, tokenOf (js "a") (Some (js "m1"))); (2, toolResultOf result (Some (js "t1")));
     (3, tokenOf (js "b") (Some (js "m2"))); (4, tokenOf (js "c") (Some (js "m2")))]
  = [aiMessage (js "m1") (js "a");
     toolMessage 2 (Some (js "t1")) result;
     aiMessage (js "m2") (js "bc")].
Proof. reflexivity. Qed.

(** C10, on the code: the hook ignores a tool call whose id the message
    already lists, the simulation appends it again. *)
Theorem C10_duplicate_tool_call_diverges :
  let search := {| tc_name := js "search"; tc_args := obj [("q", JsStr (js "x"))];
                   tc_id := js "c1"; tc_type := js "tool_call" |} in
  let m1 := Some (js "m1") in
  let chunks :=
    [(1, tokenOf (js "Hi") m1); (2, toolCallOf search m1); (3, toolCallOf search m1)] in
  messages (processStreamChunks chunks (startStream []))
  = [withToolCalls (aiMessage (js "m1") (js "Hi")) [search]]
  ∧ processChunksToMessages chunks
    = [withToolCalls (aiMessage (js "m1") (js "Hi")) [search; search]]
  ∧ messages (processStreamChunks chunks (startStream [])) ≠ processChunksToMessages chunks.
Proof. split; [reflexivity | split; [reflexivity | by vm_compute]]. Qed.

(** On every chunk sequence free of duplicate deliveries the hook, started
    on an empty list, and the simulation produce the same messages. *)
Theorem hook_simulation_agree chunks :
  duplicateFree chunks (loopOf (startStream [])) = true →
  messages (processStreamChunks chunks (startStream [])) = processChunksToMessages chunks.
Proof.
  intros Hfree.
  change (messages (processStreamChunks chunks (startStream [])))
    with (l_messages (loopOf (processStreamChunks chunks (startStream [])))).
  by rewrite processStreamChunks_processChunks.
Qed.

(** Whatever the hook is fed, no message it has built or extended lists
    two tool calls with the same id. *)
Lemma processStreamChunk_unique_ids now chunk st :
  Forall (fun m => NoDup (tc_id <$> toolCallsOf m)) (messages st) →
  Forall (fun m => NoDup (tc_id <$> toolCallsOf m)) (messages (processStreamChunk now chunk st)).
Proof.
  intros Hall. unfold processStreamChunk.
  destruct (c_type chunk).
  - destruct (falsy (currentMessageIdRef st)); cbn [messages].
    + apply Forall_app. split; [done |]. repeat constructor.
    + destruct (findIndex _ _) as [idx|]; [| done].
      destruct (messages st !! idx) as [m|] eqn:Hm; [| done].
      apply Forall_insert; [done |].
      by apply (Forall_lookup_1 _ _ _ _ Hall Hm).
  - destruct (c_toolCall chunk) as [toolCall|]; [| done].
    destruct (falsy (currentMessageIdRef st)); cbn [negb messages]; [done |].
    destruct (findIndex _ _) as [idx|]; [| done].
    destruct (messages st !! idx) as [m|] eqn:Hm; [| done].
    pose proof (Forall_lookup_1 _ _ _ _ Hall Hm) as Hnd. cbn beta in Hnd.
    pose proof (addToolCall_NoDup _ toolCall Hnd) as Hadd. unfold addToolCall in Hadd.
    fold (toolCallsOf m).
    destruct (toolCallExists (toolCallsOf m) (tc_id toolCall)); [done |].
    by apply Forall_insert.
  - destruct (c_toolResult chunk); [| done]. cbn [messages].
    apply Forall_app. split; [done |]. repeat constructor.
  - done.
  - cbn [messages]. apply Forall_app. split; [done |]. repeat constructor.
Qed.

(** X24: if no cached message lists two tool calls with the same id,
    then after any chunk sequence no message of the list does, the
    messages the hook has built or extended included. *)
Theorem hook_tool_call_ids_unique chunks old :
  Forall (fun m => NoDup (tc_id <$> toolCallsOf m)) old →
  Forall (fun m => NoDup (tc_id <$> toolCallsOf m))
    (messages (processStreamChunks chunks (startStream old))).
Proof.
  intros Hold. unfold processStreamChunks.
  assert (H : ∀ st, Forall (fun m => NoDup (tc_id <$> toolCallsOf m)) (messages st) →
              Forall (fun m => NoDup (tc_id <$> toolCallsOf m))
                (messages (foldl (fun s nc => processStreamChunk nc.1 nc.2 s) st chunks))).
  { induction chunks as [|[now chunk] chunks IH]; intros st Hst; [done |].
    simpl. by apply IH, processStreamChunk_unique_ids. }
  by apply H.
Qed.

Lemma elem_of_insert_inv {A} (l : list A) i x y : y ∈ <[i := x]> l → y = x ∨ y ∈ l.
Proof.
  intros [j Hj]%list_elem_of_lookup.
  apply list_lookup_insert_Some in Hj as [(-> & -> & _) | (_ & Hj)]; [by left |].
  right. by eapply list_elem_of_lookup_2.
Qed.

Lemma toolCallIds_insert ms idx m m' id :
  ms !! idx = Some m →
  id ∈ toolCallIds (<[idx := m']> ms) →
  id ∈ tc_id <$> toolCallsOf m' ∨ id ∈ toolCallIds ms.
Proof.
  intros Hm. unfold toolCallIds. rewrite !list_elem_of_bind.
  intros (y & Hid & [-> | Hy]%elem_of_insert_inv); [by left |].
  right. eauto.
Qed.

Lemma toolCallIds_lookup ms idx m id :
  ms !! idx = Some m → id ∈ tc_id <$> toolCallsOf m → id ∈ toolCallIds ms.
Proof.
  intros Hm Hid. unfold toolCallIds. apply list_elem_of_bind.
  exists m. split; [done |]. by eapply list_elem_of_lookup_2.
Qed.

Lemma toolCallIds_snoc ms m :
  toolCallsOf m = [] → toolCallIds (ms ++ [m]) = toolCallIds ms.
Proof.
  intros Hm. unfold toolCallIds. rewrite bind_app. simpl. rewrite Hm. simpl.
  by rewrite !app_nil_r.
Qed.

(** An id listed after a step was listed before it or has just been
    delivered. *)
Lemma processChunk_toolCallIds now chunk st id :
  id ∈ toolCallIds (l_messages (processChunk now chunk st)) →
  id ∈ toolCallIds (l_messages st)
  ∨ ∃ toolCall, deliveredToolCall (now, chunk) = Some toolCall ∧ id = tc_id toolCall.
Proof.
  unfold processChunk, deliveredToolCall. cbn [snd].
  destruct (c_type chunk).
  - destruct (falsy (l_currentMessageId st)); cbn [l_messages].
    + rewrite toolCallIds_snoc by done. by left.
    + destruct (findIndex _ _) as [idx|]; [| by left].
      destruct (l_messages st !! idx) as [m|] eqn:Hm; [| by left].
      intros [Hid | Hid]%(toolCallIds_insert _ _ m); [| by left | done].
      left. by eapply toolCallIds_lookup.
  - destruct (c_toolCall chunk) as [toolCall|]; [| by left].
    destruct (falsy (l_currentMessageId st)); cbn [negb l_messages]; [by left |].
    destruct (findIndex _ _) as [idx|]; [| by left].
    destruct (l_messages st !! idx) as [m|] eqn:Hm; [| by left].
    intros [Hid | Hid]%(toolCallIds_insert _ _ m); [| by left | done].
    unfold toolCallsOf at 1 in Hid. cbn in Hid. fold (toolCallsOf m) in Hid.
    rewrite fmap_app in Hid. apply elem_of_app in Hid as [Hid | Hid].
    + left. by eapply toolCallIds_lookup.
    + right. exists toolCall. split; [done |]. by apply list_elem_of_singleton in Hid.
  - destruct (c_toolResult chunk); [| by left]. cbn [l_messages].
    rewrite toolCallIds_snoc by done. by left.
  - by left.
  - cbn [l_messages]. rewrite toolCallIds_snoc by done. by left.
Qed.

(** A sequence whose tool calls all carry different ids, none of them
    listed yet, has no duplicate delivery. *)
Lemma duplicateFree_distinct_ids chunks st :
  NoDup (tc_id <$> omap deliveredToolCall chunks) →
  (∀ id, id ∈ toolCallIds (l_messages st) → id ∉ tc_id <$> omap deliveredToolCall chunks) →
  duplicateFree chunks st = true.
Proof.
  revert st. induction chunks as [|[now chunk] chunks IH]; intros st Hnd Hdisj; [done |].
  simpl. apply andb_true_iff. split.
  - apply negb_true_iff. unfold duplicateDelivery.
    destruct (c_type chunk) eqn:Htype; try done.
    destruct (c_toolCall chunk) as [toolCall|] eqn:Hcall; [| done].
    destruct (falsy (l_currentMessageId st)); [done |].
    destruct (findIndex _ _) as [idx|]; [| done].
    destruct (l_messages st !! idx) as [m|] eqn:Hm; [| done].
    apply toolCallExists_false. fold (toolCallsOf m). intros Hin.
    apply (Hdisj (tc_id toolCall)); [by eapply toolCallIds_lookup |].
    simpl. unfold deliveredToolCall at 1. cbn [snd]. rewrite Htype, Hcall.
    rewrite fmap_cons. apply list_elem_of_here.
  - apply IH.
    + simpl in Hnd. destruct (deliveredToolCall (now, chunk)); [| done].
      rewrite fmap_cons in Hnd. by apply NoDup_cons in Hnd as [_ ?].
    + intros id [Hid | (toolCall & Hdel & ->)]%processChunk_toolCallIds.
      * intros Hin. apply (Hdisj id Hid). simpl.
        destruct (deliveredToolCall (now, chunk)); [| done].
        rewrite fmap_cons. by apply list_elem_of_further.
      * simpl in Hnd. rewrite Hdel, fmap_cons in Hnd.
        by apply NoDup_cons in Hnd as [? _].
Qed.

(** X23: the hook, started on an empty list, and the simulation produce
    the same messages on every chunk sequence that delivers no tool-call
    id twice. *)
Theorem hook_simulation_agree_distinct_ids chunks :
  NoDup (tc_id <$> omap deliveredToolCall chunks) →
  messages (processStreamChunks chunks (startStream [])) = processChunksToMessages chunks.
Proof.
  intros Hnd. apply hook_simulation_agree, duplicateFree_distinct_ids; [done |].
  by intros id ?%elem_of_nil.
Qed.

(** ** SSEFrameParser *)

Lemma emitAll_app d cps1 cps2 :
  emitAll d (cps1 ++ cps2)
  = let '(d1, s1) := emitAll d cps1 in
    let '(d2, s2) := emitAll d1 cps2 in
    (d2, s1 ++ s2).
Proof.
  revert d. induction cps1 as [|cp cps1 IH]; intros d; simpl.
  - by destruct (emitAll d cps2).
  - destruct (emit d cp) as [d1 s1]. rewrite IH.
    destruct (emitAll d1 cps1) as [d2 s2]. destruct (emitAll d2 cps2) as [d3 s3].
    by rewrite app_assoc.
Qed.

(** The streaming decoder does not see where one buffer ends and the next
    begins. *)
Lemma decode_app d value1 value2 :
  decode d (value1 ++ value2)
  = let '(d1, s1) := decode d value1 in
    let '(d2, s2) := decode d1 value2 in
    (d2, s1 ++ s2).
Proof.
  revert d. induction value1 as [|byte value1 IH]; intros d; simpl.
  - by destruct (decode d value2).
  - destruct (utf8_step d byte) as [d1 cps]. destruct (emitAll d1 cps) as [d2 s1].
    rewrite IH. destruct (decode d2 value1) as [d3 s2].
    destruct (decode d3 value2) as [d4 s3]. by rewrite app_assoc.
Qed.

(** The segments of [split]: the complete lines, then the remainder. *)
Lemma split_lf_spec s :
  ∃ lines rest,
    split_lf s = lines ++ [rest]
    ∧ s = (lines ≫= (fun line => line ++ [10])) ++ rest
    ∧ (10 ∉ rest)
    ∧ Forall (fun line => 10 ∉ line) lines.
Proof.
  induction s as [|c s (lines & rest & Hsplit & Hs & Hrest & Hlines)].
  - exists [], []. repeat split; [by apply not_elem_of_nil | done].
  - simpl. case_bool_decide as Hc.
    + subst c. exists ([] :: lines), rest. rewrite Hsplit.
      repeat split; [by rewrite Hs at 1 | done |].
      constructor; [by apply not_elem_of_nil | done].
    + rewrite Hsplit. destruct lines as [|line lines].
      * exists [], (c :: rest). simpl in *. repeat split; [by rewrite Hs at 1 | | done].
        rewrite not_elem_of_cons. split; [congruence | done].
      * exists ((c :: line) :: lines), rest. simpl in *.
        apply Forall_cons in Hlines as [Hline Hlines].
        repeat split; [by rewrite Hs at 1 | done |].
        constructor; [| done]. rewrite not_elem_of_cons. split; [congruence | done].
Qed.

Lemma split_lf_no_lf s : 10 ∉ s → split_lf s = [s].
Proof.
  induction s as [|c s IH]; [done |].
  rewrite not_elem_of_cons. intros [Hc Hs]. simpl.
  rewrite bool_decide_eq_false_2 by congruence. by rewrite IH.
Qed.

Lemma split_lf_app s1 s2 lines rest :
  split_lf s1 = lines ++ [rest] →
  split_lf (s1 ++ s2) = lines ++ split_lf (rest ++ s2).
Proof.
  revert lines rest. induction s1 as [|c s1 IH]; intros lines rest; simpl.
  - destruct lines as [|? [|? ?]]; [| done | done]. by intros [= <-].
  - destruct (split_lf_spec s1) as (lines1 & rest1 & Hsplit1 & _).
    rewrite Hsplit1, (IH lines1 rest1 Hsplit1). case_bool_decide as Hc.
    + intros Heq. change ([] :: lines1 ++ [rest1]) with (([] :: lines1) ++ [rest1]) in Heq.
      apply app_inj_tail in Heq as [<- <-]. done.
    + destruct lines1 as [|line1 lines1]; simpl.
      * intros Heq. change [c :: rest1] with ([] ++ [c :: rest1]) in Heq.
        apply app_inj_tail in Heq as [<- <-]. simpl.
        by rewrite bool_decide_eq_false_2 by done.
      * intros Heq.
        change ((c :: line1) :: lines1 ++ [rest1])
          with (((c :: line1) :: lines1) ++ [rest1]) in Heq.
        apply app_inj_tail in Heq as [<- <-]. done.
Qed.

(** [readLines] in terms of the segments of the buffer. *)
Lemma readLines_segments r value d text lines rest :
  decode (decoder r) value = (d, text) →
  split_lf (buffer r ++ text) = lines ++ [rest] →
  readLines r value = (lines, {| decoder := d; buffer := rest |}).
Proof.
  intros Hdec Hsplit. unfold readLines. rewrite Hdec, Hsplit.
  by rewrite removelast_last, last_snoc.
Qed.

(** Reading two buffers one after the other is reading their
    concatenation. *)
Lemma readLines_app r value1 value2 :
  readLines r (value1 ++ value2)
  = let '(lines1, r1) := readLines r value1 in
    let '(lines2, r2) := readLines r1 value2 in
    (lines1 ++ lines2, r2).
Proof.
  destruct (decode (decoder r) value1) as [d1 text1] eqn:Hdec1.
  destruct (decode d1 value2) as [d2 text2] eqn:Hdec2.
  destruct (split_lf_spec (buffer r ++ text1)) as (lines1 & rest1 & Hsplit1 & _).
  destruct (split_lf_spec (rest1 ++ text2)) as (lines2 & rest2 & Hsplit2 & _).
  rewrite (readLines_segments r value1 d1 text1 lines1 rest1 Hdec1 Hsplit1).
  rewrite (readLines_segments {| decoder := d1; buffer := rest1 |} value2
             d2 text2 lines2 rest2 Hdec2 Hsplit2).
  apply (readLines_segments r (value1 ++ value2) d2 (text1 ++ text2)).
  - by rewrite decode_app, Hdec1, Hdec2.
  - by rewrite app_assoc, (split_lf_app _ _ _ _ Hsplit1), Hsplit2, app_assoc.
Qed.

Lemma readLines_nil r : 10 ∉ buffer r → readLines r [] = ([], r).
Proof.
  intros Hbuf. destruct r as [d buf]. unfold readLines. simpl in *.
  by rewrite app_nil_r, split_lf_no_lf.
Qed.

(** The buffer never holds a line feed. *)
Lemma readLines_buffer r value : 10 ∉ buffer (readLines r value).2.
Proof.
  destruct (decode (decoder r) value) as [d text] eqn:Hdec.
  destruct (split_lf_spec (buffer r ++ text)) as (lines & rest & Hsplit & _ & Hrest & _).
  by rewrite (readLines_segments r value d text lines rest Hdec Hsplit).
Qed.

Lemma readAll_concat r values :
  10 ∉ buffer r → readAll r values = readLines r (mjoin values).
Proof.
  revert r. induction values as [|value values IH]; intros r Hbuf; simpl.
  - by rewrite readLines_nil.
  - rewrite readLines_app.
    pose proof (readLines_buffer r value) as Hbuf1.
    destruct (readLines r value) as [lines1 r1]. simpl in Hbuf1.
    by rewrite (IH r1 Hbuf1).
Qed.

Lemma split_lf_line s s2 : 10 ∉ s → split_lf (s ++ 10 :: s2) = s :: split_lf s2.
Proof.
  induction s as [|c s IH]; [done |].
  rewrite not_elem_of_cons. intros [Hc Hs]. simpl.
  rewrite bool_decide_eq_false_2 by congruence. by rewrite IH.
Qed.

Section ClientProperties.

Variable JSON_parse : jsstring → option StreamChunk.

(** The data line of a frame. *)
Lemma dataChunk_data_line json :
  dataChunk JSON_parse (js "data: " ++ json)
  = if bool_decide (json = []) || bool_decide (json = js "{}") then None
    else JSON_parse json.
Proof. reflexivity. Qed.

Lemma data_line_not_event line :
  startsWith line (js "data: ") = true →
  startsWith line (js "event: done") = false ∧ startsWith line (js "event: error") = false.
Proof.
  destruct line as [|c line]; [done |].
  change (startsWith (c :: line) (js "data: "))
    with (bool_decide (100 = c) && startsWith line (js "ata: ")).
  change (startsWith (c :: line) (js "event: done"))
    with (bool_decide (101 = c) && startsWith line (js "vent: done")).
  change (startsWith (c :: line) (js "event: error"))
    with (bool_decide (101 = c) && startsWith line (js "vent: error")).
  intros [Hc _]%andb_true_iff. apply bool_decide_eq_true in Hc as <-. done.
Qed.

(** A line acts on the accumulator through the chunk it decodes to and
    through the event it names, and through nothing else. *)
Lemma processLine_dataChunk now line st :
  processLine JSON_parse now line st
  = let st1 :=
      match dataChunk JSON_parse line with
      | Some chunk => processStreamChunk now chunk st
      | None => st
      end in
    let st2 := if startsWith line (js "event: done") then endStream st1 else st1 in
    if startsWith line (js "event: error") then endStream st2 else st2.
Proof.
  unfold processLine, dataChunk.
  destruct (startsWith line (js "data: ")) eqn:Hdata.
  - destruct (data_line_not_event line Hdata) as [-> ->].
    destruct line as [|c line]; [done |].
    assert (Hc : c = 100).
    { change (startsWith (c :: line) (js "data: "))
        with (bool_decide (100 = c) && startsWith line (js "ata: ")) in Hdata.
      apply andb_true_iff in Hdata as [Hc _]. by apply bool_decide_eq_true in Hc. }
    subst c. rewrite bool_decide_eq_false_2 by done.
    change (startsWith (100 :: line) (js ":")) with false. cbn [orb andb].
    by destruct (bool_decide (slice (100 :: line) 6 = [])
                 || bool_decide (slice (100 :: line) 6 = js "{}")).
  - cbn [andb]. destruct (bool_decide (line = []) || startsWith line (js ":")) eqn:Hskip;
      [| done].
    apply orb_true_iff in Hskip as [Hnil | Hcomment].
    + apply bool_decide_eq_true in Hnil as ->. done.
    + destruct line as [|c line]; [done |].
      change (startsWith (c :: line) (js ":")) with (bool_decide (58 = c) && true) in Hcomment.
      apply andb_true_iff in Hcomment as [Hc _]. apply bool_decide_eq_true in Hc as <-.
      done.
Qed.

(** C4: whatever the reader holds (its buffer, as always, free of line
    feeds), feeding it a byte sequence cut into any number of contiguous
    pieces, wherever the cuts fall, produces the same lines, the same
    decoded chunks and the same reader as feeding it the sequence in one
    piece.  The lines handed on are exactly the segments closed by a line
    feed; the segment after the last line feed stays in the buffer for the
    next read. *)
Theorem C4_split_invariance (r : Reader) (pieces : list bytes) :
  10 ∉ buffer r →
  let whole := mjoin pieces in
  readAll r pieces = readLines r whole
  ∧ decodedChunks JSON_parse (readAll r pieces).1
    = decodedChunks JSON_parse (readLines r whole).1
  ∧ ∃ lines rest d text,
      readLines r whole = (lines, {| decoder := d; buffer := rest |})
      ∧ decode (decoder r) whole = (d, text)
      ∧ buffer r ++ text = (lines ≫= (fun line => line ++ [10])) ++ rest
      ∧ (10 ∉ rest)
      ∧ Forall (fun line => 10 ∉ line) lines.
Proof.
  intros Hbuf whole.
  pose proof (readAll_concat r pieces Hbuf) as Hall. fold whole in Hall.
  split; [exact Hall |]. split; [by rewrite Hall |].
  destruct (decode (decoder r) whole) as [d text] eqn:Hdec.
  destruct (split_lf_spec (buffer r ++ text))
    as (lines & rest & Hsplit & Htext & Hrest & Hlines).
  exists lines, rest, d, text.
  by rewrite (readLines_segments r whole d text lines rest Hdec Hsplit).
Qed.

(** A frame [data: json] closed by two line feeds, cut anywhere, hands on
    the data line and the empty line, and decodes to the chunk of its
    payload. *)
Theorem frame_split_decodes (d d' : TextDecoder) (json : jsstring) (frame : bytes)
    (pieces : list bytes) :
  decode d frame = (d', js "data: " ++ json ++ [10; 10]) →
  10 ∉ json →
  mjoin pieces = frame →
  readAll {| decoder := d; buffer := [] |} pieces
  = ([js "data: " ++ json; []], {| decoder := d'; buffer := [] |})
  ∧ decodedChunks JSON_parse (readAll {| decoder := d; buffer := [] |} pieces).1
    = if bool_decide (json = []) || bool_decide (json = js "{}") then []
      else option_list (JSON_parse json).
Proof.
  intros Hdec Hjson <-.
  assert (Hread : readAll {| decoder := d; buffer := [] |} pieces
                  = ([js "data: " ++ json; []], {| decoder := d'; buffer := [] |})).
  { rewrite readAll_concat by apply not_elem_of_nil.
    apply (readLines_segments _ _ d' (js "data: " ++ json ++ [10; 10])
             [js "data: " ++ json; []] []); [exact Hdec |].
    cbn [buffer app].
    change (js "data: " ++ json ++ [10; 10]) with ((js "data: " ++ json) ++ 10 :: [10]).
    rewrite split_lf_line; [done |].
    intros Hin. apply elem_of_app in Hin as [Hin | Hin]; [| done].
    vm_compute in Hin. repeat (apply elem_of_cons in Hin as [Hin | Hin]; [done |]).
    by apply elem_of_nil in Hin. }
  split; [exact Hread |]. rewrite Hread. cbn [fst].
  unfold decodedChunks.
  change (omap (dataChunk JSON_parse) [js "data: " ++ json; []])
    with (match dataChunk JSON_parse (js "data: " ++ json) with
          | Some chunk => [chunk]
          | None => []
          end).
  rewrite dataChunk_data_line.
  by destruct (bool_decide (json = []) || bool_decide (json = js "{}"));
    [| destruct (JSON_parse json)].
Qed.

(** C7: a line [data: ] followed by nothing, by the literal [{}] or by
    text that [JSON.parse] rejects leaves the refs, the message list and
    the sending flag as they were; the loop goes on with the next line as
    if the line had not been there. *)
Theorem C7_malformed_frame (now : N) (rest : jsstring) (st : HookState)
    (before after : list (N * jsstring)) :
  rest = [] ∨ rest = js "{}" ∨ JSON_parse rest = None →
  processLine JSON_parse now (js "data: " ++ rest) st = st
  ∧ processLines JSON_parse (before ++ [(now, js "data: " ++ rest)] ++ after) st
    = processLines JSON_parse (before ++ after) st.
Proof.
  intros Hbad.
  assert (Hline : ∀ s, processLine JSON_parse now (js "data: " ++ rest) s = s).
  { intros s. unfold processLine.
    change (js "data: " ++ rest) with (100 :: 97 :: 116 :: 97 :: 58 :: 32 :: rest).
    change (bool_decide (100 :: 97 :: 116 :: 97 :: 58 :: 32 :: rest = [])) with false.
    change (startsWith (100 :: 97 :: 116 :: 97 :: 58 :: 32 :: rest) (js ":")) with false.
    change (startsWith (100 :: 97 :: 116 :: 97 :: 58 :: 32 :: rest) (js "data: ")) with true.
    change (startsWith (100 :: 97 :: 116 :: 97 :: 58 :: 32 :: rest) (js "event: done"))
      with false.
    change (startsWith (100 :: 97 :: 116 :: 97 :: 58 :: 32 :: rest) (js "event: error"))
      with false.
    change (slice (100 :: 97 :: 116 :: 97 :: 58 :: 32 :: rest) 6) with rest.
    cbn [orb andb].
    destruct Hbad as [-> | [-> | Hparse]]; [done | done |].
    rewrite Hparse. by destruct (bool_decide (rest = []) || bool_decide (rest = js "{}")). }
  split; [apply Hline |].
  unfold processLines. rewrite !foldl_app. simpl. by rewrite Hline.
Qed.

(** The read loop as a whole is indifferent to the cuts as well: the
    lines are numbered through, so each line meets the same clock
    reading. *)
Lemma readLoop_readAll clock values k r st :
  readLoop JSON_parse clock values (k, r, st)
  = let '(lines, r') := readAll r values in
    ((k + length lines)%nat, r',
     processLines JSON_parse (imap (fun i line => (clock (k + i)%nat, line)) lines) st).
Proof.
  revert k r st. induction values as [|value values IH]; intros k r st; simpl.
  - by rewrite Nat.add_0_r.
  - destruct (readLines r value) as [lines1 r1]. rewrite IH.
    destruct (readAll r1 values) as [lines2 r2].
    rewrite length_app, Nat.add_assoc. f_equal.
    rewrite imap_app. unfold processLines. rewrite foldl_app.
    rewrite (imap_ext (fun i line => (clock (k + length lines1 + i)%nat, line))
               (fun n line => (clock (k + (length lines1 + n))%nat, line)) lines2);
      [done |].
    intros i line _. simpl. by rewrite Nat.add_assoc.
Qed.

Theorem readLoop_split_invariance clock pieces k r st :
  10 ∉ buffer r →
  readLoop JSON_parse clock pieces (k, r, st)
  = readLoop JSON_parse clock [mjoin pieces] (k, r, st).
Proof.
  intros Hbuf. rewrite !readLoop_readAll. simpl.
  rewrite (readAll_concat r pieces Hbuf).
  destruct (readLines r (mjoin pieces)) as [lines r']. by rewrite app_nil_r.
Qed.

End ClientProperties.

Lemma C4_split_invariance_witness :
  let frame := dataFrame (tokenChunk (JsStr [72; 0xE9; 0x4E2D; 10; 92]) (JsStr (js "m1"))) in
  let pieces :=
    [take 35 frame; take 2 (drop 35 frame); take 3 (drop 37 frame); drop 40 frame] in
  readAll newReader pieces = readLines newReader (mjoin pieces)
  ∧ decodedChunks JSON_parse_sample (readAll newReader pieces).1
    = [tokenOf [72; 0xE9; 0x4E2D; 10; 92] (Some (js "m1"))].
Proof.
  intros frame pieces.
  destruct (C4_split_invariance JSON_parse_sample newReader pieces) as (Hall & Hchunks & _).
  - apply not_elem_of_nil.
  - split; [exact Hall |]. rewrite Hchunks. vm_compute. reflexivity.
Defined.

(** Cuts at 35, 37 and 40 fall inside the two-byte character, inside the
    three-byte character and inside the escape of the line feed; nothing
    is handed on before the frame is complete. *)
Example frame_cut_inside_characters :
  let frame := dataFrame (tokenChunk (JsStr [72; 0xE9; 0x4E2D; 10; 92]) (JsStr (js "m1"))) in
  take 2 (drop 34 frame) = [0xC3; 0xA9]
  ∧ take 3 (drop 36 frame) = [0xE4; 0xB8; 0xAD]
  ∧ take 2 (drop 39 frame) = js "\n"
  ∧ (readLines newReader (take 35 frame)).1 = []
  ∧ (readAll newReader [take 35 frame; drop 35 frame]).1
    = [js "data: " ++ default [] (JSON_stringify
                                    (tokenChunk (JsStr [72; 0xE9; 0x4E2D; 10; 92])
                                       (JsStr (js "m1"))));
       []].
Proof. repeat split; vm_compute; reflexivity. Qed.

Lemma C7_malformed_frame_witness :
  let st := processStreamChunk 1 (tokenOf (js "Hi") (Some (js "m1"))) (startStream []) in
  let done := (3, js "data: " ++ default [] (JSON_stringify (obj [("type", JsStr (js "done"))]))) in
  processLine JSON_parse_sample 2 (js "data: " ++ js "{not json") st = st
  ∧ processLines JSON_parse_sample ([] ++ [(2, js "data: " ++ js "{not json")] ++ [done]) st
    = processLines JSON_parse_sample ([] ++ [done]) st.
Proof.
  intros st done.
  apply (C7_malformed_frame JSON_parse_sample 2 (js "{not json") st [] [done]).
  right. right. reflexivity.
Defined.

(** After the malformed line the done frame is still handled. *)
Example malformed_then_done :
  let st := processStreamChunk 1 (tokenOf (js "Hi") (Some (js "m1"))) (startStream []) in
  processLines JSON_parse_sample
    [(2, js "data: " ++ js "{not json");
     (3, js "data: " ++ default [] (JSON_stringify (obj [("type", JsStr (js "done"))])))]
    st
  = endStream st.
Proof. reflexivity. Qed.

(** From the route to the hook: the buffers the encoder enqueues, read
    back by the client, however they are cut on the way. *)
Example encoder_to_accumulator :
  let content := [72; 0xE9; 0x4E2D; 10; 92] in
  let body := queue (GET (JsStr (js "t1")) [tokenChunk (JsStr content) (JsStr (js "m1"))]
                       Completed) in
  handleStreamResponse JSON_parse_sample (fun _ => 0) [] body BodyDone
  = {| currentMessageIdRef := None; accumulatedContentRef := [];
       messages := [aiMessage (js "m1") content]; isSending := false |}
  ∧ handleStreamResponse JSON_parse_sample (fun _ => 0) []
      [take 50 (mjoin body); drop 50 (mjoin body)] BodyDone
    = handleStreamResponse JSON_parse_sample (fun _ => 0) [] body BodyDone.
Proof. split; reflexivity. Qed.

(** ** Lists in strings: [split], [trim], [filter] *)

Lemma splitOn_spec sep s :
  ∃ segs seg,
    splitOn sep s = segs ++ [seg]
    ∧ s = (segs ≫= (fun x => x ++ [sep])) ++ seg
    ∧ Forall (fun x => sep ∉ x) (segs ++ [seg]).
Proof.
  induction s as [|c s (segs & seg & Hsplit & Hs & Hall)].
  - exists [], []. repeat split. repeat constructor. apply not_elem_of_nil.
  - simpl. case_bool_decide as Hc.
    + subst c. exists ([] :: segs), seg. rewrite Hsplit.
      repeat split; [by rewrite Hs at 1 |].
      constructor; [apply not_elem_of_nil | done].
    + rewrite Hsplit. destruct segs as [|x segs].
      * exists [], (c :: seg). simpl in *. repeat split; [by rewrite Hs at 1 |].
        apply Forall_singleton. rewrite Forall_singleton in Hall.
        rewrite not_elem_of_cons. split; [congruence | done].
      * exists ((c :: x) :: segs), seg. simpl in *.
        apply Forall_cons in Hall as [Hx Hall].
        repeat split; [by rewrite Hs at 1 |].
        constructor; [| done]. rewrite not_elem_of_cons. split; [congruence | done].
Qed.

Lemma splitOn_segments sep s : Forall (fun x => sep ∉ x) (splitOn sep s).
Proof. destruct (splitOn_spec sep s) as (segs & seg & -> & _ & Hall). done. Qed.

Lemma splitOn_no_sep sep s : sep ∉ s → splitOn sep s = [s].
Proof.
  induction s as [|c s IH]; [done |].
  rewrite not_elem_of_cons. intros [Hc Hs]. simpl.
  rewrite bool_decide_eq_false_2 by congruence. by rewrite IH.
Qed.

Lemma splitOn_segment sep s s2 : sep ∉ s → splitOn sep (s ++ sep :: s2) = s :: splitOn sep s2.
Proof.
  induction s as [|c s IH]; simpl.
  - intros _. by rewrite bool_decide_eq_true_2.
  - rewrite not_elem_of_cons. intros [Hc Hs].
    rewrite bool_decide_eq_false_2 by congruence. by rewrite IH.
Qed.

Lemma splitOn_join sep parts :
  Forall (fun x => sep ∉ x) parts → parts ≠ [] → splitOn sep (join [sep] parts) = parts.
Proof.
  induction parts as [|x parts IH]; [done |].
  intros [Hx Hparts]%Forall_cons _. destruct parts as [|y parts].
  - simpl. by apply splitOn_no_sep.
  - change (join [sep] (x :: y :: parts)) with (x ++ sep :: join [sep] (y :: parts)).
    rewrite splitOn_segment by done. by rewrite IH.
Qed.

Lemma trimStart_suffix s : trimStart s `suffix_of` s.
Proof.
  induction s as [|c s IH]; [done |]. simpl.
  destruct (isWhiteSpace c); [by apply suffix_cons_r | done].
Qed.

Lemma trimStart_head s c : head (trimStart s) = Some c → isWhiteSpace c = false.
Proof.
  induction s as [|c' s IH]; [done |]. simpl.
  destruct (isWhiteSpace c') eqn:Hc'; [done |]. by intros [= <-].
Qed.

Lemma trimStart_whitespace pre s :
  Forall (fun c => isWhiteSpace c = true) pre → trimStart (pre ++ s) = trimStart s.
Proof.
  induction pre as [|c pre IH]; [done |].
  intros [Hc Hpre]%Forall_cons. simpl. rewrite Hc. by apply IH.
Qed.

Lemma trimStart_id s :
  (∀ c, head s = Some c → isWhiteSpace c = false) → trimStart s = s.
Proof. destruct s as [|c s]; [done |]. intros H. simpl. by rewrite (H c). Qed.

Lemma trimEnd_prefix s : trimEnd s `prefix_of` s.
Proof.
  unfold trimEnd. destruct (trimStart_suffix (reverse s)) as [k Hk].
  exists (reverse k). apply (inj reverse).
  by rewrite reverse_app, !reverse_involutive.
Qed.

Lemma trimEnd_last s c : last (trimEnd s) = Some c → isWhiteSpace c = false.
Proof. unfold trimEnd. rewrite last_reverse. apply trimStart_head. Qed.

(** What [trim] returns has no white space at either end and is cut out
    of its argument. *)
Lemma trim_ends s :
  (∀ c, head (trim s) = Some c → isWhiteSpace c = false)
  ∧ (∀ c, last (trim s) = Some c → isWhiteSpace c = false)
  ∧ trim s `sublist_of` s.
Proof.
  unfold trim. split; [| split].
  - intros c Hc. destruct (trimEnd_prefix (trimStart s)) as [k Hk].
    apply (trimStart_head s c). rewrite Hk.
    destruct (trimEnd (trimStart s)); [done |]. done.
  - apply trimEnd_last.
  - transitivity (trimStart s).
    + destruct (trimEnd_prefix (trimStart s)) as [k Hk]. rewrite Hk at 2.
      by apply sublist_inserts_r.
    + destruct (trimStart_suffix s) as [k Hk]. rewrite Hk at 2.
      by apply sublist_inserts_l.
Qed.

Lemma trim_padded pre s post :
  Forall (fun c => isWhiteSpace c = true) pre →
  Forall (fun c => isWhiteSpace c = true) post →
  (∀ c, head s = Some c → isWhiteSpace c = false) →
  (∀ c, last s = Some c → isWhiteSpace c = false) →
  trim (pre ++ s ++ post) = s.
Proof.
  intros Hpre Hpost Hhead Hlast. unfold trim.
  rewrite trimStart_whitespace by done.
  destruct s as [|c s].
  - simpl. rewrite <- (app_nil_r post), trimStart_whitespace by done. simpl.
    unfold trimEnd. by rewrite reverse_nil.
  - rewrite trimStart_id by (intros c' [= <-]; by apply Hhead).
    unfold trimEnd. rewrite reverse_app.
    rewrite trimStart_whitespace by by apply Forall_reverse.
    rewrite trimStart_id; [by rewrite reverse_involutive |].
    intros c'. rewrite head_reverse. apply Hlast.
Qed.

(** The entries of a parsed list are non-empty, free of commas and free
    of white space at either end. *)
Lemma splitTrimFilter_entries s :
  Forall (fun x =>
            x ≠ [] ∧ (44 ∉ x)
            ∧ (∀ c, head x = Some c → isWhiteSpace c = false)
            ∧ (∀ c, last x = Some c → isWhiteSpace c = false))
    (splitTrimFilter s).
Proof.
  unfold splitTrimFilter. apply Forall_forall. intros x [Hx Hin]%list_elem_of_filter.
  apply list_elem_of_fmap in Hin as (seg & -> & Hseg).
  destruct (trim_ends seg) as (Hhead & Hlast & Hsub).
  split; [done |]. split; [| done].
  intros Hcomma. apply (elem_of_sublist _ _ _ Hcomma) in Hsub.
  pose proof (splitOn_segments 44 s) as Hall.
  rewrite Forall_forall in Hall. by apply (Hall seg).
Qed.

(** ** CORS middleware *)

(** X1: whatever [CORS_ALLOWED_ORIGINS] holds, every origin of the
    configuration is non-empty, has no comma and has no white space at
    either end; an unset or empty variable allows no origin. *)
Theorem getCORSConfig_origins (env : option jsstring) :
  Forall (fun origin =>
            origin ≠ [] ∧ (44 ∉ origin)
            ∧ (∀ c, head origin = Some c → isWhiteSpace c = false)
            ∧ (∀ c, last origin = Some c → isWhiteSpace c = false))
    (allowedOrigins (getCORSConfig env))
  ∧ (falsy env = true → allowedOrigins (getCORSConfig env) = []).
Proof.
  split; [apply splitTrimFilter_entries |].
  destruct env as [[|c s]|]; try done.
Qed.

(** X2: a list of origins written out with commas between them, each
    origin padded with any white space, is read back as it was, provided
    the origins are what the parser can return at all: non-empty, free of
    commas, without white space at their ends. *)
Theorem getCORSConfig_round_trip (padded : list (jsstring * jsstring * jsstring)) :
  Forall (fun '(pre, origin, post) =>
            Forall (fun c => isWhiteSpace c = true) pre
            ∧ Forall (fun c => isWhiteSpace c = true) post
            ∧ origin ≠ [] ∧ (44 ∉ origin)
            ∧ (∀ c, head origin = Some c → isWhiteSpace c = false)
            ∧ (∀ c, last origin = Some c → isWhiteSpace c = false))
    padded →
  allowedOrigins
    (getCORSConfig (Some (join (js ",") ((fun '(pre, origin, post) => pre ++ origin ++ post)
                                           <$> padded))))
  = (fun '(_, origin, _) => origin) <$> padded.
Proof.
  intros Hall. unfold getCORSConfig. cbn [allowedOrigins].
  destruct padded as [|p padded]; [done |].
  set (parts := (fun '(pre, origin, post) => pre ++ origin ++ post) <$> (p :: padded)).
  assert (Hparts : Forall (fun x => 44 ∉ x) parts).
  { subst parts. apply Forall_fmap. eapply Forall_impl; [exact Hall |].
    intros [[pre origin] post] (Hpre & Hpost & _ & Hcomma & _). simpl.
    rewrite !elem_of_app. intros [Hin | [Hin | Hin]]; [| done |].
    - rewrite Forall_forall in Hpre. by specialize (Hpre _ Hin).
    - rewrite Forall_forall in Hpost. by specialize (Hpost _ Hin). }
  assert (Hne : parts ≠ []) by done.
  assert (Hjoin : str_or (Some (join (js ",") parts)) [] = join (js ",") parts)
    by by destruct (join (js ",") parts).
  rewrite Hjoin. unfold splitTrimFilter.
  change (js ",") with [44]. rewrite (splitOn_join 44 parts Hparts Hne).
  subst parts. clear Hparts Hne Hjoin.
  induction (p :: padded) as [|[[pre origin] post] l IH]; [done |].
  apply Forall_cons in Hall as [(Hpre & Hpost & Hne & _ & Hhead & Hlast) Hall].
  rewrite !fmap_cons. cbn beta iota.
  rewrite (trim_padded pre origin post Hpre Hpost Hhead Hlast).
  rewrite filter_cons_True by done. by rewrite IH.
Qed.



(** ** Bit arithmetic of UTF-8 *)

Ltac nlia := zify; Z.to_euclidean_division_equations; lia.

Ltac side :=
  first [ reflexivity
        | change (2 ^ 3) with 8; change (2 ^ 4) with 16; change (2 ^ 6) with 64; nlia ].

Lemma lor_add a b n : a mod 2 ^ n = 0 → b < 2 ^ n → N.lor a b = a + b.
Proof.
  intros Ha Hb.
  assert (Hland : N.land a b = 0).
  { apply N.bits_inj_0. intros i. rewrite N.land_spec.
    destruct (decide (i < n)) as [Hi | Hi].
    - rewrite <- (N.mod_pow2_bits_low a n i Hi), Ha, N.bits_0. reflexivity.
    - rewrite <- (N.mod_small b (2 ^ n) Hb), N.mod_pow2_bits_high by lia.
      apply andb_false_r. }
  rewrite <- N.lxor_lor by exact Hland. symmetry. by apply N.add_nocarry_lxor.
Qed.

Lemma shiftr_div x n : N.shiftr x n = x / 2 ^ n.
Proof. apply N.shiftr_div_pow2. Qed.

Lemma land_low x n : N.land x (N.ones n) = x mod 2 ^ n.
Proof. apply N.land_ones. Qed.

(** The bytes of a code point, in arithmetic. *)
Lemma utf8_bytes_arith cp :
  cp < 0x110000 →
  utf8_bytes cp
  = if cp <? 0x80 then [cp]
    else if cp <? 0x800 then [0xC0 + cp / 64; 0x80 + cp mod 64]
    else if cp <? 0x10000 then
      [0xE0 + cp / 4096; 0x80 + (cp / 64) mod 64; 0x80 + cp mod 64]
    else
      [0xF0 + cp / 262144; 0x80 + (cp / 4096) mod 64; 0x80 + (cp / 64) mod 64;
       0x80 + cp mod 64].
Proof.
  intros Hcp. unfold utf8_bytes.
  change 0x3F with (N.ones 6). rewrite !land_low, !shiftr_div.
  change (2 ^ 6) with 64. change (2 ^ 12) with 4096. change (2 ^ 18) with 262144.
  destruct (cp <? 0x80) eqn:H1; [done |]. apply N.ltb_ge in H1.
  destruct (cp <? 0x800) eqn:H2; [apply N.ltb_lt in H2 | apply N.ltb_ge in H2].
  { rewrite (lor_add 0xC0 _ 6) by side. rewrite (lor_add 0x80 _ 6) by side. done. }
  destruct (cp <? 0x10000) eqn:H3; [apply N.ltb_lt in H3 | apply N.ltb_ge in H3].
  { rewrite (lor_add 0xE0 _ 4) by side. rewrite !(lor_add 0x80 _ 6) by side. done. }
  rewrite (lor_add 0xF0 _ 3) by side. rewrite !(lor_add 0x80 _ 6) by side. done.
Qed.

Lemma utf8_bytes_octets cp : cp < 0x110000 → Forall (fun b => b < 256) (utf8_bytes cp).
Proof.
  intros Hcp. rewrite utf8_bytes_arith by done.
  destruct (cp <? 0x80) eqn:H1; [apply N.ltb_lt in H1 | apply N.ltb_ge in H1].
  { repeat constructor. lia. }
  destruct (cp <? 0x800) eqn:H2; [apply N.ltb_lt in H2 | apply N.ltb_ge in H2].
  { repeat constructor; nlia. }
  destruct (cp <? 0x10000) eqn:H3; [apply N.ltb_lt in H3 | apply N.ltb_ge in H3];
    repeat constructor; nlia.
Qed.

Lemma surrogate_pair_scalar c d :
  isLeadSurrogate c = true → isTrailSurrogate d = true →
  0x10000 ≤ 0x10000 + (c - 0xD800) * 0x400 + (d - 0xDC00) < 0x110000.
Proof.
  unfold isLeadSurrogate, isTrailSurrogate.
  rewrite !andb_true_iff, !N.leb_le. lia.
Qed.

(** ** Upload headers *)

Lemma trimStart_nil s : trimStart s = [] ↔ Forall (fun c => isWhiteSpace c = true) s.
Proof.
  induction s as [|c s IH]; simpl; [done |].
  destruct (isWhiteSpace c) eqn:Hc.
  - rewrite IH. split; [by constructor | by intros [_ ?]%Forall_cons].
  - split; [done |]. intros [? _]%Forall_cons. congruence.
Qed.

Lemma trim_nil s : trim s = [] ↔ Forall (fun c => isWhiteSpace c = true) s.
Proof.
  unfold trim, trimEnd. split.
  - intros H. apply (f_equal reverse) in H. rewrite reverse_involutive, reverse_nil in H.
    apply trimStart_nil in H. rewrite Forall_reverse in H. apply trimStart_nil.
    destruct (trimStart s) as [|c r] eqn:E; [done |].
    apply Forall_cons in H as [Hc _].
    pose proof (trimStart_head s c) as Hhead. rewrite E in Hhead.
    specialize (Hhead eq_refl). congruence.
  - intros H. apply trimStart_nil in H. by rewrite H.
Qed.

Lemma Forall_sublist_of {A} (P : A → Prop) l1 l2 :
  l1 `sublist_of` l2 → Forall P l2 → Forall P l1.
Proof.
  intros Hsub Hall. apply Forall_forall. intros x Hx.
  rewrite Forall_forall in Hall. apply Hall. by eapply elem_of_sublist.
Qed.

Lemma replaceUnits_Forall (P : N → Prop) (inClass : N → bool) (f : N → jsstring)
    (s : jsstring) :
  (∀ c, c ∈ s → if inClass c then Forall P (f c) else P c) →
  Forall P (replaceUnits inClass f s).
Proof.
  intros H. unfold replaceUnits. apply Forall_bind, Forall_forall.
  intros c Hc. specialize (H c Hc). simpl.
  destruct (inClass c); [done | by apply Forall_singleton].
Qed.

Lemma replaceUnits_cons inClass f c s :
  replaceUnits inClass f (c :: s)
  = (if inClass c then f c else [c]) ++ replaceUnits inClass f s.
Proof. done. Qed.

Lemma replaceUnits_app inClass f s1 s2 :
  replaceUnits inClass f (s1 ++ s2) = replaceUnits inClass f s1 ++ replaceUnits inClass f s2.
Proof. unfold replaceUnits. apply bind_app. Qed.

(** The string [sanitizeFilenameForHeader] cuts to 180 units. *)
Lemma stripped_units filename :
  Forall (fun c => isControl c = false ∧ isPathSeparator c = false)
    (replaceUnits isPathSeparator (fun _ => js "_")
       (replaceUnits isControl (fun _ => []) filename)).
Proof.
  apply replaceUnits_Forall. intros c Hc.
  destruct (isPathSeparator c) eqn:Hsep; [by repeat constructor |].
  split; [| done].
  unfold replaceUnits in Hc. apply list_elem_of_bind in Hc as (c' & Hc & _).
  destruct (isControl c') eqn:Hctl; [by apply elem_of_nil in Hc |].
  by apply list_elem_of_singleton in Hc as ->.
Qed.

(** X4: a sanitized file name is never empty, has at most 180 units,
    holds no control character (so no CR or LF) and no slash or
    backslash, and does not begin with white space; the result is
    [undefined] exactly for the names made of nothing but control
    characters and white space. *)
Theorem sanitizeFilenameForHeader_safe (filename : jsstring) :
  (∀ safe,
     sanitizeFilenameForHeader filename = Some safe →
     safe ≠ [] ∧ (length safe ≤ 180)%nat
     ∧ Forall (fun c => isControl c = false ∧ c ≠ 92 ∧ c ≠ 47) safe
     ∧ (∀ c, head safe = Some c → isWhiteSpace c = false))
  ∧ (sanitizeFilenameForHeader filename = None
     ↔ Forall (fun c => isControl c = true ∨ isWhiteSpace c = true) filename).
Proof.
  unfold sanitizeFilenameForHeader.
  set (replaced := replaceUnits isPathSeparator (fun _ => js "_")
                     (replaceUnits isControl (fun _ => []) filename)).
  split.
  - intros safe. case_bool_decide as Hne; [done |]. intros [= <-].
    destruct (trim_ends replaced) as (Hhead & _ & Hsub).
    destruct (trim replaced) as [|c r] eqn:E; [done |].
    split; [done |]. split; [rewrite length_take; lia |]. split.
    + apply Forall_take.
      apply (Forall_sublist_of _ _ _ Hsub).
      eapply Forall_impl; [apply stripped_units |].
      intros x [Hctl Hsep]. split; [done |]. unfold isPathSeparator in Hsep.
      apply orb_false_iff in Hsep as [H92 H47].
      split; intros ->; done.
    + intros c' [= <-]. by apply Hhead.
  - case_bool_decide as Hnil; [| split; [done |]].
    + split; [intros _ | done]. apply trim_nil in Hnil.
      apply Forall_forall. intros c Hc.
      destruct (isControl c) eqn:Hctl; [by left | right].
      destruct (isPathSeparator c) eqn:Hsep.
      * exfalso. rewrite Forall_forall in Hnil. specialize (Hnil 95).
        assert (Hin : 95 ∈ replaced); [| by specialize (Hnil Hin)].
        subst replaced. unfold replaceUnits at 1. apply list_elem_of_bind.
        exists c. rewrite Hsep. split; [apply list_elem_of_here |].
        unfold replaceUnits. apply list_elem_of_bind. exists c. rewrite Hctl.
        split; [apply list_elem_of_here | done].
      * rewrite Forall_forall in Hnil. apply Hnil.
        subst replaced. unfold replaceUnits at 1. apply list_elem_of_bind.
        exists c. rewrite Hsep. split; [apply list_elem_of_here |].
        unfold replaceUnits. apply list_elem_of_bind. exists c. rewrite Hctl.
        split; [apply list_elem_of_here | done].
    + intros Hall. exfalso. apply Hnil, trim_nil.
      subst replaced. apply replaceUnits_Forall. intros c Hc.
      unfold replaceUnits in Hc. apply list_elem_of_bind in Hc as (c' & Hc & Hc').
      rewrite Forall_forall in Hall. specialize (Hall c' Hc').
      destruct (isControl c') eqn:Hctl; [by apply elem_of_nil in Hc |].
      apply list_elem_of_singleton in Hc as ->.
      destruct Hall as [? | Hws]; [done |].
      destruct (isPathSeparator c') eqn:Hsep; [| done].
      unfold isPathSeparator in Hsep. apply orb_true_iff in Hsep as [H | H];
        apply bool_decide_eq_true in H; by subst c'.
Qed.

(** A reader of a quoted string that meets the escaped value followed by
    the closing quote returns the value itself and stops at that quote. *)
Lemma readQuoted_escaped (value rest : jsstring) :
  readQuoted (escapeQuotedString value ++ 34 :: rest) = Some (value, rest).
Proof.
  unfold escapeQuotedString. induction value as [|c value IH]; [reflexivity |].
  rewrite replaceUnits_cons.
  destruct (bool_decide (c = 92)) eqn:H92; rewrite replaceUnits_app.
  - apply bool_decide_eq_true in H92 as ->.
    change (replaceUnits (λ c, bool_decide (c = 34)) (λ _, [92; 34]) [92; 92])
      with [92; 92].
    rewrite <- app_assoc.
    change (readQuoted ([92; 92] ++ ?x)) with (prod_map (cons 92) id <$> readQuoted x).
    by rewrite IH.
  - apply bool_decide_eq_false in H92.
    destruct (bool_decide (c = 34)) eqn:H34.
    + apply bool_decide_eq_true in H34 as ->.
      change (replaceUnits (λ c, bool_decide (c = 34)) (λ _, [92; 34]) [34])
        with [92; 34].
      rewrite <- app_assoc.
      change (readQuoted ([92; 34] ++ ?x)) with (prod_map (cons 34) id <$> readQuoted x).
      by rewrite IH.
    + assert (Hc : replaceUnits (λ c, bool_decide (c = 34)) (λ _, [92; 34]) [c] = [c]).
      { unfold replaceUnits. simpl. by rewrite H34. }
      rewrite Hc, <- app_assoc. cbn [app readQuoted]. rewrite H34.
      rewrite (bool_decide_eq_false_2 (c = 92)) by done.
      by rewrite IH.
Qed.

(** X5: the escaped value can be read back: a reader of a quoted string
    that meets the escaped value followed by the closing quote returns
    the value itself and stops at that quote, wherever the value holds
    quotes or backslashes of its own; so two values are escaped alike
    only if they are equal. *)
Theorem escapeQuotedString_round_trip (value rest : jsstring) :
  readQuoted (escapeQuotedString value ++ 34 :: rest) = Some (value, rest)
  ∧ (∀ value', escapeQuotedString value = escapeQuotedString value' → value = value').
Proof.
  split; [apply readQuoted_escaped |].
  intros value' Heq.
  pose proof (readQuoted_escaped value []) as H.
  rewrite Heq, readQuoted_escaped in H. congruence.
Qed.

Lemma Forall_forallb {A} (p : A → bool) (l : list A) :
  forallb p l = true → Forall (fun c => p c = true) l.
Proof. intros H. apply Forall_forall. intros c Hc. rewrite forallb_forall in H.
  apply H. by apply list_elem_of_In. Qed.

Lemma printable_units (l : jsstring) :
  forallb (fun c => negb (isNotPrintable c)) l = true →
  Forall (fun c => 0x20 ≤ c ≤ 0x7E) l.
Proof.
  intros H%Forall_forallb. eapply Forall_impl; [exact H |].
  intros c Hc. unfold isNotPrintable in Hc. rewrite negb_involutive in Hc.
  apply andb_true_iff in Hc as [?%N.leb_le ?%N.leb_le]. done.
Qed.

Lemma isNotPrintable_false c : isNotPrintable c = false → 0x20 ≤ c ≤ 0x7E.
Proof.
  unfold isNotPrintable. intros H%negb_false_iff.
  apply andb_true_iff in H as [?%N.leb_le ?%N.leb_le]. done.
Qed.

Lemma hexDigitUpper_printable d : d < 16 → 0x20 ≤ hexDigitUpper d ≤ 0x7E.
Proof.
  intros Hd. unfold hexDigitUpper.
  destruct (d <? 10) eqn:E; [apply N.ltb_lt in E | apply N.ltb_ge in E]; lia.
Qed.

Lemma percentEncode_printable b :
  b < 256 → Forall (fun c => 0x20 ≤ c ≤ 0x7E) (percentEncode b).
Proof.
  intros Hb. unfold percentEncode. rewrite !Forall_cons. split; [lia |].
  split; [apply hexDigitUpper_printable; nlia |].
  split; [apply hexDigitUpper_printable; nlia | done].
Qed.

Lemma isUnreserved_printable c : isUnreserved c = true → 0x20 ≤ c ≤ 0x7E.
Proof.
  unfold isUnreserved.
  rewrite !orb_true_iff, !andb_true_iff, !N.leb_le, !bool_decide_eq_true. lia.
Qed.

Lemma printable_not_surrogate c :
  0x20 ≤ c ≤ 0x7E → isLeadSurrogate c = false ∧ isTrailSurrogate c = false.
Proof.
  intros Hc. unfold isLeadSurrogate, isTrailSurrogate.
  split; apply andb_false_iff; left; apply N.leb_gt; lia.
Qed.

Lemma utf8_percent_printable cp :
  cp < 0x110000 → Forall (fun c => 0x20 ≤ c ≤ 0x7E) (utf8_bytes cp ≫= percentEncode).
Proof.
  intros Hcp. apply Forall_bind. eapply Forall_impl; [by apply utf8_bytes_octets |].
  intros b Hb. by apply percentEncode_printable.
Qed.

(** What [encodeURIComponent] returns is printable ASCII. *)
Lemma encodeURIComponent_printable (n : nat) :
  ∀ s uri,
    (length s ≤ n)%nat →
    Forall (fun c => c < 0x10000) s →
    encodeURIComponent s = Some uri →
    Forall (fun c => 0x20 ≤ c ≤ 0x7E) uri.
Proof.
  induction n as [|n IH]; intros [|c s] uri Hlen Hunits; simpl in *;
    try (by intros [= <-]); try lia.
  apply Forall_cons in Hunits as [Hc Hunits].
  destruct (isUnreserved c) eqn:Hu.
  { destruct (encodeURIComponent s) as [t|] eqn:Ht; [| done]. intros [= <-].
    apply Forall_cons. split; [by apply isUnreserved_printable |].
    apply (IH s); [lia | done | done]. }
  destruct (isLeadSurrogate c) eqn:Hlead.
  { destruct s as [|d s']; [done |].
    destruct (isTrailSurrogate d) eqn:Htrail; [| done].
    apply Forall_cons in Hunits as [Hd Hunits].
    destruct (encodeURIComponent s') as [t|] eqn:Ht; [| done]. intros [= <-].
    apply Forall_app. split.
    - apply utf8_percent_printable. by apply surrogate_pair_scalar.
    - apply (IH s'); [simpl in Hlen; lia | done | done]. }
  destruct (isTrailSurrogate c) eqn:Htrail; [done |].
  destruct (encodeURIComponent s) as [t|] eqn:Ht; [| done]. intros [= <-].
  apply Forall_app. split.
  - apply utf8_percent_printable. lia.
  - apply (IH s); [lia | done | done].
Qed.

(** [encodeURIComponent] throws exactly on the strings that are not well
    formed. *)
Lemma encodeURIComponent_None (n : nat) :
  ∀ s, (length s ≤ n)%nat → encodeURIComponent s = None ↔ isWellFormed s = false.
Proof.
  induction n as [|n IH]; intros [|c s] Hlen; simpl in *; try done; try lia.
  destruct (isUnreserved c) eqn:Hu.
  { destruct (printable_not_surrogate c (isUnreserved_printable c Hu)) as [-> ->].
    simpl. rewrite fmap_None. apply IH. lia. }
  destruct (isLeadSurrogate c) eqn:Hlead.
  { destruct s as [|d s']; [done |].
    destruct (isTrailSurrogate d) eqn:Htrail; [| done].
    simpl. rewrite fmap_None. apply IH. simpl in Hlen. lia. }
  destruct (isTrailSurrogate c) eqn:Htrail; [done |].
  simpl. rewrite fmap_None. apply IH. lia.
Qed.

Lemma escapeQuotedString_printable value :
  Forall (fun c => 0x20 ≤ c ≤ 0x7E) value →
  Forall (fun c => 0x20 ≤ c ≤ 0x7E) (escapeQuotedString value).
Proof.
  intros Hall. unfold escapeQuotedString.
  apply replaceUnits_Forall. intros c Hc.
  assert (Hp : 0x20 ≤ c ≤ 0x7E).
  { revert c Hc. apply Forall_forall, replaceUnits_Forall. intros c Hc.
    rewrite Forall_forall in Hall. specialize (Hall c Hc).
    destruct (bool_decide (c = 92)); [| done].
    by apply printable_units. }
  destruct (bool_decide (c = 34)); [| done].
  by apply printable_units.
Qed.

(** X6: whatever the file name, a [Content-Disposition] value that is
    returned consists of printable ASCII only (U+0020 to U+007E): it
    holds no CR, no LF, no other control character and nothing outside
    ASCII, so it cannot break out of its header line. *)
Theorem buildContentDispositionAttachment_printable (originalFilename header : jsstring) :
  Forall (fun c => c < 0x10000) originalFilename →
  buildContentDispositionAttachment originalFilename = Returned (Some header) →
  Forall (fun c => 0x20 ≤ c ≤ 0x7E) header.
Proof.
  intros Hunits. unfold buildContentDispositionAttachment.
  destruct (sanitizeFilenameForHeader originalFilename) as [safe|] eqn:Hsafe; [| done].
  assert (Hsafe_units : Forall (fun c => c < 0x10000) safe).
  { unfold sanitizeFilenameForHeader in Hsafe.
    case_bool_decide; [done |]. injection Hsafe as <-.
    apply Forall_take.
    eapply Forall_sublist_of; [apply trim_ends |].
    apply replaceUnits_Forall. intros c Hc.
    destruct (isPathSeparator c); [change (js "_") with [95]; by rewrite Forall_singleton |].
    revert c Hc. apply Forall_forall, replaceUnits_Forall. intros c Hc.
    destruct (isControl c); [done |].
    rewrite Forall_forall in Hunits. by apply Hunits. }
  destruct (encodeURIComponent safe) as [uri|] eqn:Huri; [| done].
  assert (Hprefix : Forall (fun c => 0x20 ≤ c ≤ 0x7E) (js "attachment; filename="))
    by by apply printable_units.
  assert (Hmiddle : Forall (fun c => 0x20 ≤ c ≤ 0x7E) (js "; filename*=UTF-8''"))
    by by apply printable_units.
  assert (Hquote : Forall (fun c => 0x20 ≤ c ≤ 0x7E) [34])
    by by apply printable_units.
  revert Hprefix Hmiddle.
  generalize (js "attachment; filename=") (js "; filename*=UTF-8''").
  intros prefix middle Hprefix Hmiddle [= <-].
  rewrite ?Forall_app, ?Forall_cons, ?Forall_app, ?Forall_cons, ?Forall_app.
  split; [done |]. split; [lia |]. split; [| split; [lia |]; split; [done |]].
  - apply escapeQuotedString_printable.
    set (fallback := replaceUnits isNotPrintable (fun _ => js "_") safe).
    assert (Hfallback : Forall (fun c => 0x20 ≤ c ≤ 0x7E) fallback).
    { apply replaceUnits_Forall. intros c _.
      destruct (isNotPrintable c) eqn:Hc; [by apply printable_units |].
      by apply isNotPrintable_false. }
    destruct fallback as [|c r]; [by apply printable_units | done].
  - apply replaceUnits_Forall. intros c Hc.
    pose proof (encodeURIComponent_printable (length safe) safe uri
                  (le_n _) Hsafe_units Huri) as Hall.
    rewrite Forall_forall in Hall. specialize (Hall c Hc).
    destruct (isQuoteParenStar c) eqn:Hq; [| done].
    unfold isQuoteParenStar in Hq.
    rewrite !orb_true_iff, !bool_decide_eq_true in Hq.
    rewrite !Forall_cons. split; [lia |].
    split; [apply hexDigitUpper_printable; nlia |].
    split; [apply hexDigitUpper_printable; nlia | done].
Qed.

(** X7: building the header throws (the [URIError] of
    [encodeURIComponent]) exactly when the sanitized name is not well
    formed UTF-16, that is, when it holds a surrogate without its
    partner; this is the only way the call fails. *)
Theorem buildContentDispositionAttachment_throws (originalFilename : jsstring) :
  buildContentDispositionAttachment originalFilename = Threw
  ↔ ∃ safe, sanitizeFilenameForHeader originalFilename = Some safe
            ∧ isWellFormed safe = false.
Proof.
  unfold buildContentDispositionAttachment.
  destruct (sanitizeFilenameForHeader originalFilename) as [safe|] eqn:Hsafe.
  - pose proof (encodeURIComponent_None (length safe) safe (le_n _)) as Hnone.
    destruct (encodeURIComponent safe) as [uri|] eqn:Huri.
    + split; [done |]. intros (safe' & [= <-] & Hwf).
      apply Hnone in Hwf. done.
    + split; [| done]. intros _. exists safe. split; [done |]. by apply Hnone.
  - split; [done |]. by intros (safe' & [=] & _).
Qed.

Lemma isWellFormed_plain_app plain s :
  Forall (fun c => isLeadSurrogate c = false ∧ isTrailSurrogate c = false) plain →
  isWellFormed (plain ++ s) = isWellFormed s.
Proof.
  induction plain as [|c plain IH]; [done |].
  intros [[Hlead Htrail] Hplain]%Forall_cons. simpl. rewrite Hlead, Htrail. by apply IH.
Qed.

Lemma isWellFormed_app_plain (n : nat) :
  ∀ s plain,
    (length s ≤ n)%nat →
    Forall (fun c => isLeadSurrogate c = false ∧ isTrailSurrogate c = false) plain →
    isWellFormed (s ++ plain) = isWellFormed s.
Proof.
  induction n as [|n IH]; intros [|c s] plain Hlen Hplain; simpl in *; try lia.
  - rewrite <- (app_nil_r plain). by rewrite isWellFormed_plain_app.
  - rewrite <- (app_nil_r plain). by rewrite isWellFormed_plain_app.
  - destruct (isLeadSurrogate c).
    + destruct s as [|d s']; simpl.
      * destruct plain as [|w plain]; [done |].
        apply Forall_cons in Hplain as [[_ ->] _]. done.
      * f_equal. apply IH; [simpl in Hlen; lia | done].
    + f_equal. apply IH; [lia | done].
Qed.

Lemma isWhiteSpace_not_surrogate c :
  isWhiteSpace c = true → isLeadSurrogate c = false ∧ isTrailSurrogate c = false.
Proof.
  unfold isWhiteSpace, isLeadSurrogate, isTrailSurrogate.
  rewrite !orb_true_iff, !andb_true_iff, !andb_false_iff, !N.leb_le, !N.leb_gt,
    !bool_decide_eq_true. lia.
Qed.

Lemma trimStart_split s :
  ∃ ws, s = ws ++ trimStart s ∧ Forall (fun c => isWhiteSpace c = true) ws.
Proof.
  induction s as [|c s (ws & Hs & Hws)]; [by exists [] |]. simpl.
  destruct (isWhiteSpace c) eqn:Hc.
  - exists (c :: ws). split; [by rewrite Hs at 1 | by constructor].
  - by exists [].
Qed.

Lemma trimEnd_split s :
  ∃ ws, s = trimEnd s ++ ws ∧ Forall (fun c => isWhiteSpace c = true) ws.
Proof.
  destruct (trimStart_split (reverse s)) as (ws & Hs & Hws).
  exists (reverse ws). split; [| by apply Forall_reverse].
  unfold trimEnd. rewrite <- reverse_app, <- Hs. by rewrite reverse_involutive.
Qed.

Lemma isWellFormed_trim s : isWellFormed s = true → isWellFormed (trim s) = true.
Proof.
  intros Hwf. unfold trim.
  destruct (trimStart_split s) as (ws1 & Hs1 & Hws1).
  destruct (trimEnd_split (trimStart s)) as (ws2 & Hs2 & Hws2).
  rewrite Hs1, isWellFormed_plain_app in Hwf
    by (eapply Forall_impl; [exact Hws1 | apply isWhiteSpace_not_surrogate]).
  rewrite Hs2 in Hwf.
  rewrite (isWellFormed_app_plain (length (trimEnd (trimStart s)))) in Hwf; [done | done |].
  eapply Forall_impl; [exact Hws2 | apply isWhiteSpace_not_surrogate].
Qed.

(** Replacing units that are no surrogates by units that are no
    surrogates keeps a string well formed. *)
Lemma isWellFormed_replaceUnits inClass f (n : nat) :
  (∀ c, inClass c = true →
        isLeadSurrogate c = false ∧ isTrailSurrogate c = false
        ∧ Forall (fun x => isLeadSurrogate x = false ∧ isTrailSurrogate x = false) (f c)) →
  ∀ s, (length s ≤ n)%nat → isWellFormed s = true →
       isWellFormed (replaceUnits inClass f s) = true.
Proof.
  intros Hclass. induction n as [|n IH]; intros [|c s] Hlen Hwf; try done;
    [simpl in Hlen; lia |].
  rewrite replaceUnits_cons. simpl in Hwf, Hlen.
  destruct (isLeadSurrogate c) eqn:Hlead.
  - destruct s as [|d s']; [done |]. apply andb_true_iff in Hwf as [Htrail Hwf].
    rewrite replaceUnits_cons.
    destruct (inClass c) eqn:Hc; [destruct (Hclass c Hc); congruence |].
    destruct (inClass d) eqn:Hd; [destruct (Hclass d Hd) as (_ & ? & _); congruence |].
    change ([c] ++ [d] ++ ?x) with (c :: d :: x).
    cbn [isWellFormed]. rewrite Hlead, Htrail. cbn [andb].
    apply IH; [simpl in Hlen; lia | done].
  - apply andb_true_iff in Hwf as [Htrail%negb_true_iff Hwf].
    rewrite isWellFormed_plain_app; [apply IH; [lia | done] |].
    destruct (inClass c) eqn:Hc; [by apply Hclass |].
    by apply Forall_singleton.
Qed.

Lemma replaceUnits_length inClass f s :
  (∀ c, (length (f c) ≤ 1)%nat) → (length (replaceUnits inClass f s) ≤ length s)%nat.
Proof.
  intros Hf. induction s as [|c s IH]; [done |].
  rewrite replaceUnits_cons, length_app. simpl.
  specialize (Hf c). destruct (inClass c); simpl; lia.
Qed.

(** X8: a file name that is well formed UTF-16 and has at most 180 code
    units never makes the call throw. *)
Theorem buildContentDispositionAttachment_returns (originalFilename : jsstring) :
  isWellFormed originalFilename = true →
  (length originalFilename ≤ 180)%nat →
  ∃ header, buildContentDispositionAttachment originalFilename = Returned header.
Proof.
  intros Hwf Hlen.
  destruct (buildContentDispositionAttachment originalFilename) as [header|] eqn:Hbuild;
    [by exists header |].
  exfalso. revert Hbuild. unfold buildContentDispositionAttachment.
  destruct (sanitizeFilenameForHeader originalFilename) as [safe|] eqn:Hsafe; [| done].
  assert (Hsafe_wf : isWellFormed safe = true).
  { unfold sanitizeFilenameForHeader in Hsafe.
    set (stripped := replaceUnits isControl (fun _ => []) originalFilename) in *.
    set (replaced := replaceUnits isPathSeparator (fun _ => js "_") stripped) in *.
    case_bool_decide; [done |]. injection Hsafe as <-.
    assert (Hstripped : (length stripped ≤ length originalFilename)%nat)
      by (apply replaceUnits_length; intros; simpl; lia).
    assert (Hreplaced : (length replaced ≤ length stripped)%nat)
      by (apply replaceUnits_length; intros; simpl; lia).
    assert (Htrim : (length (trim replaced) ≤ length replaced)%nat)
      by (apply sublist_length, trim_ends).
    rewrite take_ge by lia.
    apply isWellFormed_trim.
    apply (isWellFormed_replaceUnits _ _ (length stripped)); [| done |].
    { intros c Hc. unfold isPathSeparator in Hc.
      rewrite orb_true_iff, !bool_decide_eq_true in Hc.
      split; [| split; [| by apply Forall_singleton]];
        unfold isLeadSurrogate, isTrailSurrogate; apply andb_false_iff; left;
        apply N.leb_gt; lia. }
    apply (isWellFormed_replaceUnits _ _ (length originalFilename)); [| done | done].
    intros c Hc. unfold isControl in Hc.
    rewrite orb_true_iff, N.leb_le, bool_decide_eq_true in Hc.
    split; [| split; [| done]];
      unfold isLeadSurrogate, isTrailSurrogate; apply andb_false_iff; left;
      apply N.leb_gt; lia. }
  pose proof (encodeURIComponent_None (length safe) safe (le_n _)) as Hnone.
  destruct (encodeURIComponent safe); [done |].
  intros _. destruct Hnone as [Hnone _]. specialize (Hnone eq_refl). congruence.
Qed.

Lemma replaceUnits_fmap inClass (u : N) s :
  replaceUnits inClass (fun _ => [u]) s = (fun c => if inClass c then u else c) <$> s.
Proof.
  induction s as [|c s IH]; [done |].
  rewrite replaceUnits_cons, fmap_cons, IH. by destruct (inClass c).
Qed.

(** X9: in a header that is returned, what stands between the quotes of
    [filename=] reads back, escapes undone, as the sanitized name with
    every unit outside printable ASCII replaced by an underscore; the
    default [download] never appears, since a sanitized name is not
    empty. *)
Theorem buildContentDispositionAttachment_filename (originalFilename header : jsstring) :
  buildContentDispositionAttachment originalFilename = Returned (Some header) →
  ∃ safe rest,
    sanitizeFilenameForHeader originalFilename = Some safe
    ∧ take 22 header = js "attachment; filename=" ++ [34]
    ∧ readQuoted (drop 22 header)
      = Some ((fun c => if isNotPrintable c then 95 else c) <$> safe, rest).
Proof.
  unfold buildContentDispositionAttachment.
  destruct (sanitizeFilenameForHeader originalFilename) as [safe|] eqn:Hsafe; [| done].
  destruct (encodeURIComponent safe) as [uri|]; [| done].
  assert (Hne : safe ≠ []).
  { unfold sanitizeFilenameForHeader in Hsafe. case_bool_decide as Hne; [done |].
    injection Hsafe as <-. by destruct (trim _). }
  change (js "_") with [95]. rewrite replaceUnits_fmap.
  intros H. assert (Hheader : header
    = (js "attachment; filename=" ++ [34])
      ++ escapeQuotedString ((fun c => if isNotPrintable c then 95 else c) <$> safe)
      ++ 34 :: js "; filename*=UTF-8''"
      ++ replaceUnits isQuoteParenStar
           (fun c => [37; hexDigitUpper (c / 16); hexDigitUpper (c mod 16)]) uri).
  { assert (Hor : ∀ l d : jsstring, l ≠ [] → str_or (Some l) d = l)
      by (by intros [|? ?] ? ?).
    rewrite Hor in H by by destruct safe.
    apply (f_equal (fun r => match r with Returned (Some h) => h | _ => [] end)) in H.
    cbv beta iota in H. rewrite <- H. by rewrite <- app_assoc. }
  clear H. eexists safe, _. split; [done |]. rewrite Hheader. split.
  - by rewrite take_app_length'.
  - rewrite drop_app_length' by done. apply readQuoted_escaped.
Qed.

(** ** What the hook never does *)

Lemma keepsMessages_refl ms : keepsMessages ms ms.
Proof. intros i m Hm. exists m. by repeat split. Qed.

Lemma keepsMessages_trans ms1 ms2 ms3 :
  keepsMessages ms1 ms2 → keepsMessages ms2 ms3 → keepsMessages ms1 ms3.
Proof.
  intros H12 H23 i m1 Hm1.
  destruct (H12 i m1 Hm1) as (m2 & Hm2 & Ht2 & Hi2 & Hn2 & Hs2 & Hc2 & Hp2 & Hu2).
  destruct (H23 i m2 Hm2) as (m3 & Hm3 & Ht3 & Hi3 & Hn3 & Hs3 & Hc3 & Hp3 & Hu3).
  exists m3. repeat split; try congruence.
  - by transitivity (toolCallsOf m2).
  - intros Hai. rewrite Hu3, Hu2; congruence.
Qed.

Lemma keepsMessages_snoc ms m : keepsMessages ms (ms ++ [m]).
Proof.
  intros i m0 Hm0. exists m0. repeat split; try done.
  by apply lookup_app_l_Some.
Qed.

Lemma keepsMessages_insert ms idx m m' :
  ms !! idx = Some m →
  m_type m = M_ai →
  m_type m' = m_type m →
  d_id (m_data m') = d_id (m_data m) →
  d_name (m_data m') = d_name (m_data m) →
  d_status (m_data m') = d_status (m_data m) →
  d_tool_call_id (m_data m') = d_tool_call_id (m_data m) →
  toolCallsOf m `prefix_of` toolCallsOf m' →
  keepsMessages ms (<[idx := m']> ms).
Proof.
  intros Hm Hai Ht Hi Hn Hs Hc Hp i m0 Hm0.
  destruct (decide (i = idx)) as [-> | Hne].
  - exists m'. assert (m0 = m) as -> by congruence.
    repeat split; try done.
    apply list_lookup_insert_eq. by eapply lookup_lt_Some.
  - exists m0. repeat split; try done. by rewrite list_lookup_insert_ne.
Qed.

Lemma processStreamChunk_keeps now chunk st :
  keepsMessages (messages st) (messages (processStreamChunk now chunk st)).
Proof.
  unfold processStreamChunk. destruct (c_type chunk).
  - destruct (falsy (currentMessageIdRef st)); cbn [messages];
      [apply keepsMessages_snoc |].
    destruct (findIndex _ _) as [idx|] eqn:Hidx; [| apply keepsMessages_refl].
    destruct (messages st !! idx) as [m|] eqn:Hm; [| apply keepsMessages_refl].
    apply findIndex_Some in Hidx as (m0 & Hm0 & Hcur & _).
    assert (m0 = m) as -> by congruence.
    apply (keepsMessages_insert _ _ m); try done.
    by apply (isCurrentAi_type (currentMessageIdRef st)).
  - destruct (c_toolCall chunk) as [toolCall|]; [| apply keepsMessages_refl].
    destruct (falsy (currentMessageIdRef st)); cbn [negb messages];
      [apply keepsMessages_refl |].
    destruct (findIndex _ _) as [idx|] eqn:Hidx; [| apply keepsMessages_refl].
    destruct (messages st !! idx) as [m|] eqn:Hm; [| apply keepsMessages_refl].
    destruct (toolCallExists _ _); [apply keepsMessages_refl |].
    apply findIndex_Some in Hidx as (m0 & Hm0 & Hcur & _).
    assert (m0 = m) as -> by congruence.
    apply (keepsMessages_insert _ _ m); try done.
    + by apply (isCurrentAi_type (currentMessageIdRef st)).
    + by apply prefix_app_r.
  - destruct (c_toolResult chunk); [apply keepsMessages_snoc | apply keepsMessages_refl].
  - apply keepsMessages_refl.
  - apply keepsMessages_snoc.
Qed.

(** X10: whatever chunks arrive and whatever the hook holds, it never
    removes, moves or retypes a message of the list: each one stays at
    its index with its type, id, name, status and [tool_call_id], the
    tool calls it listed stay in front in their order, and the human,
    tool and error messages are not changed at all.  Only the content of
    assistant messages is written to and only tool calls are added. *)
Theorem hook_keeps_messages (chunks : list (N * StreamChunk)) (st : HookState) :
  keepsMessages (messages st) (messages (processStreamChunks chunks st))
  ∧ (length (messages st) ≤ length (messages (processStreamChunks chunks st)))%nat.
Proof.
  assert (Hkeeps : keepsMessages (messages st) (messages (processStreamChunks chunks st))).
  { unfold processStreamChunks. revert st.
    induction chunks as [|[now chunk] chunks IH]; intros st; [apply keepsMessages_refl |].
    simpl. eapply keepsMessages_trans; [apply processStreamChunk_keeps | apply IH]. }
  split; [exact Hkeeps |].
  destruct (messages st) as [|m0 ms] eqn:Hms using rev_ind; [simpl; lia |].
  clear IHms.
  destruct (Hkeeps (length ms) m0) as (m' & Hm' & _).
  { by rewrite lookup_app_r, Nat.sub_diag. }
  apply lookup_lt_Some in Hm'. rewrite length_app. simpl. lia.
Qed.

(** ** The response as a whole *)

Lemma processStreamChunk_isSending now chunk st :
  isSending (processStreamChunk now chunk st)
  = if bool_decide (c_type chunk = T_done) || bool_decide (c_type chunk = T_error)
    then false else isSending st.
Proof.
  unfold processStreamChunk. destruct (c_type chunk); simpl; try done.
  - by destruct (falsy (currentMessageIdRef st)).
  - destruct (c_toolCall chunk); [| done]. by destruct (falsy (currentMessageIdRef st)).
  - by destruct (c_toolResult chunk).
Qed.

Lemma processLine_isSending JSON_parse now line st :
  isSending (processLine JSON_parse now line st)
  = if clearsSending JSON_parse line then false else isSending st.
Proof.
  rewrite processLine_dataChunk. unfold clearsSending. cbv zeta.
  destruct (dataChunk JSON_parse line) as [chunk|].
  - destruct (startsWith line (js "event: error")), (startsWith line (js "event: done"));
      rewrite ?orb_true_r; try done.
    rewrite !orb_false_r. apply processStreamChunk_isSending.
  - by destruct (startsWith line (js "event: error")), (startsWith line (js "event: done")).
Qed.

Lemma processLines_isSending JSON_parse lines st :
  isSending (processLines JSON_parse lines st)
  = if existsb (fun nl => clearsSending JSON_parse nl.2) lines then false else isSending st.
Proof.
  unfold processLines. revert st.
  induction lines as [|[now line] lines IH]; intros st; [done |].
  simpl. rewrite IH, processLine_isSending.
  by destruct (clearsSending JSON_parse line), (existsb _ lines).
Qed.

Lemma existsb_imap_snd {A} (p : A → bool) (f : nat → N) (l : list A) :
  existsb (fun nl : N * A => p nl.2) (imap (fun i x => (f i, x)) l) = existsb p l.
Proof.
  revert f. induction l as [|x l IH]; intros f; [done |]. simpl. f_equal.
  apply (IH (fun i => f (S i))).
Qed.

(** X11: the sending flag at the end of a response.  When the body ends
    (or the request is aborted) the flag is cleared exactly if one of the
    complete lines received decoded to a [done] or [error] chunk or named
    the event [done] or [error]; a body that merely ends leaves the flag
    set.  A failed read always clears it. *)
Theorem handleStreamResponse_isSending (JSON_parse : jsstring → option StreamChunk)
    (clock : nat → N) (old : list MessageResponse) (values : list bytes) (e : BodyEnd) :
  isSending (handleStreamResponse JSON_parse clock old values e)
  = match e with
    | ReadFailed => false
    | BodyDone | Aborted =>
        negb (existsb (clearsSending JSON_parse) (readAll newReader values).1)
    end.
Proof.
  unfold handleStreamResponse. rewrite readLoop_readAll.
  destruct (readAll newReader values) as [lines r]. cbn [fst].
  assert (H : isSending
                (processLines JSON_parse
                   (imap (fun i line => (clock (0 + i)%nat, line)) lines) (startStream old))
              = negb (existsb (clearsSending JSON_parse) lines)).
  { rewrite processLines_isSending, (existsb_imap_snd _ (fun i => clock (0 + i)%nat)).
    by destruct (existsb _ lines). }
  by destruct e.
Qed.

Lemma processStreamChunk_clock now now' chunk st :
  match c_type chunk with
  | T_token | T_tool_result => falsy (c_messageId chunk)
  | T_error => true
  | T_tool_call | T_done => false
  end = false →
  processStreamChunk now chunk st = processStreamChunk now' chunk st.
Proof.
  unfold processStreamChunk, toolMessage.
  destruct (c_type chunk); try done;
    by destruct (c_messageId chunk) as [[|c id]|].
Qed.

Lemma processLine_clock JSON_parse now now' line st :
  (readsClock JSON_parse line = true → now = now') →
  processLine JSON_parse now line st = processLine JSON_parse now' line st.
Proof.
  intros Hclock. destruct (readsClock JSON_parse line) eqn:Hreads;
    [by rewrite (Hclock eq_refl) |].
  rewrite !processLine_dataChunk. unfold readsClock in Hreads.
  destruct (dataChunk JSON_parse line) as [chunk|]; [| done].
  by rewrite (processStreamChunk_clock now now' chunk st Hreads).
Qed.

Lemma processLines_clock JSON_parse (clock clock' : nat → N) lines :
  (∀ k line, lines !! k = Some line → readsClock JSON_parse line = true →
             clock k = clock' k) →
  ∀ st,
    processLines JSON_parse (imap (fun i line => (clock i, line)) lines) st
    = processLines JSON_parse (imap (fun i line => (clock' i, line)) lines) st.
Proof.
  unfold processLines. revert clock clock'.
  induction lines as [|line lines IH]; intros clock clock' Hclock st; [done |].
  rewrite !imap_cons. cbn [foldl fst snd].
  rewrite (processLine_clock JSON_parse (clock 0%nat) (clock' 0%nat) line st)
    by (apply (Hclock 0%nat); done).
  apply (IH (fun i => clock (S i)) (fun i => clock' (S i))).
  intros k line' Hk. apply (Hclock (S k)). done.
Qed.

(** X12: how the cutting of a body can matter to the hook.  Two
    deliveries of the same bytes, cut into buffers in different ways and
    arriving at different times, leave the hook in the same state,
    provided their readings of [Date.now()] agree at the lines that make
    the hook read it: the lines that decode to a token or tool_result
    chunk without a [messageId] or to an error chunk.  When no line of
    the body does so (the server supplies every id and sends no error
    chunk) the state does not depend on the cutting or the timing at
    all.  Apart from those generated ids nothing depends on the cut,
    whatever the bytes are. *)
Theorem handleStreamResponse_split_invariance (JSON_parse : jsstring → option StreamChunk)
    (clock clock' : nat → N) (old : list MessageResponse) (pieces pieces' : list bytes)
    (e : BodyEnd) :
  mjoin pieces = mjoin pieces' →
  (∀ k line,
     (readAll newReader [mjoin pieces]).1 !! k = Some line →
     readsClock JSON_parse line = true →
     clock k = clock' k) →
  handleStreamResponse JSON_parse clock old pieces e
  = handleStreamResponse JSON_parse clock' old pieces' e.
Proof.
  intros Hbytes Hclock. unfold handleStreamResponse.
  rewrite (readLoop_split_invariance JSON_parse clock pieces 0 newReader (startStream old))
    by apply not_elem_of_nil.
  rewrite (readLoop_split_invariance JSON_parse clock' pieces' 0 newReader (startStream old))
    by apply not_elem_of_nil.
  rewrite <- Hbytes, !readLoop_readAll.
  destruct (readAll newReader [mjoin pieces]) as [lines r]. cbn [fst] in Hclock.
  pose proof (processLines_clock JSON_parse clock clock' lines Hclock (startStream old)) as H.
  cbn [Nat.add]. rewrite H. done.
Qed.

(** ** From the route to the hook *)

Lemma shiftl_mul x n : N.shiftl x n = x * 2 ^ n.
Proof. apply N.shiftl_mul_pow2. Qed.

Lemma inRange_true lo hi b : lo ≤ b → b ≤ hi → inRange lo hi b = true.
Proof. intros. unfold inRange. apply andb_true_iff. by rewrite !N.leb_le. Qed.

Lemma inRange_false lo hi b : b < lo ∨ hi < b → inRange lo hi b = false.
Proof. intros. unfold inRange. apply andb_false_iff. rewrite !N.leb_gt. tauto. Qed.

Lemma utf8_step_ascii b byte :
  byte < 0x80 → utf8_step (decoderAfter b) byte = (decoderAfter b, [byte]).
Proof.
  intros Hb. unfold utf8_step, utf8_lead. cbn [decoderAfter bytes_needed].
  rewrite bool_decide_eq_true_2 by done. by rewrite inRange_true by lia.
Qed.

Lemma utf8_step_lead2 b byte :
  0xC2 ≤ byte ≤ 0xDF →
  utf8_step (decoderAfter b) byte
  = (Build_TextDecoder (N.land byte 0x1F) 0 1 0x80 0xBF b, []).
Proof.
  intros Hb. unfold utf8_step, utf8_lead. cbn [decoderAfter bytes_needed].
  rewrite bool_decide_eq_true_2 by done.
  rewrite inRange_false by lia. by rewrite inRange_true by lia.
Qed.

Lemma utf8_step_lead3 b byte :
  0xE0 ≤ byte ≤ 0xEF →
  utf8_step (decoderAfter b) byte
  = (Build_TextDecoder (N.land byte 0xF) 0 2
       (if bool_decide (byte = 0xE0) then 0xA0 else 0x80)
       (if bool_decide (byte = 0xED) then 0x9F else 0xBF) b, []).
Proof.
  intros Hb. unfold utf8_step, utf8_lead. cbn [decoderAfter bytes_needed].
  rewrite bool_decide_eq_true_2 by done.
  rewrite !inRange_false by lia. by rewrite inRange_true by lia.
Qed.

Lemma utf8_step_lead4 b byte :
  0xF0 ≤ byte ≤ 0xF4 →
  utf8_step (decoderAfter b) byte
  = (Build_TextDecoder (N.land byte 0x7) 0 3
       (if bool_decide (byte = 0xF0) then 0x90 else 0x80)
       (if bool_decide (byte = 0xF4) then 0x8F else 0xBF) b, []).
Proof.
  intros Hb. unfold utf8_step, utf8_lead. cbn [decoderAfter bytes_needed].
  rewrite bool_decide_eq_true_2 by done.
  rewrite (inRange_false 0 0x7F), (inRange_false 0xC2), (inRange_false 0xE0) by lia.
  by rewrite inRange_true by lia.
Qed.

Lemma utf8_step_last cp seen needed lo hi b byte :
  needed ≠ 0 → lo ≤ byte ≤ hi → seen + 1 = needed →
  utf8_step (Build_TextDecoder cp seen needed lo hi b) byte
  = (decoderAfter b, [N.lor (N.shiftl cp 6) (N.land byte 0x3F)]).
Proof.
  intros Hn Hb Hs. unfold utf8_step.
  cbn [bytes_needed bytes_seen lower_boundary upper_boundary code_point BOM_seen].
  rewrite bool_decide_eq_false_2 by done.
  rewrite inRange_true by lia. cbn [negb].
  by rewrite bool_decide_eq_true_2 by done.
Qed.

Lemma utf8_step_more cp seen needed lo hi b byte :
  needed ≠ 0 → lo ≤ byte ≤ hi → seen + 1 ≠ needed →
  utf8_step (Build_TextDecoder cp seen needed lo hi b) byte
  = (Build_TextDecoder (N.lor (N.shiftl cp 6) (N.land byte 0x3F)) (seen + 1) needed
       0x80 0xBF b, []).
Proof.
  intros Hn Hb Hs. unfold utf8_step.
  cbn [bytes_needed bytes_seen lower_boundary upper_boundary code_point BOM_seen].
  rewrite bool_decide_eq_false_2 by done.
  rewrite inRange_true by lia. cbn [negb].
  by rewrite bool_decide_eq_false_2 by done.
Qed.

Lemma emitAll_one b cp :
  (b = false → cp ≠ 0xFEFF) →
  emitAll (decoderAfter b) [cp] = (decoderAfter true, utf16_units cp).
Proof.
  intros Hbom. cbn [emitAll]. unfold emit.
  cbn [decoderAfter BOM_seen code_point bytes_seen bytes_needed lower_boundary
         upper_boundary].
  destruct b; cbn [negb andb].
  - by rewrite app_nil_r.
  - rewrite bool_decide_eq_false_2 by by apply Hbom. by rewrite app_nil_r.
Qed.

(** The continuation bytes in arithmetic. *)
Lemma continuation x y :
  y < 64 → N.lor (N.shiftl x 6) (N.land (0x80 + y) 0x3F) = x * 64 + y.
Proof.
  intros Hy. change 0x3F with (N.ones 6). rewrite land_low, shiftl_mul.
  change (2 ^ 6) with 64.
  assert (H : (128 + y) mod 64 = y) by nlia. rewrite H.
  rewrite (lor_add (x * 64) y 6); [done | change (2 ^ 6) with 64; nlia | done].
Qed.

Lemma decode_cons_silent d byte d1 rest :
  utf8_step d byte = (d1, []) → decode d (byte :: rest) = decode d1 rest.
Proof. intros H. cbn [decode]. rewrite H. cbn [emitAll]. by destruct (decode d1 rest). Qed.

Lemma decode_cons_emit d byte b cp rest :
  utf8_step d byte = (decoderAfter b, [cp]) →
  (b = false → cp ≠ 0xFEFF) →
  decode d (byte :: rest)
  = let '(d3, s2) := decode (decoderAfter true) rest in (d3, utf16_units cp ++ s2).
Proof.
  intros H Hbom. cbn [decode]. rewrite H, (emitAll_one b cp Hbom). done.
Qed.

(** The bytes of a scalar value decode to its code units, from a decoder
    between two characters; a U+FEFF is kept unless it comes first. *)
Lemma decode_scalar b cp rest :
  cp < 0x110000 → ¬ (0xD800 ≤ cp ≤ 0xDFFF) → (b = false → cp ≠ 0xFEFF) →
  decode (decoderAfter b) (utf8_bytes cp ++ rest)
  = let '(d, s) := decode (decoderAfter true) rest in (d, utf16_units cp ++ s).
Proof.
  intros Hcp Hsur Hbom. rewrite utf8_bytes_arith by done.
  destruct (cp <? 0x80) eqn:H1; [apply N.ltb_lt in H1 | apply N.ltb_ge in H1].
  { cbn [app]. apply (decode_cons_emit _ _ b); [by apply utf8_step_ascii | done]. }
  destruct (cp <? 0x800) eqn:H2; [apply N.ltb_lt in H2 | apply N.ltb_ge in H2].
  { cbn [app].
    rewrite (decode_cons_silent _ _ _ _ (utf8_step_lead2 b (0xC0 + cp / 64) ltac:(nlia))).
    apply (decode_cons_emit _ _ b).
    - rewrite utf8_step_last by (try done; nlia). f_equal. f_equal.
      change 0x1F with (N.ones 5). rewrite land_low. change (2 ^ 5) with 32.
      assert (H : (192 + cp / 64) mod 32 = cp / 64) by nlia. rewrite H.
      rewrite continuation by nlia. nlia.
    - done. }
  destruct (cp <? 0x10000) eqn:H3; [apply N.ltb_lt in H3 | apply N.ltb_ge in H3].
  { cbn [app].
    rewrite (decode_cons_silent _ _ _ _ (utf8_step_lead3 b (0xE0 + cp / 4096) ltac:(nlia))).
    assert (Hlow : N.land (224 + cp / 4096) 0xF = cp / 4096).
    { change 0xF with (N.ones 4). rewrite land_low. change (2 ^ 4) with 16. nlia. }
    rewrite Hlow.
    rewrite (decode_cons_silent _ (128 + (cp / 64) mod 64)
               (Build_TextDecoder (cp / 64) 1 2 0x80 0xBF b)).
    2:{ rewrite utf8_step_more; [| done | | done].
        - rewrite continuation by nlia. do 2 f_equal. nlia.
        - do 2 case_bool_decide; nlia. }
    apply (decode_cons_emit _ _ b).
    - rewrite utf8_step_last by (try done; nlia).
      rewrite continuation by nlia. do 3 f_equal. nlia.
    - done. }
  cbn [app].
  rewrite (decode_cons_silent _ _ _ _ (utf8_step_lead4 b (0xF0 + cp / 262144) ltac:(nlia))).
  assert (Hlow : N.land (240 + cp / 262144) 0x7 = cp / 262144).
  { change 0x7 with (N.ones 3). rewrite land_low. change (2 ^ 3) with 8. nlia. }
  rewrite Hlow.
  rewrite (decode_cons_silent _ (128 + (cp / 4096) mod 64)
             (Build_TextDecoder (cp / 4096) 1 3 0x80 0xBF b)).
  2:{ rewrite utf8_step_more; [| done | | done].
      - rewrite continuation by nlia. do 2 f_equal. nlia.
      - do 2 case_bool_decide; nlia. }
  rewrite (decode_cons_silent _ (128 + (cp / 64) mod 64)
             (Build_TextDecoder (cp / 64) 2 3 0x80 0xBF b)).
  2:{ rewrite utf8_step_more; [| done | nlia | done].
      rewrite continuation by nlia. do 2 f_equal. nlia. }
  apply (decode_cons_emit _ _ b).
  - rewrite utf8_step_last by (try done; nlia).
    rewrite continuation by nlia. do 3 f_equal. nlia.
  - done.
Qed.

Lemma utf16_units_pair c d :
  isLeadSurrogate c = true → isTrailSurrogate d = true →
  utf16_units (0x10000 + (c - 0xD800) * 0x400 + (d - 0xDC00)) = [c; d].
Proof.
  intros Hc Hd. pose proof (surrogate_pair_scalar c d Hc Hd) as Hcp.
  unfold isLeadSurrogate, isTrailSurrogate in *.
  apply andb_true_iff in Hc as [Hc1%N.leb_le Hc2%N.leb_le].
  apply andb_true_iff in Hd as [Hd1%N.leb_le Hd2%N.leb_le].
  unfold utf16_units. rewrite (proj2 (N.ltb_ge _ _)) by lia.
  change 0x3FF with (N.ones 10). rewrite land_low, shiftr_div.
  change (2 ^ 10) with 1024. f_equal; [| f_equal]; nlia.
Qed.

Lemma validUnits_cons c s : validUnits (c :: s) = true ↔ c < 0x10000 ∧ validUnits s = true.
Proof. unfold validUnits. simpl. by rewrite andb_true_iff, N.ltb_lt. Qed.

(** What the encoder makes of a well-formed string the decoder reads
    back as that string, whatever bytes follow. *)
Lemma decode_encode (n : nat) :
  ∀ s b rest,
    (length s ≤ n)%nat →
    isWellFormed s = true →
    validUnits s = true →
    (b = false → head s ≠ Some 0xFEFF) →
    decode (decoderAfter b) (TextEncoder_encode s ++ rest)
    = let '(d, t) := decode (decoderAfter (match s with [] => b | _ => true end)) rest in
      (d, s ++ t).
Proof.
  induction n as [|n IH]; intros [|c s] b rest Hlen Hwf Hunits Hbom;
    try (simpl in Hlen; lia);
    try (simpl; by destruct (decode (decoderAfter b) rest)).
  simpl in Hlen. apply validUnits_cons in Hunits as [Hc Hunits].
  cbn [TextEncoder_encode]. cbn [isWellFormed] in Hwf.
  destruct (isLeadSurrogate c) eqn:Hlead.
  - destruct s as [|d s]; [done |].
    apply andb_true_iff in Hwf as [Htrail Hwf]. cbv iota. rewrite Htrail.
    apply validUnits_cons in Hunits as [Hd Hunits].
    pose proof (surrogate_pair_scalar c d Hlead Htrail) as Hcp.
    rewrite <- app_assoc, decode_scalar; [| lia | lia | lia].
    rewrite (IH s true rest); [| simpl in Hlen; lia | done | done | done].
    rewrite utf16_units_pair by done.
    assert (Hs : decoderAfter match s with [] => true | _ :: _ => true end = decoderAfter true)
      by by destruct s.
    rewrite Hs. by destruct (decode (decoderAfter true) rest).
  - apply andb_true_iff in Hwf as [Htrail%negb_true_iff Hwf]. cbv iota. rewrite Htrail.
    assert (Hnot : ¬ (0xD800 ≤ c ≤ 0xDFFF)).
    { unfold isLeadSurrogate, isTrailSurrogate in *.
      apply andb_false_iff in Hlead, Htrail. rewrite !N.leb_gt in Hlead, Htrail. lia. }
    rewrite <- app_assoc, decode_scalar; [| lia | done |].
    2:{ intros Hb ->. by apply (Hbom Hb). }
    rewrite (IH s true rest); [| lia | done | done | done].
    assert (Hs : decoderAfter match s with [] => true | _ :: _ => true end = decoderAfter true)
      by by destruct s.
    rewrite Hs. unfold utf16_units. rewrite (proj2 (N.ltb_lt _ _)) by done.
    by destruct (decode (decoderAfter true) rest).
Qed.

Lemma isWellFormed_app (n : nat) :
  ∀ s t, (length s ≤ n)%nat → isWellFormed s = true → isWellFormed (s ++ t) = isWellFormed t.
Proof.
  induction n as [|n IH]; intros [|c s] t Hlen Hwf; try done; try (simpl in Hlen; lia).
  simpl in *. destruct (isLeadSurrogate c).
  - destruct s as [|d s]; [done |]. simpl.
    apply andb_true_iff in Hwf as [-> Hwf]. simpl.
    apply IH; [simpl in Hlen; lia | done].
  - apply andb_true_iff in Hwf as [-> Hwf]. simpl. apply IH; [lia | done].
Qed.

Lemma lineText_app s t : lineText s → lineText t → lineText (s ++ t).
Proof.
  intros [Hs1 Hs2] [Ht1 Ht2]. split; [| by apply Forall_app].
  by rewrite (isWellFormed_app (length s)).
Qed.

(** Units below U+0080 other than the line feed. *)
Lemma lineText_ascii s :
  forallb (fun c => (c <? 0x80) && negb (c =? 10)) s = true → lineText s.
Proof.
  intros H%Forall_forallb. split.
  - rewrite <- (app_nil_r s). rewrite isWellFormed_plain_app; [done |].
    eapply Forall_impl; [exact H |]. intros c Hc. simpl in Hc.
    apply andb_true_iff in Hc as [Hc%N.ltb_lt _].
    unfold isLeadSurrogate, isTrailSurrogate.
    split; apply andb_false_iff; left; apply N.leb_gt; lia.
  - eapply Forall_impl; [exact H |]. intros c Hc. simpl in Hc.
    apply andb_true_iff in Hc as [Hc%N.ltb_lt Hne%negb_true_iff]. apply N.eqb_neq in Hne.
    split; [lia | done].
Qed.

Lemma JsValue_nested_ind (P : JsValue → Prop) :
  P JsUndefined → P JsNull → (∀ b, P (JsBoolean b)) → (∀ n, P (JsNumber n)) → P JsNaN →
  (∀ s, P (JsStr s)) →
  (∀ items, Forall P items → P (JsArray items)) →
  (∀ ctor props, Forall (fun kx => P kx.2) props → P (JsObject ctor props)) →
  ∀ v, P v.
Proof.
  intros Hu Hn Hb Hz Hnan Hs Ha Ho. fix IH 1.
  intros [| | b | n | | s | items | ctor props].
  - exact Hu.
  - exact Hn.
  - apply Hb.
  - apply Hz.
  - exact Hnan.
  - apply Hs.
  - apply Ha. induction items as [|x items IHitems]; constructor; [apply IH | exact IHitems].
  - apply Ho. induction props as [|[k x] props IHprops]; constructor;
      [apply IH | exact IHprops].
Qed.

Lemma lineText_plain s : Forall (fun c => c < 0x80 ∧ c ≠ 10) s → lineText s.
Proof.
  intros H. split.
  - rewrite <- (app_nil_r s). rewrite isWellFormed_plain_app; [done |].
    eapply Forall_impl; [exact H |]. intros c [Hc _].
    unfold isLeadSurrogate, isTrailSurrogate.
    split; apply andb_false_iff; left; apply N.leb_gt; lia.
  - eapply Forall_impl; [exact H |]. intros c [Hc Hne]. split; [lia | done].
Qed.

Lemma hexDigit_plain d : d < 16 → hexDigit d < 0x80 ∧ hexDigit d ≠ 10.
Proof.
  intros Hd. unfold hexDigit.
  destruct (d <? 10) eqn:E; [apply N.ltb_lt in E | apply N.ltb_ge in E]; lia.
Qed.

Lemma unicodeEscape_lineText c : lineText (unicodeEscape c).
Proof.
  unfold unicodeEscape. apply lineText_app; [by apply lineText_ascii |].
  apply lineText_plain. rewrite !Forall_cons.
  repeat (split; [apply hexDigit_plain; nlia |]). done.
Qed.

Lemma lineText_cons_plain c s :
  c < 0x10000 → c ≠ 10 → isLeadSurrogate c = false → isTrailSurrogate c = false →
  lineText s → lineText (c :: s).
Proof.
  intros Hc Hne Hlead Htrail [Hwf Hall]. split; [| by constructor].
  simpl. by rewrite Hlead, Htrail.
Qed.

Lemma quoteBody_lineText (n : nat) :
  ∀ s, (length s ≤ n)%nat → validUnits s = true → lineText (quoteBody s).
Proof.
  induction n as [|n IH]; intros [|c s] Hlen Hunits; try (simpl in Hlen; lia);
    try (by apply lineText_ascii).
  simpl in Hlen. apply validUnits_cons in Hunits as [Hc Hunits].
  assert (Hs : lineText (quoteBody s)) by (apply IH; [lia | done]).
  cbn [quoteBody].
  repeat (case_bool_decide; [apply lineText_app; [by apply lineText_ascii | done] |]).
  destruct (c <? 32) eqn:H32; [apply N.ltb_lt in H32 | apply N.ltb_ge in H32].
  { apply lineText_app; [apply unicodeEscape_lineText | done]. }
  destruct (isLeadSurrogate c) eqn:Hlead.
  { destruct s as [|d s']; [apply unicodeEscape_lineText |].
    destruct (isTrailSurrogate d) eqn:Htrail.
    - apply validUnits_cons in Hunits as [Hd Hunits].
      assert (Hs' : lineText (quoteBody s')) by (apply IH; [simpl in Hlen; lia | done]).
      destruct Hs' as [Hwf Hall]. split.
      + simpl. by rewrite Hlead, Htrail.
      + unfold isLeadSurrogate, isTrailSurrogate in *.
        apply andb_true_iff in Hlead as [?%N.leb_le ?%N.leb_le].
        apply andb_true_iff in Htrail as [?%N.leb_le ?%N.leb_le].
        constructor; [split; lia |]. constructor; [split; lia | done].
    - apply lineText_app; [apply unicodeEscape_lineText | done]. }
  destruct (isTrailSurrogate c) eqn:Htrail.
  { apply lineText_app; [apply unicodeEscape_lineText | done]. }
  apply lineText_cons_plain; try done.
Qed.

Lemma quoteJSONString_lineText s : validUnits s = true → lineText (quoteJSONString s).
Proof.
  intros Hs. unfold quoteJSONString.
  apply lineText_app; [by apply lineText_ascii |].
  apply lineText_app; [by apply (quoteBody_lineText (length s)) | by apply lineText_ascii].
Qed.

Lemma digits_plain d :
  Forall (fun c => c < 0x80 ∧ c ≠ 10) (js (NilEmpty.string_of_uint d)).
Proof.
  induction d; simpl; [done | ..]; (constructor; [split; [done | done] | exact IHd]).
Qed.

Lemma N_toString_lineText n : lineText (N_toString n).
Proof.
  unfold N_toString, NilZero.string_of_uint. apply lineText_plain.
  destruct (N.to_uint n); try apply digits_plain.
  by repeat constructor.
Qed.

Lemma Z_toString_lineText z : lineText (Z_toString z).
Proof.
  destruct z; unfold Z_toString; try apply N_toString_lineText.
  apply lineText_app; [by apply lineText_ascii | apply N_toString_lineText].
Qed.

Lemma joinComma_lineText parts : Forall lineText parts → lineText (joinComma parts).
Proof.
  induction parts as [|p parts IH]; [intros _; by apply lineText_ascii |].
  intros [Hp Hparts]%Forall_cons. destruct parts as [|q parts]; [done |].
  change (joinComma (p :: q :: parts)) with (p ++ js "," ++ joinComma (q :: parts)).
  apply lineText_app; [done |]. apply lineText_app; [by apply lineText_ascii | by apply IH].
Qed.

(** What [JSON.stringify] returns is well formed and has no line feed. *)
Lemma JSON_stringify_lineText v :
  validValue v = true → lineText (templateHole (JSON_stringify v)).
Proof.
  induction v as [| | b | n | | s | items IH | ctor props IH] using JsValue_nested_ind;
    intros Hvalid; try (by apply lineText_ascii).
  - destruct b; by apply lineText_ascii.
  - apply Z_toString_lineText.
  - by apply quoteJSONString_lineText.
  - cbn [JSON_stringify templateHole default].
    apply lineText_app; [by apply lineText_ascii |].
    apply lineText_app; [| by apply lineText_ascii].
    apply joinComma_lineText. apply Forall_fmap.
    cbn [validValue] in Hvalid. apply Forall_forallb in Hvalid.
    induction items as [|x items IHitems]; [done |].
    apply Forall_cons in IH as [Hx IH]. apply Forall_cons in Hvalid as [Hvx Hvalid].
    constructor; [| by apply IHitems].
    simpl. specialize (Hx Hvx).
    destruct (JSON_stringify x); [done | by apply lineText_ascii].
  - cbn [JSON_stringify templateHole default].
    apply lineText_app; [by apply lineText_ascii |].
    apply lineText_app; [| by apply lineText_ascii].
    apply joinComma_lineText.
    cbn [validValue] in Hvalid. apply Forall_forallb in Hvalid.
    induction props as [|[k x] props IHprops]; [done |].
    apply Forall_cons in IH as [Hx IH]. apply Forall_cons in Hvalid as [Hvx Hvalid].
    simpl in Hvx, Hx. apply andb_true_iff in Hvx as [Hk Hvx].
    specialize (Hx Hvx).
    destruct (JSON_stringify x) as [t|]; [| by apply IHprops].
    constructor; [| by apply IHprops].
    apply lineText_app; [by apply quoteJSONString_lineText |].
    apply lineText_app; [by apply lineText_ascii | done].
Qed.

Lemma lineText_wire t : lineText t → isWellFormed t = true ∧ validUnits t = true.
Proof.
  intros [Hwf Hall]. split; [done |]. unfold validUnits. apply forallb_forall.
  intros c Hc%list_elem_of_In. rewrite Forall_forall in Hall.
  apply N.ltb_lt. by apply Hall.
Qed.

(** A line and the line feeds that close it, as the encoder sends them
    and the decoder returns them. *)
Lemma decode_encode_terminated b line lfs rest :
  lineText line → Forall (fun c => c = 10) lfs → lfs ≠ [] →
  (b = false → head line ≠ Some 0xFEFF) →
  decode (decoderAfter b) (TextEncoder_encode (line ++ lfs) ++ rest)
  = let '(d, t) := decode (decoderAfter true) rest in (d, (line ++ lfs) ++ t).
Proof.
  intros Hline Hlfs Hne Hbom.
  destruct (lineText_wire line Hline) as [Hwf Hunits].
  assert (Hlfs_wf : isWellFormed lfs = true ∧ validUnits lfs = true).
  { clear Hne. induction lfs as [|c lfs IH]; [done |].
    apply Forall_cons in Hlfs as [-> Hlfs]. destruct (IH Hlfs) as [IH1 IH2].
    split; [exact IH1 | exact IH2]. }
  rewrite (decode_encode (length (line ++ lfs))); [| done | | |].
  - destruct line; [by destruct lfs | done].
  - rewrite (isWellFormed_app (length line)) by done. apply Hlfs_wf.
  - unfold validUnits in *. rewrite forallb_app, Hunits. apply Hlfs_wf.
  - intros Hb. destruct line as [|c line]; [| by apply Hbom].
    destruct lfs as [|c lfs]; [done |]. apply Forall_cons in Hlfs as [-> _]. done.
Qed.

Lemma decode_nil d : decode d [] = (d, []).
Proof. done. Qed.

(** The buffers of a response, one per entry: each line with its line
    feeds. *)
Lemma decode_frames (frames : list (jsstring * jsstring)) :
  Forall (fun f => lineText f.1 ∧ Forall (fun c => c = 10) f.2 ∧ f.2 ≠ []
                   ∧ head f.1 ≠ Some 0xFEFF) frames →
  ∀ b, decode (decoderAfter b)
         (mjoin ((fun f => TextEncoder_encode (f.1 ++ f.2)) <$> frames))
       = (decoderAfter (match frames with [] => b | _ => true end),
          mjoin ((fun f => f.1 ++ f.2) <$> frames)).
Proof.
  induction frames as [|[line lfs] frames IH]; intros Hall b; [done |].
  apply Forall_cons in Hall as [(Hline & Hlfs & Hne & Hbom) Hall]. simpl in Hline, Hlfs, Hne, Hbom.
  rewrite !fmap_cons. cbn [fst snd].
  change (mjoin (?x :: ?l)) with (x ++ mjoin l).
  rewrite decode_encode_terminated by done.
  rewrite (IH Hall true). by destruct frames.
Qed.

Lemma split_lf_lines (lines : list jsstring) (rest : jsstring) :
  Forall (fun line => 10 ∉ line) lines →
  split_lf (mjoin ((fun line => line ++ [10]) <$> lines) ++ rest) = lines ++ split_lf rest.
Proof.
  induction lines as [|line lines IH]; [done |].
  intros [Hline Hlines]%Forall_cons. rewrite fmap_cons.
  change (mjoin (?x :: ?l)) with (x ++ mjoin l).
  rewrite <- !app_assoc. change ([10] ++ ?x) with (10 :: x).
  rewrite split_lf_line by done. by rewrite IH.
Qed.

Lemma lineText_no_lf t : lineText t → 10 ∉ t.
Proof.
  intros [_ Hall] Hin. rewrite Forall_forall in Hall. by destruct (Hall 10 Hin).
Qed.

Lemma N_toString_nonempty n : N_toString n ≠ [].
Proof. unfold N_toString, NilZero.string_of_uint. by destruct (N.to_uint n). Qed.

Lemma JSON_stringify_nonempty v : templateHole (JSON_stringify v) ≠ [].
Proof.
  destruct v as [| | [|] | [| |] | | s | items | ctor props]; try done;
    try apply N_toString_nonempty.
Qed.

(** The lines of a run of data frames, met by the hook. *)
Lemma processLines_data_frames JSON_parse (clock : nat → N)
    (sent : list (JsValue * StreamChunk)) :
  Forall (fun vc => templateHole (JSON_stringify vc.1) ≠ js "{}"
                    ∧ JSON_parse (templateHole (JSON_stringify vc.1)) = Some vc.2) sent →
  ∀ k st,
    processLines JSON_parse
      (imap (fun i line => (clock (k + i)%nat, line))
         (sent ≫= (fun vc => [js "data: " ++ templateHole (JSON_stringify vc.1); []])))
      st
    = processStreamChunks (imap (fun i vc => (clock (k + 2 * i)%nat, vc.2)) sent) st.
Proof.
  induction sent as [|[v chunk] sent IH]; intros Hall k st; [done |].
  apply Forall_cons in Hall as [[Hne Hparse] Hall]. simpl in Hne, Hparse.
  cbn [mbind list_bind app imap processLines processStreamChunks foldl fst snd].
  rewrite Nat.add_0_r.
  assert (Hdata : processLine JSON_parse (clock k)
                    (js "data: " ++ templateHole (JSON_stringify v)) st
                  = processStreamChunk (clock k) chunk st).
  { rewrite processLine_dataChunk, dataChunk_data_line.
    rewrite (bool_decide_eq_false_2 _ (JSON_stringify_nonempty v)).
    rewrite (bool_decide_eq_false_2 _ Hne). cbn [orb]. by rewrite Hparse. }
  change (2 * 0)%nat with 0%nat. rewrite Nat.add_0_r, Hdata.
  unfold compose. cbn [fst snd].
  change (processLine JSON_parse (clock (k + 1)%nat) [] ?s) with s.
  specialize (IH Hall (k + 2)%nat (processStreamChunk (clock k) chunk st)).
  unfold processLines, processStreamChunks in IH.
  rewrite (imap_ext _ (fun i line => (clock (k + 2 + i)%nat, line))).
  2:{ intros i line _. simpl. do 2 f_equal. lia. }
  rewrite IH. f_equal. apply imap_ext. intros i vc _. simpl. do 2 f_equal. lia.
Qed.

Lemma split_lf_lfs (lfs : jsstring) (rest : jsstring) :
  Forall (fun c => c = 10) lfs →
  split_lf (lfs ++ rest) = replicate (length lfs) [] ++ split_lf rest.
Proof.
  induction lfs as [|c lfs IH]; [done |].
  intros [-> Hlfs]%Forall_cons. simpl. by rewrite IH.
Qed.

(** The lines a run of frames is split into: each line, and an empty
    line for every line feed after the first. *)
Lemma split_lf_frames (frames : list (jsstring * jsstring)) (rest : jsstring) :
  Forall (fun f => (10 ∉ f.1) ∧ Forall (fun c => c = 10) f.2 ∧ f.2 ≠ []) frames →
  split_lf (mjoin ((fun f => f.1 ++ f.2) <$> frames) ++ rest)
  = (frames ≫= (fun f => f.1 :: replicate (length f.2 - 1) [])) ++ split_lf rest.
Proof.
  induction frames as [|[line lfs] frames IH]; [done |].
  intros [(Hline & Hlfs & Hne) Hall]%Forall_cons. simpl in Hline, Hlfs, Hne.
  rewrite fmap_cons. change (mjoin (?x :: ?l)) with (x ++ mjoin l).
  cbn [mbind list_bind fst snd].
  destruct lfs as [|c lfs]; [done |]. apply Forall_cons in Hlfs as [-> Hlfs].
  rewrite <- !app_assoc. change ((10 :: lfs) ++ ?x) with (10 :: lfs ++ x).
  rewrite split_lf_line by done. rewrite split_lf_lfs by done.
  rewrite (IH Hall). simpl. by rewrite Nat.sub_0_r.
Qed.

Lemma processLine_data JSON_parse now json chunk st :
  json ≠ [] → json ≠ js "{}" → JSON_parse json = Some chunk →
  processLine JSON_parse now (js "data: " ++ json) st = processStreamChunk now chunk st.
Proof.
  intros Hne Hobj Hparse. rewrite processLine_dataChunk, dataChunk_data_line.
  rewrite (bool_decide_eq_false_2 _ Hne), (bool_decide_eq_false_2 _ Hobj).
  cbn [orb]. by rewrite Hparse.
Qed.

Lemma literal_frame (line lfs : jsstring) :
  forallb (fun c => (c <? 0x80) && negb (c =? 10)) line = true →
  forallb (N.eqb 10) lfs = true → lfs ≠ [] →
  lineText line ∧ Forall (fun c => c = 10) lfs ∧ lfs ≠ [] ∧ head line ≠ Some 0xFEFF.
Proof.
  intros Hline Hlfs Hne. split; [by apply lineText_ascii |]. split; [| split; [done |]].
  - apply Forall_forallb in Hlfs. eapply Forall_impl; [exact Hlfs |].
    intros c Hc. symmetry. by apply N.eqb_eq.
  - destruct line as [|c line]; [done |]. simpl in Hline.
    apply andb_true_iff in Hline as [[Hc%N.ltb_lt _]%andb_true_iff _].
    intros [= ->]. lia.
Qed.

Lemma GET_queue_completed threadIdParam chunks :
  queue (GET threadIdParam chunks Completed)
  = (fun f : jsstring * jsstring => TextEncoder_encode (f.1 ++ f.2))
    <$> ([(js ": connected", [10; 10])]
         ++ ((fun v => (js "data: " ++ templateHole (JSON_stringify v), [10; 10])) <$> chunks)
         ++ [(js "data: " ++ templateHole (JSON_stringify (obj [("type", JsStr (js "done"))])),
              [10; 10]);
             (js "event: done", [10]);
             (js "data: {}", [10; 10])]).
Proof.
  unfold GET. cbn [close queue enqueue]. rewrite send_queue, foldl_send_queue.
  cbn [queue enqueue]. rewrite !fmap_app, <- list_fmap_compose, <- !app_assoc.
  f_equal.
Qed.

(** The body of a request drained to the end, read by the hook: the
    state is the one that feeding the hook the chunks directly leaves,
    closed by the final reset. *)
Lemma route_to_hook (JSON_parse : jsstring → option StreamChunk) (clock : nat → N)
    (old : list MessageResponse) (threadIdParam : JsValue)
    (sent : list (JsValue * StreamChunk)) (pieces : list bytes) :
  Forall (fun vc => validValue vc.1 = true
                    ∧ templateHole (JSON_stringify vc.1) ≠ js "{}"
                    ∧ JSON_parse (templateHole (JSON_stringify vc.1)) = Some vc.2) sent →
  JSON_parse (templateHole (JSON_stringify (obj [("type", JsStr (js "done"))])))
  = Some doneChunk →
  mjoin pieces = mjoin (queue (GET threadIdParam (fst <$> sent) Completed)) →
  handleStreamResponse JSON_parse clock old pieces BodyDone
  = endStream
      (processStreamChunks (imap (fun i vc => (clock (2 + 2 * i)%nat, vc.2)) sent)
         (startStream old)).
Proof.
  intros Hsent Hdone Hpieces.
  unfold handleStreamResponse.
  rewrite readLoop_split_invariance by apply not_elem_of_nil.
  rewrite Hpieces, GET_queue_completed.
  set (frames := [(js ": connected", [10; 10])] ++ _ ++ _).
  assert (Hframes : Forall (fun f => lineText f.1 ∧ Forall (fun c => c = 10) f.2 ∧ f.2 ≠ []
                                     ∧ head f.1 ≠ Some 0xFEFF) frames).
  { subst frames. rewrite !Forall_app. split; [| split].
    - apply Forall_singleton. by apply literal_frame.
    - apply Forall_fmap, Forall_fmap. eapply Forall_impl; [exact Hsent |].
      intros [v chunk] (Hvalid & _). cbn [fst snd] in *.
      destruct (literal_frame (js "data: ") [10; 10]) as (Hdata & Hlfs & Hne & _);
        [done | done | done |].
      split; [| done].
      apply lineText_app; [done | by apply JSON_stringify_lineText].
    - rewrite !Forall_cons. repeat (split; [by apply literal_frame |]). done. }
  pose proof (decode_frames frames Hframes false) as Hdecode.
  assert (Hb : decoderAfter match frames with [] => false | _ :: _ => true end
               = decoderAfter true) by done.
  rewrite Hb in Hdecode. clear Hb.
  assert (Hsplit : split_lf (mjoin ((fun f => f.1 ++ f.2) <$> frames))
                   = (frames ≫= (fun f => f.1 :: replicate (length f.2 - 1) [])) ++ [[]]).
  { rewrite <- (app_nil_r (mjoin _)). apply split_lf_frames.
    eapply Forall_impl; [exact Hframes |].
    intros f (Hline & Hlfs & Hne & _).
    split; [apply lineText_no_lf; exact Hline | split; assumption]. }
  assert (Hlines : frames ≫= (fun f => f.1 :: replicate (length f.2 - 1) [])
                   = [js ": connected"; []]
                     ++ (sent ≫= (fun vc => [js "data: " ++ templateHole (JSON_stringify vc.1);
                                             []]))
                     ++ [js "data: "
                         ++ templateHole (JSON_stringify (obj [("type", JsStr (js "done"))]));
                         []; js "event: done"; js "data: {}"; []]).
  { subst frames. rewrite !bind_app. f_equal. f_equal.
    clear. induction sent as [|[v chunk] sent IH]; [done |].
    rewrite !fmap_cons. cbn [mbind list_bind fst snd].
    change ([js "data: " ++ templateHole (JSON_stringify v); []] ++ ?x)
      with ((js "data: " ++ templateHole (JSON_stringify v)) :: [] :: x).
    change (((js "data: " ++ templateHole (JSON_stringify v))
             :: replicate (length [10; 10] - 1) []) ++ ?x)
      with ((js "data: " ++ templateHole (JSON_stringify v)) :: [] :: x).
    f_equal. f_equal. exact IH. }
  rewrite Hlines in Hsplit. clear Hlines.
  cbn [readLoop].
  rewrite (readLines_segments newReader _ _ _ _ [] Hdecode Hsplit).
  set (body := sent ≫= _).
  rewrite !imap_app. unfold processLines. rewrite !foldl_app.
  change (foldl _ (startStream old)
            (imap (fun i line => (clock (0 + i)%nat, line)) [js ": connected"; []]))
    with (startStream old).
  pose proof (processLines_data_frames JSON_parse clock sent) as Hbody.
  unfold processLines in Hbody.
  rewrite (imap_ext _ (fun i line => (clock (2 + i)%nat, line)) body) by done.
  rewrite Hbody.
  2:{ eapply Forall_impl; [exact Hsent |]. intros vc (_ & ? & ?). split; assumption. }
  set (st := processStreamChunks _ _).
  cbn [imap foldl fst snd length app]. unfold compose.
  rewrite processLine_data with (chunk := doneChunk); [done | done | done | exact Hdone].
Qed.

(** ** What the classifier never yields *)

Lemma classifyContentItem_chunks now aiMessage item chunk :
  chunk ∈ classifyContentItem now aiMessage item →
  (∃ content, chunk = tokenChunk content (get "id" aiMessage) ∧ truthy content = true)
  ∨ (∃ toolCall, chunk = toolCallChunk toolCall (get "id" aiMessage)).
Proof.
  unfold classifyContentItem.
  destruct (typeof_string item && truthy item) eqn:Hstr.
  { apply andb_true_iff in Hstr as [_ Ht].
    intros ->%list_elem_of_singleton. left. eauto. }
  destruct (truthy item && typeof_object item); [| by intros ?%elem_of_nil].
  intros [Hin | Hin]%elem_of_app.
  - destruct (has "text" item && truthy (get "text" item)) eqn:Htext;
      [| by apply elem_of_nil in Hin].
    apply andb_true_iff in Htext as [_ Ht].
    apply list_elem_of_singleton in Hin as ->. left. eauto.
  - destruct (has "functionCall" item && truthy (get "functionCall" item));
      [| by apply elem_of_nil in Hin].
    apply list_elem_of_singleton in Hin as ->. right. eauto.
Qed.

Lemma classifyContent_chunks now aiMessage chunk :
  chunk ∈ classifyContent now aiMessage →
  (∃ content, chunk = tokenChunk content (get "id" aiMessage) ∧ truthy content = true)
  ∨ (∃ toolCall, chunk = toolCallChunk toolCall (get "id" aiMessage)).
Proof.
  unfold classifyContent.
  destruct (typeof_string (get "content" aiMessage) && truthy (get "content" aiMessage))
    eqn:Hstr.
  { apply andb_true_iff in Hstr as [_ Ht].
    intros ->%list_elem_of_singleton. left. eauto. }
  destruct (get "content" aiMessage) as [| | | | | |items|]; try by intros ?%elem_of_nil.
  intros (l & Hin & Hl)%list_elem_of_join.
  apply elem_of_lookup_imap in Hl as (i & item & -> & _).
  by apply classifyContentItem_chunks in Hin.
Qed.

(** X14: whatever the engine yields, every chunk of the classifier comes
    from an event tagged ["messages"] whose payload starts with a truthy
    message, carries that message's id as its [messageId], and is of one
    of three kinds: a token with truthy (so non-empty) content, from an
    assistant delta; a tool call, from an assistant delta; or a tool
    result with a non-empty name and a content that is a string (or
    [undefined], when the tool message had no content to serialise), from
    a tool message.  The classifier never yields a [done] or an [error]
    chunk and never an empty token. *)
Theorem tokenGenerator_chunks (clock : nat → nat → N) (iterable : list JsValue)
    (chunk : JsValue) :
  chunk ∈ tokenGenerator clock iterable →
  ∃ message rest,
    JsArray [JsStr (js "messages"); JsArray (message :: rest)] ∈ iterable
    ∧ truthy message = true
    ∧ ((∃ content,
          chunk = tokenChunk content (get "id" message) ∧ truthy content = true
          ∧ constructorName message = JsStr (js "AIMessageChunk"))
       ∨ (∃ toolCall,
            chunk = toolCallChunk toolCall (get "id" message)
            ∧ constructorName message = JsStr (js "AIMessageChunk"))
       ∨ (∃ name content,
            chunk = toolResultChunk name content (get "id" message)
            ∧ truthy name = true
            ∧ (typeof_string content = true ∨ content = JsUndefined)
            ∧ constructorName message = JsStr (js "ToolMessage"))).
Proof.
  unfold tokenGenerator. intros (l & Hin & Hl)%list_elem_of_join.
  apply elem_of_lookup_imap in Hl as (k & event & -> & Hevent).
  assert (Hne : classify (clock k) event ≠ []) by (intros Heq; rewrite Heq in Hin; by apply elem_of_nil in Hin).
  apply classify_nonempty_inv in Hne as (message & rest & -> & Htruthy).
  exists message, rest. split; [by eapply list_elem_of_lookup_2 |]. split; [done |].
  revert Hin. unfold classify. cbn [truthy negb].
  change (strictEqStr (JsStr (js "messages")) "messages") with true. cbv iota.
  rewrite Htruthy. cbn [negb].
  intros [Hin | Hin]%elem_of_app.
  - destruct (strictEqStr (constructorName message) "AIMessageChunk") eqn:Hkind;
      [| by apply elem_of_nil in Hin].
    apply strictEqStr_true in Hkind.
    apply elem_of_app in Hin as [Hin | Hin].
    + apply classifyContent_chunks in Hin as [(content & -> & Ht) | (toolCall & ->)].
      * left. eauto.
      * right. left. eauto.
    + right. left. unfold classifyToolCalls in Hin.
      destruct (get "tool_calls" message) as [| | | | | |items|];
        try by apply elem_of_nil in Hin.
      destruct items as [|tc tcs]; [by apply elem_of_nil in Hin |].
      apply list_elem_of_fmap in Hin as (toolCall & -> & _). eauto.
  - destruct (strictEqStr (constructorName message) "ToolMessage") eqn:Hkind;
      [| by apply elem_of_nil in Hin].
    apply strictEqStr_true in Hkind.
    apply list_elem_of_singleton in Hin as ->. right. right.
    eexists _, _. split; [reflexivity |]. split; [| split; [| done]].
    + unfold js_or. by destruct (truthy (get "name" message)) eqn:Hname.
    + destruct (typeof_string (get "content" message)) eqn:Hstr; [by left |].
      unfold JSON_stringify_value.
      destruct (JSON_stringify (get "content" message)); [by left | by right].
Qed.

(** ** The message-level generator *)

Lemma truthy_id_or_now v now : truthy (js_or v (JsStr (N_toString now))) = true.
Proof.
  unfold js_or. destruct (truthy v) eqn:Hv; [done |]. simpl.
  apply negb_true_iff, bool_decide_eq_false_2, N_toString_nonempty.
Qed.

Lemma processAIMessage_result ToString now message m :
  processAIMessage ToString now message = Some m →
  ∃ data,
    m = obj [("type", JsStr (js "ai")); ("data", data)]
    ∧ truthy (get "id" data) = true
    ∧ ((hasToolCall message = true ∧ get "content" data = JsStr []
        ∧ get "tool_calls" data = js_or (get "tool_calls" message) JsUndefined)
       ∨ (hasToolCall message = false
          ∧ get "content" data = JsStr (contentText ToString message)
          ∧ trim (contentText ToString message) ≠ [])).
Proof.
  unfold processAIMessage. destruct (hasToolCall message) eqn:Htool.
  - intros [= <-]. eexists. split; [reflexivity |].
    split; [apply truthy_id_or_now |]. left. split; [done |]. split; [| done].
    unfold hasToolCall in Htool.
    by destruct (get "content" message).
  - case_bool_decide as Hblank; [done |]. intros [= <-].
    eexists. split; [reflexivity |]. split; [apply truthy_id_or_now |].
    right. done.
Qed.

(** X15: every message the message-level generator yields is an
    assistant message with a truthy id, made from an [AIMessageChunk] or
    [AIMessage] found under [agent.messages] of an event tagged
    ["updates"].  If the content of that message holds a function call,
    the content yielded is the empty string, whatever text stands beside
    the call; otherwise the content yielded is the message's text and has
    a character that is not white space. *)
Theorem generator_messages (ToString : JsValue → jsstring) (clock : nat → nat → N)
    (iterable : list JsValue) (m : JsValue) :
  m ∈ generator ToString clock iterable →
  ∃ chunkData message data,
    JsArray [JsStr (js "updates"); chunkData] ∈ iterable
    ∧ (get "messages" (get "agent" chunkData) = message
       ∨ ∃ items, get "messages" (get "agent" chunkData) = JsArray items ∧ message ∈ items)
    ∧ (constructorName message = JsStr (js "AIMessageChunk")
       ∨ constructorName message = JsStr (js "AIMessage"))
    ∧ m = obj [("type", JsStr (js "ai")); ("data", data)]
    ∧ truthy (get "id" data) = true
    ∧ ((hasToolCall message = true ∧ get "content" data = JsStr []
        ∧ get "tool_calls" data = js_or (get "tool_calls" message) JsUndefined)
       ∨ (hasToolCall message = false
          ∧ get "content" data = JsStr (contentText ToString message)
          ∧ trim (contentText ToString message) ≠ [])).
Proof.
  unfold generator. intros (l & Hin & Hl)%list_elem_of_join.
  apply elem_of_lookup_imap in Hl as (k & event & -> & Hevent).
  apply list_elem_of_lookup_2 in Hevent.
  revert Hin. unfold generate.
  destruct (negb (truthy event)); [by intros ?%elem_of_nil |].
  destruct event as [| | | | | |items|]; try by intros ?%elem_of_nil.
  destruct items as [|chunkType [|chunkData [|? ?]]]; try by intros ?%elem_of_nil.
  destruct (strictEqStr chunkType "updates") eqn:Hmode; [| by intros ?%elem_of_nil].
  apply strictEqStr_true in Hmode as ->. cbn [andb].
  destruct (truthy chunkData && typeof_object chunkData && negb (isArray chunkData));
    [| by intros ?%elem_of_nil].
  cbv zeta.
  destruct (has "agent" chunkData && truthy (get "agent" chunkData)
            && typeof_object (get "agent" chunkData)
            && negb (isArray (get "agent" chunkData))
            && has "messages" (get "agent" chunkData));
    [| by intros ?%elem_of_nil].
  intros (l & Hin & Hl)%list_elem_of_join.
  apply elem_of_lookup_imap in Hl as (i & message & -> & Hmessage).
  apply list_elem_of_lookup_2 in Hmessage.
  unfold generateMessage in Hin.
  destruct (negb (truthy message)); [by apply elem_of_nil in Hin |].
  destruct (strictEqStr (constructorName message) "AIMessageChunk"
            || strictEqStr (constructorName message) "AIMessage") eqn:Hkind;
    [| by apply elem_of_nil in Hin].
  cbn [negb] in Hin.
  destruct (processAIMessage ToString (clock k i) message) as [m'|] eqn:Hm;
    [| by apply elem_of_nil in Hin].
  apply list_elem_of_singleton in Hin as ->.
  destruct (processAIMessage_result _ _ _ _ Hm) as (data & -> & Hid & Hcontent).
  exists chunkData, message, data. split; [done |]. split.
  { destruct (get "messages" (get "agent" chunkData)) as [| | | | | |items|];
      try (left; by apply list_elem_of_singleton in Hmessage).
    right. eauto. }
  split; [| done].
  apply orb_true_iff in Hkind as [H | H]; apply strictEqStr_true in H; auto.
Qed.

(** X16: the two generators never answer the same event: an event that
    makes the token-level classifier yield a chunk makes the
    message-level generator yield nothing, and the other way round. *)
Theorem generators_disjoint (ToString : JsValue → jsstring) (now now' : nat → N)
    (event : JsValue) :
  classify now event = [] ∨ generate ToString now' event = [].
Proof.
  destruct (classify now event) as [|chunk chunks] eqn:Hclassify; [by left |]. right.
  assert (Hne : classify now event ≠ []) by by rewrite Hclassify.
  apply classify_nonempty_inv in Hne as (message & rest & -> & _).
  done.
Qed.

(** ** The request *)

Lemma processStreamChunks_keeps chunks st :
  keepsMessages (messages st) (messages (processStreamChunks chunks st)).
Proof.
  unfold processStreamChunks. revert st.
  induction chunks as [|[now chunk] chunks IH]; intros st; [apply keepsMessages_refl |].
  simpl. eapply keepsMessages_trans; [apply processStreamChunk_keeps | apply IH].
Qed.

Lemma processLine_keeps JSON_parse now line st :
  keepsMessages (messages st) (messages (processLine JSON_parse now line st)).
Proof.
  rewrite processLine_dataChunk. cbv zeta.
  assert (H : ∀ s (b : bool), messages (if b then endStream s else s) = messages s)
    by (by intros s []).
  rewrite !H. destruct (dataChunk JSON_parse line);
    [apply processStreamChunk_keeps | apply keepsMessages_refl].
Qed.

Lemma processLines_keeps JSON_parse lines st :
  keepsMessages (messages st) (messages (processLines JSON_parse lines st)).
Proof.
  unfold processLines. revert st.
  induction lines as [|[now line] lines IH]; intros st; [apply keepsMessages_refl |].
  simpl. eapply keepsMessages_trans; [apply processLine_keeps | apply IH].
Qed.

Lemma handleStreamResponse_keeps JSON_parse clock old values e :
  keepsMessages old (messages (handleStreamResponse JSON_parse clock old values e)).
Proof.
  unfold handleStreamResponse. rewrite readLoop_readAll.
  destruct (readAll newReader values) as [lines r].
  pose proof (processLines_keeps JSON_parse
                (imap (fun i line => (clock (0 + i)%nat, line)) lines) (startStream old)) as H.
  by destruct e.
Qed.

(** X17: a message sent without a thread does nothing.  With a thread,
    the user's message is appended to the cached list at once and stays
    where it was put, unchanged, whatever the response holds and however
    it ends; the messages cached before keep their places as well, and
    those that are not assistant messages are unchanged. *)
Theorem sendMessage_keeps_user_message (JSON_parse : jsstring → option StreamChunk)
    (clock : nat → N) (threadId : option jsstring) (now : N)
    (old : list MessageResponse) (text : jsstring) (values : list bytes) (e : BodyEnd) :
  (falsy threadId = true →
   sendMessage JSON_parse clock threadId now old text values e = None)
  ∧ (falsy threadId = false →
     ∃ st,
       sendMessage JSON_parse clock threadId now old text values e = Some st
       ∧ messages st !! length old = Some (humanMessage now text)
       ∧ keepsMessages old (messages st)).
Proof.
  unfold sendMessage. split; intros ->; [done |].
  eexists. split; [reflexivity |].
  pose proof (handleStreamResponse_keeps JSON_parse clock (old ++ [humanMessage now text])
                values e) as Hkeeps.
  split.
  - destruct (Hkeeps (length old) (humanMessage now text)) as (m' & Hm' & _ & _ & _ & _ & _ & _ & Hsame).
    { by rewrite lookup_app_r, Nat.sub_diag. }
    rewrite Hm'. f_equal. by apply Hsame.
  - eapply keepsMessages_trans; [apply keepsMessages_snoc | exact Hkeeps].
Qed.

(** ** The [tools] parameter through the query string *)

Lemma hexDigitUpper_no_sep d : 48 ≤ hexDigitUpper d ∧ hexDigitUpper d ≠ 61.
Proof. unfold hexDigitUpper. destruct (N.ltb_spec d 10); lia. Qed.

Lemma urlencodedKeeps_plain b :
  urlencodedKeeps b = true → b ≠ 35 ∧ b ≠ 38 ∧ b ≠ 61 ∧ b ≠ 43 ∧ b ≠ 37.
Proof.
  unfold urlencodedKeeps, inRange.
  rewrite !orb_true_iff, !andb_true_iff, !N.leb_le, !bool_decide_eq_true. lia.
Qed.

(** Neither [#] nor [&] nor [=] is written for a name or a value. *)
Lemma urlencodedByte_no_sep b :
  Forall (fun c => c ≠ 35 ∧ c ≠ 38 ∧ c ≠ 61) (urlencodedByte b).
Proof.
  unfold urlencodedByte. case_bool_decide.
  - apply Forall_singleton. lia.
  - destruct (urlencodedKeeps b) eqn:Hkeeps.
    + apply Forall_singleton. apply urlencodedKeeps_plain in Hkeeps. lia.
    + unfold percentEncode. rewrite !Forall_cons. split; [lia |].
      pose proof (hexDigitUpper_no_sep (b / 16)). pose proof (hexDigitUpper_no_sep (b mod 16)).
      split; [lia |]. split; [lia |]. apply Forall_nil_2.
Qed.

Lemma urlencodedSerialize_no_sep s :
  Forall (fun c => c ≠ 35 ∧ c ≠ 38 ∧ c ≠ 61) (urlencodedSerialize s).
Proof.
  unfold urlencodedSerialize. apply Forall_forall. intros c (b & Hc & _)%list_elem_of_bind.
  revert c Hc. apply Forall_forall, urlencodedByte_no_sep.
Qed.

Lemma hexValue_hexDigitUpper d : d < 16 → hexValue (hexDigitUpper d) = Some d.
Proof.
  intros Hd. unfold hexValue, hexDigitUpper, inRange.
  destruct (N.ltb_spec d 10).
  - rewrite (proj2 (N.leb_le 48 (48 + d))), (proj2 (N.leb_le (48 + d) 57)) by lia.
    cbn [andb]. f_equal. lia.
  - rewrite (proj2 (N.leb_gt (55 + d) 57)) by lia. rewrite andb_false_r.
    rewrite (proj2 (N.leb_le 65 (55 + d))), (proj2 (N.leb_le (55 + d) 70)) by lia.
    cbn [andb]. f_equal. lia.
Qed.

(** The parser reads back the byte the serialiser wrote. *)
Lemma percentDecode_urlencodedByte b rest :
  b < 256 →
  percentDecode (plusToSpace <$> (urlencodedByte b ++ rest))
  = b :: percentDecode (plusToSpace <$> rest).
Proof.
  intros Hb. unfold urlencodedByte. case_bool_decide as Hspace.
  - subst b. reflexivity.
  - destruct (urlencodedKeeps b) eqn:Hkeeps.
    + apply urlencodedKeeps_plain in Hkeeps as (_ & _ & _ & Hplus & Hpercent).
      cbn [app fmap list_fmap]. unfold plusToSpace at 1.
      rewrite bool_decide_eq_false_2 by done. cbn [percentDecode].
      by rewrite bool_decide_eq_false_2 by done.
    + unfold percentEncode. cbn [app]. rewrite !fmap_cons.
      pose proof (hexDigitUpper_no_sep (b / 16)) as [Hhi _].
      pose proof (hexDigitUpper_no_sep (b mod 16)) as [Hlo _].
      unfold plusToSpace at 1 2 3.
      rewrite (bool_decide_eq_false_2 (37 = 43)) by done.
      rewrite !bool_decide_eq_false_2 by lia.
      cbn [percentDecode]. rewrite bool_decide_eq_true_2 by done.
      rewrite !hexValue_hexDigitUpper by nlia. f_equal. nlia.
Qed.

Lemma percentDecode_urlencoded input :
  Forall (fun b => b < 256) input →
  percentDecode (plusToSpace <$> (input ≫= urlencodedByte)) = input.
Proof.
  induction 1 as [|b input Hb _ IH]; [done |].
  change ((b :: input) ≫= urlencodedByte) with (urlencodedByte b ++ (input ≫= urlencodedByte)).
  by rewrite percentDecode_urlencodedByte, IH.
Qed.

Lemma TextEncoder_encode_octets (n : nat) :
  ∀ s, (length s ≤ n)%nat → validUnits s = true →
       Forall (fun b => b < 256) (TextEncoder_encode s).
Proof.
  induction n as [|n IH]; intros [|c s] Hlen Hunits; try (simpl in Hlen; lia);
    try apply Forall_nil_2.
  simpl in Hlen. apply validUnits_cons in Hunits as [Hc Hunits].
  cbn [TextEncoder_encode]. destruct (isLeadSurrogate c) eqn:Hlead.
  - destruct s as [|d s]; [by apply utf8_bytes_octets |].
    apply validUnits_cons in Hunits as Hunits'. destruct Hunits' as [Hd Hunits'].
    simpl in Hlen. destruct (isTrailSurrogate d) eqn:Htrail.
    + apply Forall_app. split.
      * apply utf8_bytes_octets. pose proof (surrogate_pair_scalar c d Hlead Htrail). lia.
      * apply IH; [lia | done].
    + apply Forall_app. split; [by apply utf8_bytes_octets |].
      apply IH; [simpl; lia | done].
  - destruct (isTrailSurrogate c).
    + apply Forall_app. split; [by apply utf8_bytes_octets |]. apply IH; [lia | done].
    + apply Forall_app. split; [apply utf8_bytes_octets; lia |]. apply IH; [lia | done].
Qed.

Lemma utf8_decode_without_BOM_encode s :
  isWellFormed s = true → validUnits s = true →
  utf8_decode_without_BOM (TextEncoder_encode s) = s.
Proof.
  intros Hwf Hunits. unfold utf8_decode_without_BOM.
  pose proof (decode_encode (length s) s true [] (le_n _) Hwf Hunits) as Hdecode.
  rewrite app_nil_r in Hdecode. unfold decoderAfter in Hdecode at 1.
  rewrite Hdecode by done. cbn [decode].
  rewrite app_nil_r. by destruct s.
Qed.

Lemma urlencodedString_serialize s :
  isWellFormed s = true → validUnits s = true →
  urlencodedString (urlencodedSerialize s) = s.
Proof.
  intros Hwf Hunits. unfold urlencodedString, urlencodedSerialize.
  rewrite percentDecode_urlencoded by by apply (TextEncoder_encode_octets (length s)).
  by apply utf8_decode_without_BOM_encode.
Qed.

Lemma splitFirst_app sep name value :
  sep ∉ name → splitFirst sep (name ++ sep :: value) = (name, Some value).
Proof.
  induction name as [|c name IH]; intros Hsep.
  - simpl. by rewrite bool_decide_eq_true_2.
  - apply not_elem_of_cons in Hsep as [Hc Hsep]. simpl.
    rewrite bool_decide_eq_false_2 by done. by rewrite IH.
Qed.

Lemma splitFirst_absent sep s : sep ∉ s → splitFirst sep s = (s, None).
Proof.
  induction s as [|c s IH]; [done |]. intros [Hc Hs]%not_elem_of_cons. simpl.
  rewrite bool_decide_eq_false_2 by done. by rewrite IH.
Qed.

Lemma join_Forall (P : N → Prop) sep parts :
  Forall P sep → Forall (Forall P) parts → Forall P (join sep parts).
Proof.
  intros Hsep. induction 1 as [|part parts Hpart _ IH]; [apply Forall_nil_2 |].
  destruct parts as [|part' parts]; [done |].
  change (join sep (part :: part' :: parts)) with (part ++ sep ++ join sep (part' :: parts)).
  rewrite !Forall_app. done.
Qed.

(** The serialised list holds no [#]. *)
Lemma URLSearchParams_toString_no_fragment params :
  35 ∉ URLSearchParams_toString params.
Proof.
  assert (Hall : Forall (fun c => c ≠ 35) (URLSearchParams_toString params)).
  { unfold URLSearchParams_toString. apply join_Forall; [by apply Forall_singleton |].
    apply Forall_fmap, Forall_forall. intros p _. unfold compose. cbv beta.
    change (js "=") with [61]. rewrite !Forall_app. split; [| split].
    - eapply Forall_impl; [apply urlencodedSerialize_no_sep |]. by intros c (? & _).
    - by apply Forall_singleton.
    - eapply Forall_impl; [apply urlencodedSerialize_no_sep |]. by intros c (? & _). }
  rewrite Forall_forall in Hall. intros Hin. by apply (Hall 35 Hin).
Qed.

(** The query of the URL the hook requests is the serialised list,
    unless the stream URL has a [?] or a [#] of its own. *)
Lemma URL_query_streamRequestUrl baseUrl text threadId opts :
  (63 ∉ getStreamUrl baseUrl) → (35 ∉ getStreamUrl baseUrl) →
  URL_query (streamRequestUrl baseUrl text threadId opts)
  = URLSearchParams_toString (streamParams text threadId opts).
Proof.
  intros Hquery Hfragment. unfold URL_query, streamRequestUrl.
  change (js "?") with [63].
  rewrite (splitFirst_absent 35).
  - exact (f_equal (fun r => default [] r.2) (splitFirst_app 63 _ _ Hquery)).
  - intros [Hin | [Hin | Hin]%elem_of_app]%elem_of_app.
    + by apply Hfragment.
    + by apply list_elem_of_singleton in Hin.
    + by apply (URLSearchParams_toString_no_fragment _ Hin).
Qed.

(** Parsing a serialised list gives the pairs back, each name and value
    as the serialiser and the parser together leave it. *)
Lemma urlencodedParse_toString params :
  urlencodedParse (URLSearchParams_toString params)
  = (fun p => (urlencodedString (urlencodedSerialize p.1),
               urlencodedString (urlencodedSerialize p.2))) <$> params.
Proof.
  unfold urlencodedParse, URLSearchParams_toString.
  destruct (decide (params = [])) as [-> | Hparams]; [done |].
  change (js "&") with [38]. change (js "=") with [61].
  rewrite splitOn_join.
  - clear Hparams. induction params as [|p params IH]; [done |].
    rewrite !fmap_cons. rewrite filter_cons_True by by destruct (urlencodedSerialize p.1).
    rewrite fmap_cons, IH. f_equal.
    change ([61] ++ urlencodedSerialize p.2) with (61 :: urlencodedSerialize p.2).
    rewrite splitFirst_app; [done |].
    intros Hin. pose proof (urlencodedSerialize_no_sep p.1) as Hall.
    rewrite Forall_forall in Hall. by destruct (Hall 61 Hin) as (_ & _ & ?).
  - apply Forall_fmap, Forall_forall. intros p _. cbv beta.
    intros [Hin | [Hin | Hin]%elem_of_app]%elem_of_app.
    + pose proof (urlencodedSerialize_no_sep p.1) as Hall.
      rewrite Forall_forall in Hall. by destruct (Hall 38 Hin) as (_ & ? & _).
    + by apply list_elem_of_singleton in Hin.
    + pose proof (urlencodedSerialize_no_sep p.2) as Hall.
      rewrite Forall_forall in Hall. by destruct (Hall 38 Hin) as (_ & ? & _).
  - by destruct params.
Qed.

Lemma URLSearchParams_get_filter name name' params :
  name' ≠ name →
  URLSearchParams_get name (filter (fun q => q.1 ≠ name') params)
  = URLSearchParams_get name params.
Proof.
  intros Hne. induction params as [|p params IH]; [done |].
  destruct (decide (p.1 = name')) as [Hp | Hp].
  - rewrite filter_cons_False by (intros H; by apply H). simpl.
    rewrite bool_decide_eq_false_2 by congruence. exact IH.
  - rewrite filter_cons_True by done. simpl. by rewrite IH.
Qed.

Lemma URLSearchParams_get_set name name' value params :
  URLSearchParams_get name (URLSearchParams_set name' value params)
  = if bool_decide (name' = name) then Some value else URLSearchParams_get name params.
Proof.
  induction params as [|p params IH]; [done |]. cbn [URLSearchParams_set].
  destruct (decide (p.1 = name')) as [Hp | Hp].
  - rewrite (bool_decide_eq_true_2 (p.1 = name')) by done. cbn [URLSearchParams_get fst snd].
    destruct (decide (name' = name)) as [Hname | Hname].
    + by rewrite !bool_decide_eq_true_2.
    + rewrite !(bool_decide_eq_false_2 (name' = name)) by done.
      rewrite bool_decide_eq_false_2 by congruence.
      by apply URLSearchParams_get_filter.
  - rewrite (bool_decide_eq_false_2 (p.1 = name')) by done. cbn [URLSearchParams_get].
    rewrite IH. case_bool_decide; [| done]. subst name.
    by rewrite bool_decide_eq_false_2.
Qed.

Lemma URLSearchParams_set_names (P : jsstring → Prop) name value params :
  P name → Forall (fun p => P p.1) params →
  Forall (fun p => P p.1) (URLSearchParams_set name value params).
Proof.
  intros Hname. induction 1 as [|p params Hp Hparams IH].
  - by apply Forall_singleton.
  - cbn [URLSearchParams_set]. case_bool_decide.
    + apply Forall_cons. split; [done |].
      apply Forall_forall. intros q [_ Hq]%list_elem_of_filter.
      rewrite Forall_forall in Hparams. by apply Hparams.
    + by apply Forall_cons.
Qed.

Lemma URLSearchParams_get_fmap (f g : jsstring → jsstring) name params :
  f name = name → Forall (fun p => f p.1 = p.1) params →
  URLSearchParams_get name ((fun p => (f p.1, g p.2)) <$> params)
  = g <$> URLSearchParams_get name params.
Proof.
  intros Hname. induction 1 as [|p params Hp _ IH]; [done |].
  rewrite fmap_cons. cbn [URLSearchParams_get fst snd]. rewrite Hp, IH.
  by case_bool_decide.
Qed.

(** The names [handleStreamResponse] sets are ASCII alphanumerics, which
    the serialiser and the parser leave as they are. *)
Lemma streamParams_names text threadId opts :
  Forall (fun p => urlencodedString (urlencodedSerialize p.1) = p.1)
    (streamParams text threadId opts).
Proof.
  unfold streamParams. cbv zeta.
  repeat match goal with
         | |- Forall _ (URLSearchParams_set _ _ _) =>
             apply (URLSearchParams_set_names
                      (fun name => urlencodedString (urlencodedSerialize name) = name));
             [by vm_compute |]
         | |- Forall _ (if ?c then _ else _) => destruct c
         | |- Forall _ (match ?x with Some _ => _ | None => _ end) => destruct x as [[]|]
         | |- Forall _ (match ?x with Some _ => _ | None => _ end) => destruct x
         end;
    by repeat (apply Forall_cons; split; [by vm_compute |]).
Qed.

Lemma URLSearchParams_get_set_ne name name' value params :
  name' ≠ name →
  URLSearchParams_get name (URLSearchParams_set name' value params)
  = URLSearchParams_get name params.
Proof. intros Hne. by rewrite URLSearchParams_get_set, bool_decide_eq_false_2. Qed.

Lemma streamParams_tools text threadId opts :
  URLSearchParams_get (js "tools") (streamParams text threadId opts)
  = toolsQuery (opts ≫= o_tools).
Proof.
  unfold streamParams. cbv zeta.
  destruct (opts ≫= o_attachments) as [[|attachment rest]|];
    rewrite ?URLSearchParams_get_set_ne by done;
    (destruct (opts ≫= o_approveAllTools : option bool);
     rewrite ?URLSearchParams_get_set_ne by done;
     (destruct (falsy (opts ≫= o_allowTool));
      rewrite ?URLSearchParams_get_set_ne by done;
      (destruct (toolsQuery (opts ≫= o_tools));
       [by rewrite URLSearchParams_get_set, bool_decide_eq_true_2 |];
       destruct (falsy (opts ≫= o_provider));
       rewrite ?URLSearchParams_get_set_ne by done;
       destruct (falsy (opts ≫= o_model));
       rewrite ?URLSearchParams_get_set_ne by done; reflexivity))).
Qed.

(** What the client joins the route splits again. *)
Lemma parseTools_toolsQuery (tools : list jsstring) :
  Forall (fun tool =>
            tool ≠ [] ∧ (44 ∉ tool)
            ∧ (∀ c, head tool = Some c → isWhiteSpace c = false)
            ∧ (∀ c, last tool = Some c → isWhiteSpace c = false))
    tools →
  parseTools (toolsQuery (Some tools)) = match tools with [] => None | _ => Some tools end.
Proof.
  intros Hall. destruct tools as [|tool rest]; [done |].
  unfold toolsQuery, parseTools. cbv zeta.
  set (tools := tool :: rest) in *.
  assert (Hcomma : Forall (fun x => 44 ∉ x) tools)
    by (eapply Forall_impl; [exact Hall |]; by intros x (_ & ? & _)).
  assert (Hjoin : join (js ",") tools ≠ []).
  { subst tools. apply Forall_cons in Hall as [(Hne & _) _].
    destruct rest; simpl; [done |]. by destruct tool. }
  assert (Hor : str_or (Some (join (js ",") tools)) [] = join (js ",") tools)
    by by destruct (join (js ",") tools).
  rewrite Hor, bool_decide_eq_false_2 by done. f_equal.
  unfold splitTrimFilter. change (js ",") with [44].
  rewrite (splitOn_join 44 tools Hcomma) by done.
  clear Hcomma Hjoin Hor. induction tools as [|x l IH]; [done |].
  apply Forall_cons in Hall as [(Hne & _ & Hhead & Hlast) Hall].
  rewrite fmap_cons.
  pose proof (trim_padded [] x [] (Forall_nil_2 _) (Forall_nil_2 _) Hhead Hlast) as Htrim.
  rewrite app_nil_r in Htrim. simpl in Htrim. rewrite Htrim.
  rewrite filter_cons_True by done. by rewrite IH.
Qed.

Lemma join_comma_wire parts :
  Forall (fun part => isWellFormed part = true ∧ validUnits part = true) parts →
  isWellFormed (join (js ",") parts) = true ∧ validUnits (join (js ",") parts) = true.
Proof.
  induction 1 as [|part parts [Hwf Hunits] _ [IHwf IHunits]]; [done |].
  destruct parts as [|part' parts]; [done |].
  change (join (js ",") (part :: part' :: parts))
    with (part ++ [44] ++ join (js ",") (part' :: parts)).
  split.
  - rewrite (isWellFormed_app (length part)) by done. exact IHwf.
  - unfold validUnits in *. rewrite !forallb_app, Hunits, IHunits. reflexivity.
Qed.


(** X18: a list of tool names in [opts.tools] arrives at the route as it
    was, through the URL the hook requests and the route parses,
    whatever the text, the thread and the other options are, provided
    the stream URL has no [?] and no [#] of its own (the default,
    [/api/agent/stream], has none) and the names are such as the route's
    parsing can return at all: non-empty, free of commas, without white
    space at their ends, and well-formed strings, a lone surrogate being
    replaced by U+FFFD on the way.  Without [opts], without [tools] or
    with an empty list no parameter is set and the route's [tools] is
    [undefined], not an empty list. *)
Theorem tools_round_trip (baseUrl : option jsstring) (text threadId : jsstring)
    (opts : option MessageOptions) :
  let sent := opts ≫= o_tools in
  (63 ∉ getStreamUrl baseUrl) → (35 ∉ getStreamUrl baseUrl) →
  Forall (fun tool =>
            tool ≠ [] ∧ (44 ∉ tool)
            ∧ (∀ c, head tool = Some c → isWhiteSpace c = false)
            ∧ (∀ c, last tool = Some c → isWhiteSpace c = false)
            ∧ isWellFormed tool = true ∧ validUnits tool = true)
    (default [] sent) →
  routeTools (streamRequestUrl baseUrl text threadId opts)
  = match sent with Some (tool :: rest) => Some (tool :: rest) | _ => None end.
Proof.
  intros sent Hquery Hfragment Hall. unfold routeTools.
  rewrite URL_query_streamRequestUrl by done.
  rewrite urlencodedParse_toString.
  rewrite (URLSearchParams_get_fmap (fun s => urlencodedString (urlencodedSerialize s))
             (fun s => urlencodedString (urlencodedSerialize s)));
    [| by vm_compute | apply streamParams_names].
  rewrite streamParams_tools. fold sent.
  destruct sent as [[|tool rest]|]; [done | | done].
  cbn [default] in Hall. set (tools := tool :: rest) in *.
  change (toolsQuery (Some tools)) with (Some (join (js ",") tools)).
  destruct (join_comma_wire tools) as [Hwf Hunits].
  { eapply Forall_impl; [exact Hall |]. by intros tool' (_ & _ & _ & _ & ? & ?). }
  cbn [fmap option_fmap option_map]. rewrite urlencodedString_serialize by done.
  change (Some (join (js ",") tools)) with (toolsQuery (Some tools)).
  rewrite parseTools_toolsQuery; [done |].
  eapply Forall_impl; [exact Hall |]. by intros tool' (? & ? & ? & ? & _).
Qed.

(** ** A last line without its line feed *)

Lemma utf8_lead_inv d byte :
  decoderInv (utf8_lead d byte).1
  ∧ (byte ≠ 10 → Forall (fun cp => cp ≠ 10) (utf8_lead d byte).2).
Proof.
  unfold utf8_lead, inRange.
  destruct ((0 <=? byte) && (byte <=? 127)) eqn:H1.
  { split; [by left |]. intros Hb. by apply Forall_singleton. }
  destruct ((194 <=? byte) && (byte <=? 223)) eqn:H2.
  { apply andb_true_iff in H2 as [?%N.leb_le ?%N.leb_le].
    split; [| done]. right. left. cbn [fst code_point].
    change 0x1F with (N.ones 5). rewrite land_low. change (2 ^ 5) with 32. nlia. }
  destruct ((224 <=? byte) && (byte <=? 239)) eqn:H3.
  { apply andb_true_iff in H3 as [?%N.leb_le ?%N.leb_le].
    split; [| done]. cbn [fst].
    destruct (decide (byte = 0xE0)) as [-> | Hne].
    - right. right. change (144 ≤ 160 ∧ 191 ≤ 191 ∧ 0 + 1 < 2). lia.
    - right. left. cbn [code_point].
      change 0xF with (N.ones 4). rewrite land_low. change (2 ^ 4) with 16. nlia. }
  destruct ((240 <=? byte) && (byte <=? 244)) eqn:H4.
  { apply andb_true_iff in H4 as [?%N.leb_le ?%N.leb_le].
    split; [| done]. cbn [fst].
    destruct (decide (byte = 0xF0)) as [-> | Hne].
    - right. right. change (144 ≤ 144 ∧ 191 ≤ 191 ∧ 0 + 1 < 3). lia.
    - right. left. cbn [code_point].
      change 0x7 with (N.ones 3). rewrite land_low. change (2 ^ 3) with 8. nlia. }
  split; [by left |]. intros _. by apply Forall_singleton.
Qed.

Lemma continuation_low cp byte lo hi :
  lo ≤ byte ≤ hi → 1 ≤ cp ∨ (0x90 ≤ lo ∧ hi ≤ 0xBF) →
  11 ≤ N.lor (N.shiftl cp 6) (N.land byte 0x3F).
Proof.
  intros Hb Hcp. change 0x3F with (N.ones 6). rewrite land_low, shiftl_mul.
  change (2 ^ 6) with 64.
  rewrite (lor_add (cp * 64) (byte mod 64) 6); [| change (2 ^ 6) with 64; nlia
                                                | change (2 ^ 6) with 64; nlia].
  destruct Hcp as [Hcp | [Hlo Hhi]]; nlia.
Qed.

Lemma utf8_step_inv d byte :
  decoderInv d →
  decoderInv (utf8_step d byte).1
  ∧ (byte ≠ 10 → Forall (fun cp => cp ≠ 10) (utf8_step d byte).2).
Proof.
  intros Hinv. unfold utf8_step.
  case_bool_decide as Hneeded; [apply utf8_lead_inv |].
  destruct (inRange (lower_boundary d) (upper_boundary d) byte) eqn:Hrange; cbn [negb].
  - unfold inRange in Hrange. apply andb_true_iff in Hrange as [Hlo%N.leb_le Hhi%N.leb_le].
    assert (Hcp : 11 ≤ N.lor (N.shiftl (code_point d) 6) (N.land byte 0x3F)).
    { apply (continuation_low _ _ (lower_boundary d) (upper_boundary d)); [done |].
      destruct Hinv as [? | [? | (? & ? & _)]]; [done | by left | by right]. }
    case_bool_decide as Hlast; cbn [fst snd].
    + split; [by left |]. intros _. apply Forall_singleton. lia.
    + split; [| done]. right. left. cbn [code_point]. lia.
  - destruct (utf8_lead (idle d) byte) as [d' out] eqn:Hlead. cbn [fst snd].
    pose proof (utf8_lead_inv (idle d) byte) as [Hd' Hout]. rewrite Hlead in Hd', Hout.
    split; [done |]. intros Hb. constructor; [done | by apply Hout].
Qed.

Lemma emit_inv d cp :
  decoderInv d → decoderInv (emit d cp).1 ∧ (cp ≠ 10 → 10 ∉ (emit d cp).2).
Proof.
  intros Hinv. unfold emit.
  destruct (negb (BOM_seen d) && bool_decide (cp = 65279)); cbn [fst snd];
    (split; [exact Hinv |]); intros Hcp; [apply not_elem_of_nil |].
  unfold utf16_units. destruct (cp <? 65536).
  - intros Hin%list_elem_of_singleton. congruence.
  - rewrite !not_elem_of_cons. split; [lia |]. split; [lia | apply not_elem_of_nil].
Qed.

Lemma emitAll_inv d cps :
  decoderInv d →
  decoderInv (emitAll d cps).1
  ∧ (Forall (fun cp => cp ≠ 10) cps → 10 ∉ (emitAll d cps).2).
Proof.
  revert d. induction cps as [|cp cps IH]; intros d Hinv.
  - split; [done |]. intros _. apply not_elem_of_nil.
  - cbn [emitAll]. destruct (emit_inv d cp Hinv) as [Hinv1 Hout1].
    destruct (emit d cp) as [d1 s1]. cbn [fst snd] in *.
    destruct (IH d1 Hinv1) as [Hinv2 Hout2].
    destruct (emitAll d1 cps) as [d2 s2]. cbn [fst snd] in *.
    split; [done |]. intros [Hcp Hcps]%Forall_cons.
    rewrite not_elem_of_app. split; [by apply Hout1 | by apply Hout2].
Qed.

(** Only the byte 0x0A decodes to a line feed. *)
Lemma decode_inv d value :
  decoderInv d →
  decoderInv (decode d value).1 ∧ (10 ∉ value → 10 ∉ (decode d value).2).
Proof.
  revert d. induction value as [|byte value IH]; intros d Hinv.
  - split; [done |]. intros _. apply not_elem_of_nil.
  - cbn [decode]. destruct (utf8_step_inv d byte Hinv) as [Hinv1 Hout1].
    destruct (utf8_step d byte) as [d1 cps]. cbn [fst snd] in *.
    destruct (emitAll_inv d1 cps Hinv1) as [Hinv2 Hout2].
    destruct (emitAll d1 cps) as [d2 s1]. cbn [fst snd] in *.
    destruct (IH d2 Hinv2) as [Hinv3 Hout3].
    destruct (decode d2 value) as [d3 s2]. cbn [fst snd] in *.
    split; [done |]. rewrite not_elem_of_cons. intros [Hb Hvalue].
    rewrite not_elem_of_app. split; [apply Hout2, Hout1; congruence | by apply Hout3].
Qed.

(** X19: bytes that arrive after the last line feed of a body are never
    processed: a last buffer without the byte 0x0A, whatever it holds
    (the whole of a final frame that lacks its closing line feed, say),
    leaves the hook exactly where the body without it leaves it. *)
Theorem unterminated_tail_dropped (JSON_parse : jsstring → option StreamChunk)
    (clock : nat → N) (old : list MessageResponse) (values : list bytes) (tail : bytes)
    (e : BodyEnd) :
  10 ∉ tail →
  handleStreamResponse JSON_parse clock old (values ++ [tail]) e
  = handleStreamResponse JSON_parse clock old values e.
Proof.
  intros Htail. unfold handleStreamResponse. rewrite !readLoop_readAll.
  rewrite !readAll_concat by apply not_elem_of_nil.
  assert (Hjoin : mjoin (values ++ [tail]) = mjoin values ++ tail).
  { induction values as [|v values IH]; simpl; [by rewrite app_nil_r |].
    by rewrite IH, app_assoc. }
  rewrite Hjoin, readLines_app.
  pose proof (readLines_buffer newReader (mjoin values)) as Hbuffer.
  assert (Hinv : decoderInv (decoder (readLines newReader (mjoin values)).2)).
  { unfold readLines.
    pose proof (decode_inv (decoder newReader) (mjoin values)) as [H _]; [by left |].
    by destruct (decode (decoder newReader) (mjoin values)). }
  destruct (readLines newReader (mjoin values)) as [lines r]. cbn [snd] in Hbuffer, Hinv.
  assert (Hlast : (readLines r tail).1 = []).
  { unfold readLines. destruct (decode_inv (decoder r) tail Hinv) as [_ Htext].
    destruct (decode (decoder r) tail) as [d text]. cbn [fst snd] in *.
    rewrite split_lf_no_lf; [done |].
    rewrite not_elem_of_app. split; [done | by apply Htext]. }
  destruct (readLines r tail) as [lines' r']. cbn [fst] in Hlast. subst lines'.
  rewrite app_nil_r. by destruct e.
Qed.

(** ** From the engine to the message list *)

(** X13: from the route to the hook.  Take any chunks the route drains
    to the end, each a value whose strings are code units, and a client
    whose [JSON.parse] reads the text of each chunk back as that chunk.
    Then, however the network cuts the body, the hook ends with the
    sending flag cleared and the refs reset, and with the message list
    that feeding it the chunks directly, in the order sent, builds from
    the cached list: the connection comment, the blank lines and the
    named event frame add nothing, and no text is lost or changed by the
    UTF-8 encoding, the cutting or the line splitting. *)
Theorem stream_end_to_end (JSON_parse : jsstring → option StreamChunk) (clock : nat → N)
    (old : list MessageResponse) (threadIdParam : JsValue)
    (sent : list (JsValue * StreamChunk)) (pieces : list bytes) :
  Forall (fun vc => validValue vc.1 = true
                    ∧ templateHole (JSON_stringify vc.1) ≠ js "{}"
                    ∧ JSON_parse (templateHole (JSON_stringify vc.1)) = Some vc.2) sent →
  JSON_parse (templateHole (JSON_stringify (obj [("type", JsStr (js "done"))])))
  = Some doneChunk →
  mjoin pieces = mjoin (queue (GET threadIdParam (fst <$> sent) Completed)) →
  let st := handleStreamResponse JSON_parse clock old pieces BodyDone in
  messages st
  = messages (processStreamChunks (imap (fun i vc => (clock (2 + 2 * i)%nat, vc.2)) sent)
                (startStream old))
  ∧ isSending st = false
  ∧ currentMessageIdRef st = None
  ∧ accumulatedContentRef st = [].
Proof.
  intros Hsent Hdone Hpieces st. subst st.
  by rewrite (route_to_hook JSON_parse clock old threadIdParam sent pieces).
Qed.

Lemma tokenGenerator_text_deltas (clock : nat → nat → N) (id : jsstring)
    (deltas : list jsstring) :
  tokenGenerator clock
    ((fun c => messagesEvent (AIMessageChunk (JsStr c) (JsStr id) (JsArray []))) <$> deltas)
  = (fun c => tokenChunk (JsStr c) (JsStr id)) <$> filter (fun c => c ≠ []) deltas.
Proof.
  unfold tokenGenerator. revert clock.
  induction deltas as [|c deltas IH]; intros clock; [done |].
  rewrite fmap_cons, imap_cons. change (mjoin (?x :: ?l)) with (x ++ mjoin l).
  unfold compose. cbv beta. rewrite (IH (fun k => clock (S k))).
  unfold messagesEvent. rewrite classify_AIMessageChunk by done.
  destruct c as [|u c]; [done |].
  by rewrite filter_cons_True by done.
Qed.

Lemma contentsOf_tokens (id : jsstring) (toks : list (N * jsstring)) :
  contentsOf ((fun nc => (nc.1, tokenOf nc.2 (Some id))) <$> toks) = mjoin (snd <$> toks).
Proof.
  unfold contentsOf. rewrite <- list_fmap_compose. f_equal.
  apply list_fmap_ext. intros i [now c] _. simpl. by destruct c.
Qed.

(** The hook on a run of token chunks under one id that no cached
    assistant message carries. *)
Lemma hook_single_window (old : list MessageResponse) (id : jsstring)
    (toks : list (N * jsstring)) :
  id ≠ [] →
  Forall (fun m => isCurrentAi (Some id) m = false) old →
  toks ≠ [] →
  messages (processStreamChunks ((fun nc => (nc.1, tokenOf nc.2 (Some id))) <$> toks)
              (startStream old))
  = old ++ [aiMessage id (mjoin (snd <$> toks))].
Proof.
  intros Hid Hold Hne.
  change (messages ?st) with (l_messages (loopOf st)).
  rewrite processStreamChunks_processChunks.
  2:{ apply duplicateFree_no_tool_call, Forall_fmap, Forall_forall. by intros [now c] _. }
  destruct toks as [|[now c] toks]; [done |].
  rewrite fmap_cons. unfold processChunks. cbn [foldl fst snd].
  rewrite processChunk_token_first by done.
  cbn [loopOf startStream messages currentMessageIdRef accumulatedContentRef
         l_accumulatedContent tokenOf c_messageId c_content app].
  assert (Hstr : str_or (Some id) (js "ai-" ++ N_toString now) = id) by by destruct id.
  assert (Hc : str_or (Some c) [] = c) by by destruct c.
  cbv zeta. rewrite Hstr, Hc.
  change (l_messages (loopOf (startStream old))) with old.
  fold (processChunks ((fun nc => (nc.1, tokenOf nc.2 (Some id))) <$> toks)
          {| l_messages := old ++ [aiMessage id c];
             l_currentMessageId := Some id;
             l_accumulatedContent := c |}).
  rewrite (processChunks_tokens_open _ _ id (length old) (aiMessage id c)); try done.
  - cbn [l_messages l_accumulatedContent].
    rewrite insert_app_r_alt, Nat.sub_diag by done.
    rewrite contentsOf_tokens. done.
  - apply Forall_fmap, Forall_forall. by intros [now' c'] _.
  - cbn [l_messages]. apply findIndex_app_None; [by apply findIndex_None |].
    apply isCurrentAi_aiMessage.
  - cbn [l_messages]. by rewrite lookup_app_r, Nat.sub_diag.
Qed.

Lemma mjoin_filter_nonempty (deltas : list jsstring) :
  mjoin (filter (fun c => c ≠ []) deltas) = mjoin deltas.
Proof.
  induction deltas as [|c deltas IH]; [done |].
  destruct c as [|u c]; [by rewrite filter_cons_False by (intros H; by apply H) |].
  rewrite filter_cons_True by done.
  change (mjoin (?x :: ?l)) with (x ++ mjoin l). by rewrite IH.
Qed.

(** X20: text fidelity of the whole pipeline.  Let the engine stream the
    text of one assistant message as any number of deltas under one id,
    empty deltas included, and let the request run to its end.  Then,
    however the network cuts the response, the client's list ends with
    the cached messages followed by one assistant message under that id
    whose content is the deltas joined in order, nothing lost, added or
    reordered; if the deltas are all empty no message is added.  The
    cached list must not already hold an assistant message with the id,
    and the client's [JSON.parse] must read the text of each token chunk
    back as that chunk. *)
Theorem pipeline_text_fidelity (JSON_parse : jsstring → option StreamChunk)
    (clock : nat → N) (engineClock : nat → nat → N) (old : list MessageResponse)
    (threadIdParam : JsValue) (id : jsstring) (deltas : list jsstring)
    (pieces : list bytes) :
  id ≠ [] → validUnits id = true →
  Forall (fun c => validUnits c = true) deltas →
  Forall (fun m => isCurrentAi (Some id) m = false) old →
  (∀ c, c ∈ deltas → c ≠ [] →
        JSON_parse (templateHole (JSON_stringify (tokenChunk (JsStr c) (JsStr id))))
        = Some (tokenOf c (Some id))) →
  JSON_parse (templateHole (JSON_stringify (obj [("type", JsStr (js "done"))])))
  = Some doneChunk →
  mjoin pieces
  = mjoin (queue (GET threadIdParam
                    (tokenGenerator engineClock
                       ((fun c => messagesEvent
                                    (AIMessageChunk (JsStr c) (JsStr id) (JsArray [])))
                          <$> deltas))
                    Completed)) →
  messages (handleStreamResponse JSON_parse clock old pieces BodyDone)
  = old ++ (if bool_decide (mjoin deltas = []) then [] else [aiMessage id (mjoin deltas)]).
Proof.
  intros Hid Hid_units Hunits Hold Hparse Hdone Hpieces.
  rewrite tokenGenerator_text_deltas in Hpieces.
  set (texts := filter (fun c => c ≠ []) deltas) in *.
  set (sent := (fun c => (tokenChunk (JsStr c) (JsStr id), tokenOf c (Some id))) <$> texts).
  assert (Hfst : fst <$> sent = (fun c => tokenChunk (JsStr c) (JsStr id)) <$> texts).
  { subst sent. rewrite <- list_fmap_compose. by apply list_fmap_ext. }
  rewrite <- Hfst in Hpieces.
  rewrite (route_to_hook JSON_parse clock old threadIdParam sent pieces); [| | done | done].
  2:{ subst sent texts. apply Forall_fmap, Forall_forall.
      intros c [Hc Hin]%list_elem_of_filter. cbn [fst snd].
      rewrite Forall_forall in Hunits. split; [| split].
      - cbn. rewrite (Hunits c Hin), Hid_units. done.
      - done.
      - by apply Hparse. }
  cbn [endStream messages].
  set (toks := imap (fun i c => (clock (2 + 2 * i)%nat, c)) texts).
  assert (Hsent : imap (fun i vc => (clock (2 + 2 * i)%nat, vc.2)) sent
                  = (fun nc => (nc.1, tokenOf nc.2 (Some id))) <$> toks).
  { subst sent toks. rewrite imap_fmap, fmap_imap. by apply imap_ext. }
  rewrite Hsent.
  assert (Hsnd : snd <$> toks = texts).
  { subst toks. rewrite fmap_imap. clear. generalize (fun i => clock (2 + 2 * i)%nat).
    induction texts as [|c texts IH]; intros f; [done |].
    rewrite imap_cons. f_equal. apply (IH (fun i => f (S i))). }
  pose proof (mjoin_filter_nonempty deltas) as Hjoin. fold texts in Hjoin.
  destruct texts as [|c texts'] eqn:Htexts.
  - assert (toks = []) as -> by done.
    rewrite <- Hjoin, bool_decide_eq_true_2 by done. by rewrite app_nil_r.
  - rewrite hook_single_window; [| done | done | by subst toks].
    rewrite Hsnd, Hjoin.
    rewrite bool_decide_eq_false_2; [done |].
    rewrite <- Hjoin. assert (Hc : c ≠ []).
    { assert (Hin : c ∈ filter (fun c => c ≠ []) deltas) by (fold texts; rewrite Htexts; apply list_elem_of_here).
      by apply list_elem_of_filter in Hin as [? _]. }
    by destruct c.
Qed.

(** ** Instances *)

Lemma getCORSConfig_round_trip_witness :
  allowedOrigins
    (getCORSConfig
       (Some (join (js ",")
                ((fun '(pre, origin, post) => pre ++ origin ++ post)
                   <$> [([32], js "https://a.example", []);
                        ([], js "http://localhost:3000", [32; 9])]))))
  = [js "https://a.example"; js "http://localhost:3000"].
Proof.
  apply (getCORSConfig_round_trip
           [([32], js "https://a.example", []); ([], js "http://localhost:3000", [32; 9])]).
  repeat (apply Forall_cons; split); [| | apply Forall_nil_2].
  - split; [by repeat constructor |]. split; [by repeat constructor |].
    split; [discriminate |]. split; [| split].
    + intros Hin. vm_compute in Hin.
      repeat (apply elem_of_cons in Hin as [Hin | Hin]; [discriminate |]).
      by apply elem_of_nil in Hin.
    + intros c Hc. vm_compute in Hc. injection Hc as <-. reflexivity.
    + intros c Hc. vm_compute in Hc. injection Hc as <-. reflexivity.
  - split; [by repeat constructor |]. split; [by repeat constructor |].
    split; [discriminate |]. split; [| split].
    + intros Hin. vm_compute in Hin.
      repeat (apply elem_of_cons in Hin as [Hin | Hin]; [discriminate |]).
      by apply elem_of_nil in Hin.
    + intros c Hc. vm_compute in Hc. injection Hc as <-. reflexivity.
    + intros c Hc. vm_compute in Hc. injection Hc as <-. reflexivity.
Defined.

(** A name with an accent, a CR LF, a slash, a quote and a character
    outside the basic plane. *)
Lemma buildContentDispositionAttachment_printable_witness :
  let originalFilename := [0x72; 0xE9; 13; 10; 47; 34; 0xD83D; 0xDE00] in
  ∃ header,
    buildContentDispositionAttachment originalFilename = Returned (Some header)
    ∧ Forall (fun c => 0x20 ≤ c ≤ 0x7E) header.
Proof.
  intros originalFilename. eexists. split; [vm_compute; reflexivity |].
  apply (buildContentDispositionAttachment_printable originalFilename).
  - repeat (apply Forall_cons; split; [reflexivity |]). apply Forall_nil_2.
  - vm_compute. reflexivity.
Defined.

Lemma buildContentDispositionAttachment_returns_witness :
  ∃ header,
    buildContentDispositionAttachment [0x72; 0xE9; 13; 10; 47; 34; 0xD83D; 0xDE00]
    = Returned header.
Proof.
  apply (buildContentDispositionAttachment_returns
           [0x72; 0xE9; 13; 10; 47; 34; 0xD83D; 0xDE00]).
  - reflexivity.
  - simpl. lia.
Defined.

Lemma buildContentDispositionAttachment_filename_witness :
  let originalFilename := [0x72; 0xE9; 13; 10; 47; 34; 0xD83D; 0xDE00] in
  let header := js "attachment; filename=" ++ [34; 0x72; 95; 95; 92; 34; 95; 95; 34]
                ++ js "; filename*=UTF-8''r%C3%A9_%22%F0%9F%98%80" in
  ∃ safe rest,
    sanitizeFilenameForHeader originalFilename = Some safe
    ∧ take 22 header = js "attachment; filename=" ++ [34]
    ∧ readQuoted (drop 22 header)
      = Some ((fun c => if isNotPrintable c then 95 else c) <$> safe, rest).
Proof.
  intros originalFilename header.
  apply (buildContentDispositionAttachment_filename originalFilename header).
  vm_compute. reflexivity.
Defined.

Lemma stream_end_to_end_witness :
  let content := [72; 0xE9; 0x4E2D; 10; 92] in
  let body := mjoin (queue (GET (JsStr (js "t1"))
                              [tokenChunk (JsStr content) (JsStr (js "m1"))] Completed)) in
  let st := handleStreamResponse JSON_parse_sample (fun _ => 0) []
              [take 50 body; drop 50 body] BodyDone in
  messages st = [aiMessage (js "m1") content]
  ∧ isSending st = false
  ∧ currentMessageIdRef st = None
  ∧ accumulatedContentRef st = [].
Proof.
  intros content body st.
  destruct (stream_end_to_end JSON_parse_sample (fun _ => 0) [] (JsStr (js "t1"))
              [(tokenChunk (JsStr content) (JsStr (js "m1")), tokenOf content (Some (js "m1")))]
              [take 50 body; drop 50 body])
    as (Hmessages & Hrest).
  - apply Forall_cons. split; [| apply Forall_nil_2].
    split; [reflexivity |]. split; [vm_compute; discriminate | vm_compute; reflexivity].
  - vm_compute. reflexivity.
  - vm_compute. reflexivity.
  - split; [| exact Hrest]. fold st in Hmessages. rewrite Hmessages. reflexivity.
Defined.

Lemma tokenGenerator_chunks_witness :
  let chunk := tokenChunk (JsStr (js "Hi")) (JsStr (js "m1")) in
  let iterable := [messagesEvent (AIMessageChunk (JsStr (js "Hi")) (JsStr (js "m1"))
                                    JsUndefined)] in
  ∃ message rest,
    JsArray [JsStr (js "messages"); JsArray (message :: rest)] ∈ iterable
    ∧ truthy message = true
    ∧ ((∃ content,
          chunk = tokenChunk content (get "id" message) ∧ truthy content = true
          ∧ constructorName message = JsStr (js "AIMessageChunk"))
       ∨ (∃ toolCall,
            chunk = toolCallChunk toolCall (get "id" message)
            ∧ constructorName message = JsStr (js "AIMessageChunk"))
       ∨ (∃ name content,
            chunk = toolResultChunk name content (get "id" message)
            ∧ truthy name = true
            ∧ (typeof_string content = true ∨ content = JsUndefined)
            ∧ constructorName message = JsStr (js "ToolMessage"))).
Proof.
  intros chunk iterable.
  apply (tokenGenerator_chunks (fun _ _ => 0) iterable chunk).
  apply list_elem_of_here.
Defined.

Lemma generator_messages_witness :
  let message := JsObject (js "AIMessage")
                   [(js "content",
                     JsArray [obj [("text", JsStr (js "Let me look"))];
                              obj [("functionCall", obj [("name", JsStr (js "search"))])]]);
                    (js "id", JsStr (js "m1"))] in
  let iterable := [JsArray [JsStr (js "updates");
                            obj [("agent", obj [("messages", JsArray [message])])]]] in
  let m := obj [("type", JsStr (js "ai"));
                ("data", obj [("id", JsStr (js "m1")); ("content", JsStr []);
                              ("tool_calls", JsUndefined);
                              ("additional_kwargs", JsUndefined);
                              ("response_metadata", JsUndefined)])] in
  ∃ chunkData message' data,
    JsArray [JsStr (js "updates"); chunkData] ∈ iterable
    ∧ (get "messages" (get "agent" chunkData) = message'
       ∨ ∃ items, get "messages" (get "agent" chunkData) = JsArray items ∧ message' ∈ items)
    ∧ (constructorName message' = JsStr (js "AIMessageChunk")
       ∨ constructorName message' = JsStr (js "AIMessage"))
    ∧ m = obj [("type", JsStr (js "ai")); ("data", data)]
    ∧ truthy (get "id" data) = true
    ∧ ((hasToolCall message' = true ∧ get "content" data = JsStr []
        ∧ get "tool_calls" data = js_or (get "tool_calls" message') JsUndefined)
       ∨ (hasToolCall message' = false
          ∧ get "content" data = JsStr (contentText ToString_sample message')
          ∧ trim (contentText ToString_sample message') ≠ [])).
Proof.
  intros message iterable m.
  apply (generator_messages ToString_sample (fun _ _ => 0) iterable m).
  apply list_elem_of_here.
Defined.

(** A body of two tokens, the first without a [messageId]: the id of
    the message is made from the reading at its line, the first, and the
    two deliveries agree there only. *)
Lemma handleStreamResponse_split_invariance_witness :
  let idless := obj [("type", JsStr (js "token")); ("content", JsStr (js "Hi"))] in
  let parse := fun s =>
    if bool_decide (Some s = JSON_stringify idless) then Some (tokenOf (js "Hi") None)
    else JSON_parse_sample s in
  let body :=
    dataFrame idless
    ++ dataFrame (tokenChunk (JsStr [72; 0xE9; 0x4E2D; 10; 92]) (JsStr (js "m1"))) in
  let clock := fun k : nat => 7 + N.of_nat k in
  let clock' := fun k : nat => if (k =? 0)%nat then 7 else 50 in
  handleStreamResponse parse clock [] [take 20 body; drop 20 body] BodyDone
  = handleStreamResponse parse clock' [] [body] BodyDone.
Proof.
  intros idless parse body clock clock'.
  apply (handleStreamResponse_split_invariance parse clock clock' []
           [take 20 body; drop 20 body] [body] BodyDone).
  - by vm_compute.
  - intros k line Hk Hreads.
    destruct k as [|[|[|[|k]]]];
      first [ reflexivity
            | vm_compute in Hk;
              first [ discriminate
                    | injection Hk as <-; vm_compute in Hreads; discriminate ] ].
Defined.

Lemma tools_round_trip_witness :
  routeTools
    (streamRequestUrl None (js "hi there") (js "t1")
          (Some {| o_model := Some (js "gpt 4"); o_provider := None;
                   o_tools := Some [js "search&find=1"; [72; 0xE9; 0x4E2D]; js "x y+z%41"];
                   o_allowTool := None; o_approveAllTools := Some true;
                   o_attachments := None |}))
  = Some [js "search&find=1"; [72; 0xE9; 0x4E2D]; js "x y+z%41"].
Proof.
  apply (tools_round_trip None (js "hi there") (js "t1")
           (Some {| o_model := Some (js "gpt 4"); o_provider := None;
                    o_tools := Some [js "search&find=1"; [72; 0xE9; 0x4E2D]; js "x y+z%41"];
                    o_allowTool := None; o_approveAllTools := Some true;
                    o_attachments := None |})).
  1, 2: intros Hin; vm_compute in Hin;
    repeat (apply elem_of_cons in Hin as [Hin | Hin]; [discriminate |]);
    by apply elem_of_nil in Hin.
  cbn [mbind option_bind o_tools default].
  repeat (apply Forall_cons; split); [| | | apply Forall_nil_2].
  all: split; [discriminate |]; split; [| split; [| split; [| split; reflexivity]]].
  all: try (intros c Hc; vm_compute in Hc; injection Hc as <-; reflexivity).
  all: intros Hin; vm_compute in Hin;
    repeat (apply elem_of_cons in Hin as [Hin | Hin]; [discriminate |]);
    by apply elem_of_nil in Hin.
Defined.

(** A body whose second frame lacks its line feeds: the token it carries
    is never shown. *)
Lemma unterminated_tail_dropped_witness :
  let content := [72; 0xE9; 0x4E2D; 10; 92] in
  let frame := dataFrame (tokenChunk (JsStr content) (JsStr (js "m1"))) in
  handleStreamResponse JSON_parse_sample (fun _ => 0) []
    ([frame] ++ [take (length frame - 2) frame]) BodyDone
  = handleStreamResponse JSON_parse_sample (fun _ => 0) [] [frame] BodyDone.
Proof.
  intros content frame.
  apply (unterminated_tail_dropped JSON_parse_sample (fun _ => 0) [] [frame]
           (take (length frame - 2) frame) BodyDone).
  intros Hin. vm_compute in Hin.
  repeat (apply elem_of_cons in Hin as [Hin | Hin]; [discriminate |]).
  by apply elem_of_nil in Hin.
Defined.

Lemma pipeline_text_fidelity_witness :
  let content := [72; 0xE9; 0x4E2D; 10; 92] in
  let deltas := [[]; content; []] in
  let body :=
    mjoin (queue (GET (JsStr (js "t1"))
                    (tokenGenerator (fun _ _ => 0)
                       ((fun c => messagesEvent
                                    (AIMessageChunk (JsStr c) (JsStr (js "m1")) (JsArray [])))
                          <$> deltas))
                    Completed)) in
  messages (handleStreamResponse JSON_parse_sample (fun _ => 0)
              [humanMessage 7 (js "Hello")] [take 30 body; take 30 (drop 30 body);
                                              drop 60 body] BodyDone)
  = [humanMessage 7 (js "Hello"); aiMessage (js "m1") content].
Proof.
  intros content deltas body.
  apply (pipeline_text_fidelity JSON_parse_sample (fun _ => 0) (fun _ _ => 0)
           [humanMessage 7 (js "Hello")] (JsStr (js "t1")) (js "m1") deltas
           [take 30 body; take 30 (drop 30 body); drop 60 body]).
  - discriminate.
  - reflexivity.
  - repeat (apply Forall_cons; split; [reflexivity |]). apply Forall_nil_2.
  - apply Forall_cons. split; [reflexivity | apply Forall_nil_2].
  - intros c Hin Hne.
    apply elem_of_cons in Hin as [-> | Hin]; [done |].
    apply elem_of_cons in Hin as [-> | Hin]; [vm_compute; reflexivity |].
    apply elem_of_cons in Hin as [-> | Hin]; [done |].
    by apply elem_of_nil in Hin.
  - vm_compute. reflexivity.
  - vm_compute. reflexivity.
Defined.

Lemma token_fidelity_single_window_witness :
  processChunksToMessages
    [(1, tokenOf (js "Hel") (Some (js "m1"))); (2, tokenOf (js "lo") (Some (js "m1")));
     (3, tokenOf (js "!") None)]
  = [aiMessage (js "m1") (js "Hello!")].
Proof.
  apply (token_fidelity_single_window 1 (tokenOf (js "Hel") (Some (js "m1")))
           [(2, tokenOf (js "lo") (Some (js "m1"))); (3, tokenOf (js "!") None)]).
  repeat (apply Forall_cons; split; [reflexivity |]). apply Forall_nil_2.
Defined.


Lemma hook_simulation_agree_distinct_ids_witness :
  let search := {| tc_name := js "search"; tc_args := obj [("q", JsStr (js "x"))];
                   tc_id := js "c1"; tc_type := js "tool_call" |} in
  let read := {| tc_name := js "read_file"; tc_args := obj [];
                 tc_id := js "c2"; tc_type := js "tool_call" |} in
  let chunks :=
    [(1, tokenOf (js "Hi") (Some (js "m1"))); (2, toolCallOf search (Some (js "m1")));
     (3, toolCallOf read (Some (js "m1"))); (4, doneChunk)] in
  messages (processStreamChunks chunks (startStream [])) = processChunksToMessages chunks.
Proof.
  intros search read chunks.
  apply (hook_simulation_agree_distinct_ids chunks).
  apply NoDup_cons. split.
  - intros Hin. apply list_elem_of_singleton in Hin. discriminate.
  - apply NoDup_singleton.
Defined.

Lemma hook_tool_call_ids_unique_witness :
  let search := {| tc_name := js "search"; tc_args := obj [("q", JsStr (js "x"))];
                   tc_id := js "c1"; tc_type := js "tool_call" |} in
  let chunks :=
    [(1, tokenOf (js "Hi") (Some (js "m1"))); (2, toolCallOf search (Some (js "m1")));
     (3, toolCallOf search (Some (js "m1")))] in
  Forall (fun m => NoDup (tc_id <$> toolCallsOf m))
    (messages (processStreamChunks chunks
                 (startStream [withToolCalls (aiMessage (js "m0") (js "Earlier")) [search]]))).
Proof.
  intros search chunks.
  apply (hook_tool_call_ids_unique chunks
           [withToolCalls (aiMessage (js "m0") (js "Earlier")) [search]]).
  apply Forall_singleton. apply NoDup_singleton.
Defined.

(** ** The hook on any number of windows *)



(** ** The attachment list *)

(** X26: the input form never holds more than [MAX_ATTACHMENTS]
    attachments.  If the list was within the limit when the handler was
    rendered and has not grown since (attachments may have been removed
    while the uploads ran), then after the selection is handled it is
    still within the limit, however many files were selected and whether
    or not the uploads succeed. *)
Theorem handleFileSelect_cap (MAX_ATTACHMENTS : nat) (File FileAttachment : Type)
    (upload : File → option FileAttachment) (attachments : list FileAttachment)
    (files : list File) (prev : list FileAttachment) :
  (length attachments ≤ MAX_ATTACHMENTS)%nat →
  (length prev ≤ length attachments)%nat →
  (length (handleFileSelect MAX_ATTACHMENTS File FileAttachment upload attachments files prev)
   ≤ MAX_ATTACHMENTS)%nat.
Proof.
  intros Hmax Hprev. unfold handleFileSelect.
  destruct files as [|file files]; [lia |].
  destruct (Nat.eqb_spec (MAX_ATTACHMENTS - length attachments) 0) as [Hzero | Hslots];
    [lia |].
  destruct (mapM upload (take (MAX_ATTACHMENTS - length attachments) (file :: files)))
    as [uploadedFiles|] eqn:Hupload; [| lia].
  apply length_mapM in Hupload. rewrite length_app, <- Hupload, length_take. lia.
Qed.

Lemma handleFileSelect_cap_witness :
  (length (handleFileSelect 3 jsstring jsstring (fun file => Some (js "key-" ++ file))
             [js "key-a"; js "key-b"] [js "c"; js "d"; js "e"] [js "key-b"])
   ≤ 3)%nat.
Proof.
  apply (handleFileSelect_cap 3 jsstring jsstring (fun file => Some (js "key-" ++ file))
           [js "key-a"; js "key-b"] [js "c"; js "d"; js "e"] [js "key-b"]);
    simpl; lia.
Defined.

(** ** Function calls in the content *)

(** X27: the tool calls the classifier builds from [functionCall] items
    do not get ids of their own: when the message has a truthy id, every
    such tool call carries that id, so several function calls in one
    message all share one id, the id by which the accumulator tells tool
    calls apart (C6). *)
Theorem functionCall_tool_calls_share_id (now : nat → N) (message chunk : JsValue) :
  truthy (get "id" message) = true →
  chunk ∈ classifyContent now message →
  isToolCallChunk chunk = true →
  get "id" (get "toolCall" chunk) = get "id" message
  ∧ get "messageId" chunk = get "id" message.
Proof.
  intros Hid Hin Hkind. unfold classifyContent in Hin.
  destruct (typeof_string (get "content" message) && truthy (get "content" message)).
  { apply list_elem_of_singleton in Hin as ->. by vm_compute in Hkind. }
  destruct (get "content" message) as [| | | | | |items|]; try by apply elem_of_nil in Hin.
  apply list_elem_of_join in Hin as (l & Hin & Hl).
  apply elem_of_lookup_imap in Hl as (i & item & -> & _).
  unfold classifyContentItem in Hin.
  destruct (typeof_string item && truthy item).
  { apply list_elem_of_singleton in Hin as ->. by vm_compute in Hkind. }
  destruct (truthy item && typeof_object item); [| by apply elem_of_nil in Hin].
  apply elem_of_app in Hin as [Hin | Hin].
  - destruct (has "text" item && truthy (get "text" item)); [| by apply elem_of_nil in Hin].
    apply list_elem_of_singleton in Hin as ->. by vm_compute in Hkind.
  - destruct (has "functionCall" item && truthy (get "functionCall" item));
      [| by apply elem_of_nil in Hin].
    apply list_elem_of_singleton in Hin as ->.
    split; [| reflexivity].
    change (get "id" (get "toolCall" (toolCallChunk ?tc ?mid))) with (get "id" tc).
    change (get "id" (obj [("name", ?n); ("args", ?a); ("id", ?x); ("type", ?t)])) with x.
    unfold js_or. by rewrite Hid.
Qed.

Lemma functionCall_tool_calls_share_id_witness :
  let message :=
    AIMessageChunk
      (JsArray [obj [("functionCall", obj [("name", JsStr (js "search"));
                                           ("args", obj [("q", JsStr (js "x"))])])];
                obj [("functionCall", obj [("name", JsStr (js "read_file"));
                                           ("args", obj [("path", JsStr (js "a"))])])]])
      (JsStr (js "m1")) JsUndefined in
  let second :=
    toolCallChunk (obj [("name", JsStr (js "read_file"));
                        ("args", obj [("path", JsStr (js "a"))]);
                        ("id", JsStr (js "m1")); ("type", JsStr (js "tool_call"))])
      (JsStr (js "m1")) in
  get "id" (get "toolCall" second) = get "id" message
  ∧ get "messageId" second = get "id" message.
Proof.
  intros message second.
  apply (functionCall_tool_calls_share_id (fun i => N.of_nat i) message second).
  - reflexivity.
  - apply list_elem_of_further, list_elem_of_here.
  - reflexivity.
Defined.
